(** * Authority and signature verification of [libraries/protocol/transaction.cpp]

    A shallow embedding of the [sign_state] object, the free function
    [verify_authority], [transaction::get_required_authorities] and the
    signature minimizer of [signed_transaction], followed by the properties
    of the specification that concern them.

    Conventions.
    - [uint32_t] values are integers of [Z] with the wrap-around written
      out ([u32]).
    - [flat_set] and [flat_map] objects are finite sets and maps; whenever
      the source iterates over one, the model walks its elements in
      ascending order ([in_order]), which is the iteration order of the
      sorted containers of the source.
    - The member functions of [sign_state] mutate the object: they are
      state-passing functions whose [result] is either a value with the new
      state or [Undefined], the outcome of an execution that dereferences a
      past-the-end iterator, a disengaged [optional] or a null pointer.
    - Exceptions of [verify_authority] are values of [error_kind]. *)

From stdpp Require Import base option list sorting numbers gmap sets.
From Stdlib Require Import ZArith Lia.

Local Open Scope Z_scope.

(** ** Basic types *)

(** A public key, read as the number its serialised bytes denote. *)
Definition public_key_type := N.
(** A legacy address (a 160 bit hash), read as a number. *)
Definition address := N.
(** The instance number of an account object id. *)
Definition account_id_type := N.

(** [uint32_t] arithmetic. *)
Definition u32_modulus : Z := 2 ^ 32.
Definition u32 (z : Z) : Z := z mod u32_modulus.
Definition is_u32 (z : Z) : Prop := 0 <= z < u32_modulus.

(** The [authority] structure ([authority.hpp] is outside this file; the
    fields are the ones [check_authority] reads).  Each table is listed in
    the order in which the source iterates over it. *)
Record authority := {
  weight_threshold : Z;
  key_auths : list (public_key_type * Z);
  address_auths : list (address * Z);
  account_auths : list (account_id_type * Z)
}.

(** Every field is in the range of its C++ type: a 32 bit threshold and
    16 bit weights. *)
Definition weight_ok (w : Z) : Prop := 0 <= w < 2 ^ 16.
Definition authority_ok (au : authority) : Prop :=
  is_u32 (weight_threshold au) /\
  Forall (fun e => weight_ok (snd e)) (key_auths au) /\
  Forall (fun e => weight_ok (snd e)) (address_auths au) /\
  Forall (fun e => weight_ok (snd e)) (account_auths au).

(** The sum of all weights an authority lists. *)
Definition sum_weights {A} (l : list (A * Z)) : Z :=
  foldr (fun e acc => snd e + acc) 0 l.
Definition total_listed_weight (au : authority) : Z :=
  sum_weights (key_auths au) + sum_weights (address_auths au)
  + sum_weights (account_auths au).

(** Ascending iteration over a sorted container. *)
Definition in_order (X : gset N) : list N := merge_sort N.le (elements X).

(** ** The sign_state object *)

Record sign_state := {
  provided_signatures : gmap public_key_type bool;
  approved_by : gset account_id_type;
  available_address_sigs : option (gmap address public_key_type);
  provided_address_sigs : option (gmap address public_key_type)
}.

Definition set_provided (f : gmap public_key_type bool -> gmap public_key_type bool)
    (s : sign_state) : sign_state :=
  {| provided_signatures := f (provided_signatures s);
     approved_by := approved_by s;
     available_address_sigs := available_address_sigs s;
     provided_address_sigs := provided_address_sigs s |}.

Definition set_approved (f : gset account_id_type -> gset account_id_type)
    (s : sign_state) : sign_state :=
  {| provided_signatures := provided_signatures s;
     approved_by := f (approved_by s);
     available_address_sigs := available_address_sigs s;
     provided_address_sigs := provided_address_sigs s |}.

Definition set_address_sigs (av pr : gmap address public_key_type)
    (s : sign_state) : sign_state :=
  {| provided_signatures := provided_signatures s;
     approved_by := approved_by s;
     available_address_sigs := Some av;
     provided_address_sigs := Some pr |}.

(** [provided_signatures[k] = true]. *)
Definition mark (k : public_key_type) : sign_state -> sign_state :=
  set_provided (insert k true).

(** The outcome of a member function. *)
Inductive result (A : Type) :=
  | Ok (a : A) (s : sign_state)
  | Undefined.
Arguments Ok {A} a s.
Arguments Undefined {A}.

Definition bind {A B} (m : result A) (f : A -> sign_state -> result B) : result B :=
  match m with
  | Ok a s => f a s
  | Undefined => Undefined
  end.

Notation "'let*' ( x , s ) := m 'in' k" := (bind m (fun x s => k))
  (at level 10, x name, s name, m at level 100, k at level 200).

(** The exit of one of the three loops of [check_authority]: the function
    returned [true] from inside the loop, or the loop ended with a total. *)
Inductive loop_exit :=
  | Returned_true
  | Fell_through (total_weight : Z).

(** The exceptions of [exceptions.hpp] that this file raises. *)
Inductive error_kind :=
  | tx_missing_active_auth
  | tx_missing_owner_auth
  | tx_missing_other_auth
  | tx_irrelevant_sig
  | tx_duplicate_sig
  | invalid_committee_approval.

(** The outcome of a function that may throw. *)
Inductive outcome (A : Type) :=
  | Returns (a : A)
  | Throws (e : error_kind)
  | Undefined_behaviour.
Arguments Returns {A} a.
Arguments Throws {A} e.
Arguments Undefined_behaviour {A}.

(** The three containers [operation_get_required_authorities] fills. *)
Record required := {
  active : gset account_id_type;
  owner : gset account_id_type;
  other : list authority
}.

Section Protocol.

(** [address(pts_address(k, compressed, version))] and [address(k)]: the
    derivations of [pts_address.hpp] and [address.hpp]. *)
Variable pts_address : public_key_type -> bool -> Z -> address.
Variable address_of_key : public_key_type -> address.

(** The five table entries written for one key, in source order. *)
Definition address_entries (item : public_key_type)
    : list (address * public_key_type) :=
  [ (pts_address item false 56, item);
    (pts_address item true 56, item);
    (pts_address item false 0, item);
    (pts_address item true 0, item);
    (address_of_key item, item) ].

(** The addresses under which a key is entered. *)
Definition derived_addresses (item : public_key_type) : list address :=
  (address_entries item).*1.

(** Each entry of each key is stored with [table[a] = item], in iteration
    order, so a later key overwrites an earlier one on the same address. *)
Definition build_address_sigs (keys : list public_key_type)
    : gmap address public_key_type :=
  fold_left (fun m item =>
               fold_left (fun m' e => <[e.1 := e.2]> m') (address_entries item) m)
            keys ∅.

Section SignState.

Variable get_active : account_id_type -> option authority.
Variable get_owner : account_id_type -> option authority.
Variable allow_non_immediate_owner : bool.
Variable max_recursion : Z.
Variable available_keys : gset public_key_type.

(** [bool signed_by( const public_key_type& k )] *)
Definition signed_by_key (k : public_key_type) (s : sign_state) : result bool :=
  match provided_signatures s !! k with
  | None =>
      if decide (k ∈ available_keys) then Ok true (mark k s)
      else Ok false s
  | Some _ => Ok true (mark k s)
  end.

(** The lazy construction at the head of [signed_by( const address& )]. *)
Definition ensure_address_sigs (s : sign_state) : sign_state :=
  match available_address_sigs s with
  | None =>
      set_address_sigs
        (build_address_sigs (in_order available_keys))
        (build_address_sigs (in_order (dom (provided_signatures s))))
        s
  | Some _ => s
  end.

(** [bool signed_by( const address& a )].  When [a] is in neither table
    control leaves the outer [if] and reaches the final statement with
    [itr == provided_address_sigs->end()], which it dereferences. *)
Definition signed_by_address (a : address) (s : sign_state) : result bool :=
  let s1 := ensure_address_sigs s in
  match provided_address_sigs s1, available_address_sigs s1 with
  | Some provided, Some available =>
      match provided !! a with
      | None =>
          match available !! a with
          | Some k =>
              if decide (k ∈ available_keys) then Ok true (mark k s1)
              else Ok false s1
          | None => Undefined
          end
      | Some k => Ok true (mark k s1)
      end
  | _, _ => Undefined
  end.

(** The first two loops of [check_authority] have one shape:
    [for( k : table ) if( signed_by( k.first ) ) { total_weight += k.second;
    if( total_weight >= auth.weight_threshold ) return true; }]. *)
Fixpoint signed_loop {A} (signed_by : A -> sign_state -> result bool)
    (threshold : Z) (l : list (A * Z)) (total_weight : Z) (s : sign_state)
    : result loop_exit :=
  match l with
  | [] => Ok (Fell_through total_weight) s
  | k :: l' =>
      let* (signed, s1) := signed_by k.1 s in
      if (signed : bool) then
        let total_weight := u32 (total_weight + k.2) in
        if threshold <=? total_weight then Ok Returned_true s1
        else signed_loop signed_by threshold l' total_weight s1
      else signed_loop signed_by threshold l' total_weight s1
  end.

Definition key_auths_loop := signed_loop signed_by_key.
Definition address_auths_loop := signed_loop signed_by_address.

(** [check( get_active(id) ) || ( allow_non_immediate_owner &&
    check( get_owner(id) ) )], with the short circuits of the source. *)
Definition active_or_owner
    (check : option authority -> sign_state -> result bool)
    (id : account_id_type) (s : sign_state) : result bool :=
  let* (ok, s1) := check (get_active id) s in
  if (ok : bool) then Ok true s1
  else if allow_non_immediate_owner then check (get_owner id) s1
  else Ok false s1.

(** The third loop.  [deeper] is [None] when [depth == max_recursion]
    (the entry is skipped by [continue]) and otherwise the check of a
    delegate at [depth+1]. *)
Fixpoint account_auths_loop
    (deeper : option (account_id_type -> sign_state -> result bool))
    (threshold : Z) (l : list (account_id_type * Z)) (total_weight : Z)
    (s : sign_state) : result loop_exit :=
  match l with
  | [] => Ok (Fell_through total_weight) s
  | a :: l' =>
      if decide (a.1 ∈ approved_by s) then
        let total_weight := u32 (total_weight + a.2) in
        if threshold <=? total_weight then Ok Returned_true s
        else account_auths_loop deeper threshold l' total_weight s
      else
        match deeper with
        | None => account_auths_loop deeper threshold l' total_weight s
        | Some check =>
            let* (ok, s1) := check a.1 s in
            if (ok : bool) then
              let s2 := set_approved (union {[a.1]}) s1 in
              let total_weight := u32 (total_weight + a.2) in
              if threshold <=? total_weight then Ok Returned_true s2
              else account_auths_loop deeper threshold l' total_weight s2
            else account_auths_loop deeper threshold l' total_weight s1
        end
  end.

(** [bool check_authority( const authority* au, uint32_t depth )], by
    recursion on the number [n] of increments that take [depth] to
    [max_recursion]. *)
Fixpoint check_authority_at (n : nat) (au : option authority) (s : sign_state)
    : result bool :=
  match au with
  | None => Ok false s
  | Some auth =>
      let threshold := weight_threshold auth in
      let* (e1, s1) := key_auths_loop threshold (key_auths auth) 0 s in
      match e1 with
      | Returned_true => Ok true s1
      | Fell_through w1 =>
          let* (e2, s2) := address_auths_loop threshold (address_auths auth) w1 s1 in
          match e2 with
          | Returned_true => Ok true s2
          | Fell_through w2 =>
              let deeper :=
                match n with
                | O => None
                | S n' => Some (active_or_owner (check_authority_at n'))
                end in
              let* (e3, s3) :=
                account_auths_loop deeper threshold (account_auths auth) w2 s2 in
              match e3 with
              | Returned_true => Ok true s3
              | Fell_through w3 => Ok (threshold <=? w3) s3
              end
          end
      end
  end.

(** How many times [depth+1] can be taken before [depth == max_recursion]
    holds, in 32 bit arithmetic. *)
Definition remaining (depth : Z) : nat := Z.to_nat (u32 (max_recursion - depth)).

Definition check_authority (au : option authority) (depth : Z)
    : sign_state -> result bool :=
  check_authority_at (remaining depth) au.

(** [bool check_authority( account_id_type id )] *)
Definition check_authority_account (id : account_id_type) (s : sign_state)
    : result bool :=
  if decide (id ∈ approved_by s) then Ok true s
  else active_or_owner (fun au => check_authority au 0) id s.

(** [bool remove_unused_signatures()] *)
Definition remove_sigs (s : sign_state) : list public_key_type :=
  filter (fun k => provided_signatures s !! k = Some false)
         (in_order (dom (provided_signatures s))).

Definition remove_unused_signatures (s : sign_state) : bool * sign_state :=
  let sigs := remove_sigs s in
  (negb (length sigs =? 0)%nat,
   set_provided (fun m => fold_left (fun m' sig => delete sig m') sigs m) s).

(** The tables, once built, are the table of the available keys and a
    table of provided keys that misses no provided key outside the
    available ones. *)
Definition address_sigs_wf (s : sign_state) : Prop :=
  match available_address_sigs s with
  | None => True
  | Some available =>
      available = build_address_sigs (in_order available_keys) /\
      exists provided,
        provided_address_sigs s = Some provided /\
        (forall a k, provided !! a = Some k ->
           (k ∈ dom (provided_signatures s) \/ k ∈ available_keys)
           /\ a ∈ derived_addresses k) /\
        (forall k a, k ∈ dom (provided_signatures s) -> k ∉ available_keys ->
           a ∈ derived_addresses k -> is_Some (provided !! a))
  end.

(** One use of the object: a call of a member function, or the insertion
    into [approved_by] that [verify_authority] performs on the member. *)
Inductive sign_state_call :=
  | call_signed_by_key (k : public_key_type)
  | call_signed_by_address (a : address)
  | call_check_authority_account (id : account_id_type)
  | call_check_authority (au : option authority) (depth : Z)
  | call_remove_unused_signatures
  | call_approved_by_insert (id : account_id_type).

(** The state a call leaves, when the call returns. *)
Definition state_of {A} (r : result A) : option sign_state :=
  match r with
  | Ok _ s => Some s
  | Undefined => None
  end.

Definition run_call (c : sign_state_call) (s : sign_state) : option sign_state :=
  match c with
  | call_signed_by_key k => state_of (signed_by_key k s)
  | call_signed_by_address a => state_of (signed_by_address a s)
  | call_check_authority_account id => state_of (check_authority_account id s)
  | call_check_authority au depth => state_of (check_authority au depth s)
  | call_remove_unused_signatures => Some (remove_unused_signatures s).2
  | call_approved_by_insert id => Some (set_approved (union {[id]}) s)
  end.

(** A sequence of calls on one object. *)
Fixpoint run_calls (cs : list sign_state_call) (s : sign_state) : option sign_state :=
  match cs with
  | [] => Some s
  | c :: cs' =>
      match run_call c s with
      | Some s1 => run_calls cs' s1
      | None => None
      end
  end.

(** No key that is provided or available derives the address [a], and the
    tables are still to be built. *)
Definition unmatched (a : address) (s : sign_state) : Prop :=
  available_address_sigs s = None /\
  forall k, k ∈ dom (provided_signatures s) \/ k ∈ available_keys ->
            a ∉ derived_addresses k.

End SignState.

(** [GRAPHENE_TEMP_ACCOUNT] and [GRAPHENE_COMMITTEE_ACCOUNT] of [config.hpp]. *)
Variable GRAPHENE_TEMP_ACCOUNT : account_id_type.
Variable GRAPHENE_COMMITTEE_ACCOUNT : account_id_type.

(** The constructor of [sign_state]; the reference members are the
    arguments of the member functions above. *)
Definition new_sign_state (sigs : gset public_key_type) : sign_state :=
  {| provided_signatures :=
       fold_left (fun m key => <[key := false]> m) (in_order sigs) ∅;
     approved_by := {[GRAPHENE_TEMP_ACCOUNT]};
     available_address_sigs := None;
     provided_address_sigs := None |}.

(** ** Transactions *)

Variable operation : Type.
Variable signature_type : Type.
Variable chain_id_type : Type.
  (** The rejection log handed to the custom authority lookup, and the
      default constructed (empty) log. *)
Variable rejected_predicate_map : Type.
Variable no_rejections : rejected_predicate_map.

(** [operation_get_required_authorities( op, active, owner, other, ignore )]
    updates the three containers it is given by reference. *)
Variable operation_get_required_authorities :
  operation -> bool -> required -> required.

(** [custom_authority_lookup]: the callback returns the viable custom
    authorities and may write to the rejection log it is pointed to. *)
Definition custom_authority_lookup : Type :=
  account_id_type -> operation -> rejected_predicate_map ->
  list authority * rejected_predicate_map.

Record signed_transaction := {
    operations : list operation;
    signatures : list signature_type
  }.

(** [fc::ecc::public_key( sig, sig_digest( chain_id ) )]: the key a
    signature of the transaction recovers to. *)
Variable signee : chain_id_type -> signed_transaction -> signature_type -> public_key_type.

(** The loop over the operations of [get_required_authorities]. *)
Definition collected (ops : list operation) (ignore : bool) (r : required)
    : required :=
  fold_left (fun r' op => operation_get_required_authorities op ignore r') ops r.

(** [void transaction::get_required_authorities( active, owner, other, ignore )] *)
Definition get_required_authorities (ops : list operation) (ignore : bool)
    (r : required) : required :=
  let r1 := collected ops ignore r in
  {| active := fold_left (fun act account => act ∖ {[account]})
                         (in_order (owner r1)) (active r1);
     owner := owner r1;
     other := other r1 |}.

Section VerifyAuthority.

Variable get_active : account_id_type -> option authority.
Variable get_owner : account_id_type -> option authority.
Variable get_custom : custom_authority_lookup.
Variable allow_non_immediate_owner : bool.
Variable ignore_custom_operation_required_auths : bool.
Variable max_recursion_depth : Z.

Section WithKeys.
Variable available_keys : gset public_key_type.

Definition check (au : option authority) : sign_state -> result bool :=
  check_authority get_active get_owner allow_non_immediate_owner
                  max_recursion_depth available_keys au 0.

Definition check_account : account_id_type -> sign_state -> result bool :=
  check_authority_account get_active get_owner allow_non_immediate_owner
                          max_recursion_depth available_keys.

(** The body of the lambda [approved_by_custom_authority], after the
    lookup: [for( auth : viable ) if( s.check_authority( &auth ) )
    return true; return false;]. *)
Fixpoint custom_auths_loop (viable : list authority) (s : sign_state)
    : result bool :=
  match viable with
  | [] => Ok false s
  | auth :: viable' =>
      let* (ok, s1) := check (Some auth) s in
      if (ok : bool) then Ok true s1 else custom_auths_loop viable' s1
  end.

(** The [while] loop over [operation_required_active]: an account
    approved by a custom authority is erased. *)
Fixpoint custom_erase_loop (op : operation) (ids : list account_id_type)
    (operation_required_active : gset account_id_type)
    (rejected : rejected_predicate_map) (s : sign_state)
    : result (gset account_id_type * rejected_predicate_map) :=
  match ids with
  | [] => Ok (operation_required_active, rejected) s
  | id :: ids' =>
      let '(viable, rejected1) := get_custom id op rejected in
      let* (ok, s1) := custom_auths_loop viable s in
      if (ok : bool)
      then custom_erase_loop op ids' (operation_required_active ∖ {[id]}) rejected1 s1
      else custom_erase_loop op ids' operation_required_active rejected1 s1
  end.

(** [for( const auto& op : ops )] of [verify_authority]. *)
Fixpoint operations_loop (ops : list operation)
    (required_active : gset account_id_type) (req : required)
    (rejected : rejected_predicate_map) (s : sign_state)
    : result (gset account_id_type * required * rejected_predicate_map) :=
  match ops with
  | [] => Ok (required_active, req, rejected) s
  | op :: ops' =>
      let r := operation_get_required_authorities op
                 ignore_custom_operation_required_auths
                 {| active := ∅; owner := owner req; other := other req |} in
      let* (e, s1) := custom_erase_loop op (in_order (active r)) (active r)
                                        rejected s in
      operations_loop ops' (required_active ∪ e.1)
                      {| active := ∅; owner := owner r; other := other r |}
                      e.2 s1
  end.

(** [for( auth : other ) GRAPHENE_ASSERT( s.check_authority(&auth),
    tx_missing_other_auth, ... )] *)
Fixpoint other_loop (l : list authority) (s : sign_state) : outcome sign_state :=
  match l with
  | [] => Returns s
  | auth :: l' =>
      match check (Some auth) s with
      | Ok true s1 => other_loop l' s1
      | Ok false _ => Throws tx_missing_other_auth
      | Undefined => Undefined_behaviour
      end
  end.

(** [for( id : required_owner ) GRAPHENE_ASSERT( owner_approvals.find(id)
    != owner_approvals.end() || s.check_authority(get_owner(id)),
    tx_missing_owner_auth, ..., ("auth",*get_owner(id)) )].  The message
    arguments are evaluated when the assertion fails. *)
Fixpoint owner_loop (owner_approvals : gset account_id_type)
    (ids : list account_id_type) (s : sign_state) : outcome sign_state :=
  match ids with
  | [] => Returns s
  | id :: ids' =>
      if decide (id ∈ owner_approvals) then owner_loop owner_approvals ids' s
      else
        match check (get_owner id) s with
        | Ok true s1 => owner_loop owner_approvals ids' s1
        | Ok false _ =>
            match get_owner id with
            | Some _ => Throws tx_missing_owner_auth
            | None => Undefined_behaviour
            end
        | Undefined => Undefined_behaviour
        end
  end.

(** [for( id : required_active ) GRAPHENE_ASSERT( s.check_authority(id)
    || s.check_authority(get_owner(id)), tx_missing_active_auth, ...,
    ("auth",*get_active(id))("owner",*get_owner(id)) )].  Both pointers
    are dereferenced for the message when the assertion fails. *)
Fixpoint active_loop (ids : list account_id_type) (s : sign_state)
    : outcome sign_state :=
  match ids with
  | [] => Returns s
  | id :: ids' =>
      match check_account id s with
      | Ok true s1 => active_loop ids' s1
      | Ok false s1 =>
          match check (get_owner id) s1 with
          | Ok true s2 => active_loop ids' s2
          | Ok false _ =>
              match get_active id, get_owner id with
              | Some _, Some _ => Throws tx_missing_active_auth
              | _, _ => Undefined_behaviour
              end
          | Undefined => Undefined_behaviour
          end
      | Undefined => Undefined_behaviour
      end
  end.

End WithKeys.

(** [verify_authority] up to, and without, its last assertion: the
    state in which [remove_unused_signatures] is called. *)
Definition requirement_checks (ops : list operation) (sigs : gset public_key_type)
    (allow_committee : bool)
    (active_aprovals owner_approvals : gset account_id_type)
    : outcome sign_state :=
  let s := new_sign_state sigs in
  let s := fold_left (fun s' id => set_approved (union {[id]}) s')
                     (in_order active_aprovals) s in
  let s := fold_left (fun s' id => set_approved (union {[id]}) s')
                     (in_order owner_approvals) s in
  match operations_loop ∅ ops ∅ {| active := ∅; owner := ∅; other := [] |}
                        no_rejections s with
  | Undefined => Undefined_behaviour
  | Ok (required_active, req, _) s1 =>
      if negb allow_committee
         && bool_decide (GRAPHENE_COMMITTEE_ACCOUNT ∈ required_active)
      then Throws invalid_committee_approval
      else
        match other_loop ∅ (other req) s1 with
        | Returns s2 =>
            match owner_loop ∅ owner_approvals (in_order (owner req)) s2 with
            | Returns s3 => active_loop ∅ (in_order required_active) s3
            | o => o
            end
        | o => o
        end
  end.

(** The free function [verify_authority]. *)
Definition verify_authority (ops : list operation) (sigs : gset public_key_type)
    (allow_committee : bool)
    (active_aprovals owner_approvals : gset account_id_type)
    : outcome unit :=
  match requirement_checks ops sigs allow_committee active_aprovals owner_approvals with
  | Returns s =>
      if (remove_unused_signatures s).1 then Throws tx_irrelevant_sig
      else Returns tt
  | Throws e => Throws e
  | Undefined_behaviour => Undefined_behaviour
  end.

(** ** Required and minimal signatures *)

(** [signed_transaction::get_signature_keys]: the loop over the
    attached signatures, inserting each recovered key. *)
Fixpoint signature_keys_loop (chain_id : chain_id_type) (trx : signed_transaction)
    (sigs : list signature_type) (result : gset public_key_type)
    : outcome (gset public_key_type) :=
  match sigs with
  | [] => Returns result
  | sig :: sigs' =>
      let k := signee chain_id trx sig in
      if decide (k ∈ result) then Throws tx_duplicate_sig
      else signature_keys_loop chain_id trx sigs' ({[k]} ∪ result)
  end.

Definition get_signature_keys (chain_id : chain_id_type) (trx : signed_transaction)
    : outcome (gset public_key_type) :=
  signature_keys_loop chain_id trx (signatures trx) ∅.

(** The three loops of [get_required_signatures]; the value of each
    check is dropped. *)
Fixpoint required_other_loop (available_keys : gset public_key_type)
    (l : list authority) (s : sign_state) : result unit :=
  match l with
  | [] => Ok tt s
  | auth :: l' =>
      let* (_x, s1) := check available_keys (Some auth) s in
      required_other_loop available_keys l' s1
  end.

Fixpoint required_owner_loop (available_keys : gset public_key_type)
    (ids : list account_id_type) (s : sign_state) : result unit :=
  match ids with
  | [] => Ok tt s
  | id :: ids' =>
      let* (_x, s1) := check available_keys (get_owner id) s in
      required_owner_loop available_keys ids' s1
  end.

Fixpoint required_active_loop (available_keys : gset public_key_type)
    (ids : list account_id_type) (s : sign_state) : result unit :=
  match ids with
  | [] => Ok tt s
  | id :: ids' =>
      let* (ok, s1) := check_account available_keys id s in
      if (ok : bool) then required_active_loop available_keys ids' s1
      else
        let* (_x, s2) := check available_keys (get_owner id) s1 in
        required_active_loop available_keys ids' s2
  end.

(** [signed_transaction::get_required_signatures] *)
Definition get_required_signatures (chain_id : chain_id_type)
    (trx : signed_transaction) (available_keys : gset public_key_type)
    : outcome (gset public_key_type) :=
  let req := get_required_authorities (operations trx)
               ignore_custom_operation_required_auths
               {| active := ∅; owner := ∅; other := [] |} in
  match get_signature_keys chain_id trx with
  | Returns signature_keys =>
      let s := new_sign_state signature_keys in
      let r :=
        let* (_x, s1) := required_other_loop available_keys (other req) s in
        let* (_y, s2) := required_owner_loop available_keys (in_order (owner req)) s1 in
        required_active_loop available_keys (in_order (active req)) s2 in
      match r with
      | Ok _ s3 =>
          let s4 := (remove_unused_signatures s3).2 in
          Returns (filter (fun k => k ∈ available_keys /\ k ∉ signature_keys)
                          (dom (provided_signatures s4)))
      | Undefined => Undefined_behaviour
      end
  | Throws e => Throws e
  | Undefined_behaviour => Undefined_behaviour
  end.

(** The values [transaction.hpp] declares for the arguments the minimizer
    leaves out of its call of [verify_authority]. *)
Variable default_allow_committee : bool.
Variable default_active_aprovals : gset account_id_type.
Variable default_owner_approvals : gset account_id_type.

(** The loop of [minimize_required_signatures]: [result.erase( k )],
    the call of [verify_authority] under [try], the three [catch]
    clauses, [result.insert( k )]. *)
Fixpoint minimize_loop (ops : list operation) (s : list public_key_type)
    (result : gset public_key_type) : outcome (gset public_key_type) :=
  match s with
  | [] => Returns result
  | k :: s' =>
      let result1 := result ∖ {[k]} in
      match verify_authority ops result1 default_allow_committee
                             default_active_aprovals default_owner_approvals with
      | Returns _ => minimize_loop ops s' result1
      | Throws tx_missing_owner_auth
      | Throws tx_missing_active_auth
      | Throws tx_missing_other_auth => minimize_loop ops s' ({[k]} ∪ result1)
      | Throws e => Throws e
      | Undefined_behaviour => Undefined_behaviour
      end
  end.

(** [signed_transaction::minimize_required_signatures] *)
Definition minimize_required_signatures (chain_id : chain_id_type)
    (trx : signed_transaction) (available_keys : gset public_key_type)
    : outcome (gset public_key_type) :=
  match get_required_signatures chain_id trx available_keys with
  | Returns s => minimize_loop (operations trx) (in_order s) s
  | Throws e => Throws e
  | Undefined_behaviour => Undefined_behaviour
  end.

End VerifyAuthority.

End Protocol.

(** The keys of [provided_signatures] are the signature keys [sigs], and
    so are the keys a built table of provided addresses leads to. *)
Definition signatures_kept (sigs : gset public_key_type) (s : sign_state) : Prop :=
  dom (provided_signatures s) = sigs /\
  (available_address_sigs s <> None ->
   forall provided a k,
     provided_address_sigs s = Some provided -> provided !! a = Some k -> k ∈ sigs).

(** ** Validation

    [operation_validate( op )] either returns or throws; the model gives the
    exception it throws, if any.  [FC_ASSERT] throws an assertion
    exception. *)
Inductive validation (E : Type) :=
  | Validated
  | Assert_failed
  | Operation_invalid (e : E).
Arguments Validated {E}.
Arguments Assert_failed {E}.
Arguments Operation_invalid {E} e.

Section Validate.

Variable operation : Type.
Variable signature_type : Type.
Variable chain_id_type : Type.
Variable exception : Type.
Variable operation_validate : operation -> option exception.
Variable signee :
  chain_id_type -> signed_transaction operation signature_type -> signature_type ->
  public_key_type.

(** [for( const auto& op : operations ) operation_validate(op);] *)
Fixpoint operations_validate_loop (ops : list operation) : validation exception :=
  match ops with
  | [] => Validated
  | op :: ops' =>
      match operation_validate op with
      | Some e => Operation_invalid e
      | None => operations_validate_loop ops'
      end
  end.

(** [void transaction::validate() const] *)
Definition validate (ops : list operation) : validation exception :=
  if (0 <? length ops)%nat then operations_validate_loop ops else Assert_failed.

(** A [precomputable_transaction]: the transaction and the members that
    cache results, [_validated] and [_signees] (the latter a member of the
    base class [signed_transaction]). *)
Record precomputable_transaction := {
  trx : signed_transaction operation signature_type;
  _validated : bool;
  _signees : gset public_key_type
}.

(** [void precomputable_transaction::validate() const] *)
Definition precomputable_validate (t : precomputable_transaction)
    : validation exception * precomputable_transaction :=
  if _validated t then (Validated, t)
  else
    match validate (operations operation signature_type (trx t)) with
    | Validated =>
        (Validated, {| trx := trx t; _validated := true; _signees := _signees t |})
    | r => (r, t)
    end.

(** [signed_transaction::get_signature_keys] with its effect on the
    object: [_signees = std::move( result )] when no assertion failed. *)
Definition store_signature_keys (chain_id : chain_id_type)
    (t : precomputable_transaction)
    : outcome (gset public_key_type) * precomputable_transaction :=
  match get_signature_keys operation signature_type chain_id_type signee
          chain_id (trx t) with
  | Returns result =>
      (Returns result,
       {| trx := trx t; _validated := _validated t; _signees := result |})
  | o => (o, t)
  end.

(** [precomputable_transaction::get_signature_keys]: the keys are
    recovered only while [_signees] is empty, whatever [chain_id] is. *)
Definition precomputable_get_signature_keys (chain_id : chain_id_type)
    (t : precomputable_transaction)
    : outcome (gset public_key_type) * precomputable_transaction :=
  if decide (_signees t = ∅) then
    match store_signature_keys chain_id t with
    | (Returns _, t') => (Returns (_signees t'), t')
    | r => r
    end
  else (Returns (_signees t), t).

End Validate.

(** ** The member function verify_authority of a signed transaction *)

Section SignedVerifyAuthority.

Variable pts_address : public_key_type -> bool -> Z -> address.
Variable address_of_key : public_key_type -> address.
Variables GRAPHENE_TEMP_ACCOUNT GRAPHENE_COMMITTEE_ACCOUNT : account_id_type.
Variable operation : Type.
Variable signature_type : Type.
Variable chain_id_type : Type.
Variable rejected_predicate_map : Type.
Variable no_rejections : rejected_predicate_map.
Variable operation_get_required_authorities :
  operation -> bool -> required -> required.
Variable signee :
  chain_id_type -> signed_transaction operation signature_type -> signature_type ->
  public_key_type.
Variables get_active get_owner : account_id_type -> option authority.
Variable get_custom : custom_authority_lookup operation rejected_predicate_map.
Variables allow_non_immediate_owner ignore_custom_operation_required_auths : bool.
Variable max_recursion : Z.
Variable default_allow_committee : bool.
Variables default_active_aprovals default_owner_approvals : gset account_id_type.

(** [void signed_transaction::verify_authority( chain_id, ... ) const]: the
    free function on the recovered keys, with the declared values for the
    arguments left out. *)
Definition signed_transaction_verify_authority (chain_id : chain_id_type)
    (t : signed_transaction operation signature_type) : outcome unit :=
  match get_signature_keys operation signature_type chain_id_type signee
          chain_id t with
  | Returns sigs =>
      verify_authority pts_address address_of_key GRAPHENE_TEMP_ACCOUNT
        GRAPHENE_COMMITTEE_ACCOUNT operation rejected_predicate_map no_rejections
        operation_get_required_authorities get_active get_owner get_custom
        allow_non_immediate_owner ignore_custom_operation_required_auths
        max_recursion (operations operation signature_type t) sigs
        default_allow_committee
        default_active_aprovals default_owner_approvals
  | Throws e => Throws e
  | Undefined_behaviour => Undefined_behaviour
  end.

End SignedVerifyAuthority.

(** ** What the operations require

    The required-active accounts and the required-owner accounts and other
    authorities that the loop over the operations of [verify_authority]
    collects when no custom authority approves an account: the loop without
    its calls of the custom authority lookup. *)
Section RequiredOf.

Variable operation : Type.
Variable operation_get_required_authorities :
  operation -> bool -> required -> required.
Variable ignore_custom_operation_required_auths : bool.

Fixpoint required_of (ops : list operation)
    (required_active : gset account_id_type) (req : required)
    : gset account_id_type * required :=
  match ops with
  | [] => (required_active, req)
  | op :: ops' =>
      let r := operation_get_required_authorities op
                 ignore_custom_operation_required_auths
                 {| active := ∅; owner := owner req; other := other req |} in
      required_of ops' (required_active ∪ active r)
                  {| active := ∅; owner := owner r; other := other r |}
  end.

(** The containers [verify_authority] starts from. *)
Definition nothing_required : required :=
  {| active := ∅; owner := ∅; other := [] |}.

End RequiredOf.

(** The threshold and the weights of an authority are in the range of
    their types and the listed weights do not overflow the 32 bit total. *)
Definition authority_fits (auth : authority) : Prop :=
  authority_ok auth /\ total_listed_weight auth < u32_modulus.

(** ** The weight a state gives an authority

    An entry of an authority counts in a state when its key is marked
    consumed, when a key marked consumed derives its address, or when its
    account is approved. *)
Definition weight_where {A} (f : A -> bool) (l : list (A * Z)) : Z :=
  foldr (fun e acc => (if f e.1 then e.2 else 0) + acc) 0 l.

Definition consumed (s : sign_state) (k : public_key_type) : bool :=
  bool_decide (provided_signatures s !! k = Some true).

Definition address_consumed (pts_address : public_key_type -> bool -> Z -> address)
    (address_of_key : public_key_type -> address)
    (s : sign_state) (a : address) : bool :=
  existsb (fun k => consumed s k
                    && bool_decide (a ∈ derived_addresses pts_address address_of_key k))
          (in_order (dom (provided_signatures s))).

Definition approved (s : sign_state) (id : account_id_type) : bool :=
  bool_decide (id ∈ approved_by s).

Definition satisfied_weight (pts_address : public_key_type -> bool -> Z -> address)
    (address_of_key : public_key_type -> address)
    (auth : authority) (s : sign_state) : Z :=
  weight_where (consumed s) (key_auths auth)
  + weight_where (address_consumed pts_address address_of_key s) (address_auths auth)
  + weight_where (approved s) (account_auths auth).

(** An authority is met in a state: it is there, and the weights of its
    entries that count in the state reach its threshold. *)
Definition meets (pts_address : public_key_type -> bool -> Z -> address)
    (address_of_key : public_key_type -> address)
    (s : sign_state) (au : option authority) : Prop :=
  exists auth, au = Some auth
    /\ weight_threshold auth <= satisfied_weight pts_address address_of_key auth s.

(** Every approval of the state is one of [initial] or is backed by the
    account's active authority or, when owner authorities may stand in,
    by its owner authority. *)
Definition justified (pts_address : public_key_type -> bool -> Z -> address)
    (address_of_key : public_key_type -> address)
    (get_active get_owner : account_id_type -> option authority)
    (allow_non_immediate_owner : bool)
    (initial : gset account_id_type) (s : sign_state) : Prop :=
  forall id, id ∈ approved_by s ->
    id ∈ initial
    \/ meets pts_address address_of_key s (get_active id)
    \/ (allow_non_immediate_owner = true
        /\ meets pts_address address_of_key s (get_owner id)).

(** ** Concrete data for the examples

    Toy derivations that give every key five distinct addresses, as the
    hash based derivations of the source do up to collisions: key [k] has
    the addresses [10k], [10k+1], [10k+2], [10k+3] and [10k+4]. *)

Definition ex_pts_address (k : public_key_type) (compressed : bool) (version : Z)
    : address :=
  (10 * k + (if compressed then 1 else 0) + (if (version =? 56)%Z then 2 else 0))%N.

Definition ex_address_of_key (k : public_key_type) : address := (10 * k + 4)%N.

(** [GRAPHENE_TEMP_ACCOUNT] is account 4 and [GRAPHENE_COMMITTEE_ACCOUNT]
    account 0 in the examples. *)
Definition ex_temp_account : account_id_type := 4%N.
Definition ex_committee_account : account_id_type := 0%N.

(** An operation of the examples is the requirement it adds, and the
    rejection log is trivial. *)
Definition ex_operation : Type := required.

Definition ex_get_required (op : ex_operation) (ignore : bool) (r : required)
    : required :=
  {| active := active op ∪ active r;
     owner := owner op ∪ owner r;
     other := other r ++ other op |}.

Definition requires_active (id : account_id_type) : ex_operation :=
  {| active := {[id]}; owner := ∅; other := [] |}.

(** Authorities: one key of weight 1 meets the threshold 1; three keys of
    weight 1 against the threshold 3; nothing listed against threshold 1. *)
Definition au_key (k : public_key_type) : authority :=
  {| weight_threshold := 1; key_auths := [(k, 1)];
     address_auths := []; account_auths := [] |}.
Definition au_three : authority :=
  {| weight_threshold := 3; key_auths := [(1%N, 1); (2%N, 1); (3%N, 1)];
     address_auths := []; account_auths := [] |}.
Definition au_none : authority :=
  {| weight_threshold := 1; key_auths := [];
     address_auths := []; account_auths := [] |}.

(** Account 10 needs the three keys 1, 2 and 3, account 11 the key 1; no
    owner authority can be met; account 10 has one custom authority, which
    the key 1 meets. *)
Definition ex_get_active (id : account_id_type) : option authority :=
  if decide (id = 10%N) then Some au_three
  else if decide (id = 11%N) then Some (au_key 1%N)
  else Some au_none.
Definition ex_get_owner (id : account_id_type) : option authority := Some au_none.
Definition ex_get_custom : custom_authority_lookup ex_operation unit :=
  fun id op rejected =>
    if decide (id = 10%N) then ([au_key 1%N], rejected) else ([], rejected).

(** [verify_authority] on the example data, with recursion bound 2. *)
Definition ex_verify_authority (ops : list ex_operation) (sigs : gset public_key_type)
    : outcome unit :=
  verify_authority ex_pts_address ex_address_of_key ex_temp_account
    ex_committee_account ex_operation unit tt ex_get_required
    ex_get_active ex_get_owner ex_get_custom false false 2
    ops sigs false ∅ ∅.

(** The active authorities of the examples as a second lookup finds them:
    the same answers, computed by other code. *)
Definition ex_get_active_again (id : account_id_type) : option authority :=
  if (id =? 11)%N then Some (au_key 1%N)
  else Some (if (id =? 10)%N then au_three else au_none).

(** In the examples a signature is the key it recovers to. *)
Definition ex_signee (chain_id : unit)
    (trx : signed_transaction ex_operation public_key_type) (sig : public_key_type)
    : public_key_type := sig.

Definition ex_minimize_loop (ops : list ex_operation) (s : list public_key_type)
    (result : gset public_key_type) : outcome (gset public_key_type) :=
  minimize_loop ex_pts_address ex_address_of_key ex_temp_account
    ex_committee_account ex_operation unit tt ex_get_required
    ex_get_active ex_get_owner ex_get_custom false false 2 false ∅ ∅
    ops s result.

Definition ex_minimize_required_signatures
    (trx : signed_transaction ex_operation public_key_type)
    (available_keys : gset public_key_type) : outcome (gset public_key_type) :=
  minimize_required_signatures ex_pts_address ex_address_of_key ex_temp_account
    ex_committee_account ex_operation public_key_type unit unit tt ex_get_required
    ex_signee ex_get_active ex_get_owner ex_get_custom false false 2 false ∅ ∅
    tt trx available_keys.

(** The three exceptions the minimizer catches. *)
Definition is_missing_authority (e : error_kind) : bool :=
  match e with
  | tx_missing_owner_auth | tx_missing_active_auth | tx_missing_other_auth => true
  | _ => false
  end.

(** ** Delegation chains

    The keys that can sign in a state are the keys of
    [provided_signatures] and the available keys: [signed_by] returns
    [true] on a key exactly when it is one of them, and on an address when
    one of them derives it. *)
Definition signers (available_keys : gset public_key_type) (s : sign_state)
    : gset public_key_type :=
  dom (provided_signatures s) ∪ available_keys.

Definition key_in (keys : gset public_key_type) (k : public_key_type) : bool :=
  bool_decide (k ∈ keys).

Definition address_in (pts_address : public_key_type -> bool -> Z -> address)
    (address_of_key : public_key_type -> address)
    (keys : gset public_key_type) (a : address) : bool :=
  existsb (fun k => bool_decide (a ∈ derived_addresses pts_address address_of_key k))
          (in_order keys).

(** The weight the signing keys give an authority through its key and
    address entries, without any delegate. *)
Definition signed_weight (pts_address : public_key_type -> bool -> Z -> address)
    (address_of_key : public_key_type -> address)
    (keys : gset public_key_type) (au : authority) : Z :=
  weight_where (key_in keys) (key_auths au)
  + weight_where (address_in pts_address address_of_key keys) (address_auths au).

(** The owner authority of a delegate gives no other way: it is absent, or
    it lists no delegate and the signing keys do not reach its threshold. *)
Definition gives_no_way (pts_address : public_key_type -> bool -> Z -> address)
    (address_of_key : public_key_type -> address)
    (keys : gset public_key_type) (o : option authority) : Prop :=
  forall ao, o = Some ao ->
    authority_fits ao /\ account_auths ao = []
    /\ signed_weight pts_address address_of_key keys ao < weight_threshold ao.

(** [delegation_chain keys approved hops au]: from the authority [au] it
    takes [hops] delegations to reach an authority that the signing keys
    satisfy.  The signing keys reach the threshold of the authority at the
    end.  They do not reach the threshold of an authority before the end,
    which lists one delegate account whose weight makes up for what is
    missing; the delegate is not approved, and when owner authorities may
    stand in, its owner authority gives no other way.  The weights of
    every authority are in the range of their type and do not overflow the
    32 bit total. *)
Inductive delegation_chain
    (pts_address : public_key_type -> bool -> Z -> address)
    (address_of_key : public_key_type -> address)
    (get_active get_owner : account_id_type -> option authority)
    (allow_non_immediate_owner : bool)
    (keys : gset public_key_type) (approved : gset account_id_type)
    : nat -> authority -> Prop :=
  | chain_end (au : authority) :
      authority_fits au ->
      0 < weight_threshold au
        <= signed_weight pts_address address_of_key keys au ->
      delegation_chain pts_address address_of_key get_active get_owner
        allow_non_immediate_owner keys approved 0 au
  | chain_hop (hops : nat) (au : authority) (a : account_id_type) (w : Z)
        (au' : authority) :
      authority_fits au ->
      signed_weight pts_address address_of_key keys au < weight_threshold au
        <= signed_weight pts_address address_of_key keys au + w ->
      account_auths au = [(a, w)] ->
      a ∉ approved ->
      get_active a = Some au' ->
      (allow_non_immediate_owner = true ->
       gives_no_way pts_address address_of_key keys (get_owner a)) ->
      delegation_chain pts_address address_of_key get_active get_owner
        allow_non_immediate_owner keys approved hops au' ->
      delegation_chain pts_address address_of_key get_active get_owner
        allow_non_immediate_owner keys approved (S hops) au.

(** The authorities a check may consult along a chain of [hops]
    delegations from [au]: the authorities of the chain and, when owner
    authorities may stand in, the owner authorities of the delegates. *)
Fixpoint consulted (get_active get_owner : account_id_type -> option authority)
    (allow_non_immediate_owner : bool) (hops : nat) (au : authority)
    : list authority :=
  au ::
  match hops, account_auths au with
  | S hops', [(a, _)] =>
      (if allow_non_immediate_owner
       then match get_owner a with Some ao => [ao] | None => [] end
       else [])
      ++ match get_active a with
         | Some au' =>
             consulted get_active get_owner allow_non_immediate_owner hops' au'
         | None => []
         end
  | _, _ => []
  end.

(** The check of [au] meets no address that no signing key derives: the
    signed key entries reach the threshold before an address is looked at,
    or a signing key derives every address listed. *)
Definition addresses_derived (pts_address : public_key_type -> bool -> Z -> address)
    (address_of_key : public_key_type -> address)
    (keys : gset public_key_type) (au : authority) : Prop :=
  weight_threshold au <= weight_where (key_in keys) (key_auths au)
  \/ Forall (fun e => address_in pts_address address_of_key keys e.1 = true)
            (address_auths au).

(** The accounts 21, 22 and 23 of the examples form a chain: 21 delegates
    to 22, 22 to 23, and the key 1 satisfies 23. *)
Definition delegate_to (a : account_id_type) : authority :=
  {| weight_threshold := 1; key_auths := [];
     address_auths := []; account_auths := [(a, 1)] |}.

Definition ex_chain_active (id : account_id_type) : option authority :=
  if decide (id = 21%N) then Some (delegate_to 22%N)
  else if decide (id = 22%N) then Some (delegate_to 23%N)
  else if decide (id = 23%N) then Some (au_key 1%N)
  else None.

Definition ex_chain_owner (id : account_id_type) : option authority := None.

Definition ex_chain_check (max_recursion : Z) (au : authority) (s : sign_state)
    : result bool :=
  check_authority ex_pts_address ex_address_of_key ex_chain_active ex_chain_owner
    true max_recursion ∅ (Some au) 0 s.

Definition requires_owner (id : account_id_type) : ex_operation :=
  {| active := ∅; owner := {[id]}; other := [] |}.

(** [verify_authority] on the delegation chain of the examples, with the
    owner authorities of the first examples and no custom authorities. *)
Definition ex_chain_verify_authority (ops : list ex_operation)
    (sigs : gset public_key_type) (owner_approvals : gset account_id_type)
    : outcome unit :=
  verify_authority ex_pts_address ex_address_of_key ex_temp_account
    ex_committee_account ex_operation unit tt ex_get_required
    ex_chain_active ex_get_owner (fun id op rejected => ([], rejected)) false false 2
    ops sigs false ∅ owner_approvals.

(** An authority that lists one address of weight 1 and nothing else,
    against the threshold [threshold]. *)
Definition au_address (threshold : Z) (a : address) : authority :=
  {| weight_threshold := threshold; key_auths := [];
     address_auths := [(a, 1)]; account_auths := [] |}.

(** [check_authority] of a [sign_state] of the examples. *)
Definition ex_check_authority (max_recursion : Z) (available_keys : gset public_key_type)
    (au : option authority) (depth : Z) (s : sign_state) : result bool :=
  check_authority ex_pts_address ex_address_of_key ex_get_active ex_get_owner
    false max_recursion available_keys au depth s.

(** A second chain, with owner authorities that cannot be met, an
    authority the signing keys meet in part and an end that one of two
    keys meets.  Account 31 needs two of the key 9, the address 10 and the
    account 32; 32 delegates to 33; 33 needs one of the keys 1 and 2.  The
    owner authority of every account is the key 9.  The key 1 derives the
    address 10, and no key derives the address 5 that [au_stray] lists. *)
Definition au_mixed : authority :=
  {| weight_threshold := 2; key_auths := [(9%N, 1)];
     address_auths := [(10%N, 1)]; account_auths := [(32%N, 1)] |}.
Definition au_either : authority :=
  {| weight_threshold := 1; key_auths := [(1%N, 1); (2%N, 1)];
     address_auths := []; account_auths := [] |}.
Definition au_stray : authority :=
  {| weight_threshold := 1; key_auths := [];
     address_auths := [(5%N, 1)]; account_auths := [(31%N, 1)] |}.

Definition ex_deep_active (id : account_id_type) : option authority :=
  if decide (id = 31%N) then Some au_mixed
  else if decide (id = 32%N) then Some (delegate_to 33%N)
  else if decide (id = 33%N) then Some au_either
  else None.
Definition ex_deep_owner (id : account_id_type) : option authority :=
  Some (au_key 9%N).

Definition ex_deep_check (max_recursion : Z) (au : authority) (depth : Z)
    (s : sign_state) : result bool :=
  check_authority ex_pts_address ex_address_of_key ex_deep_active ex_deep_owner
    true max_recursion ∅ (Some au) depth s.

(** The account 30 has an active authority that lists the address 5 alone,
    which no key of the examples derives. *)
Definition ex_stray_active (id : account_id_type) : option authority :=
  if decide (id = 30%N) then Some (au_address 1 5%N) else None.

(** ** Data for the examples of validation and of cached keys

    An operation of the examples is valid when it requires some account;
    a chain id is a number, and a signature recovers to itself plus the
    chain id. *)
Definition ex_operation_validate (op : ex_operation) : option unit :=
  if decide (active op ∪ owner op = ∅) then Some tt else None.

Definition ex_chain_signee (chain_id : N)
    (t : signed_transaction ex_operation public_key_type) (sig : public_key_type)
    : public_key_type := (sig + chain_id)%N.

Definition ex_precomputable (ops : list ex_operation) (sigs : list public_key_type)
    : precomputable_transaction ex_operation public_key_type :=
  {| trx := {| operations := ops; signatures := sigs |};
     _validated := false;
     _signees := ∅ |}.

(** Every entry [provided_signatures] has in [s] it has in [s'], and
    consumed entries are still consumed. *)
Definition marks_kept (s s' : sign_state) : Prop :=
  forall k v, provided_signatures s !! k = Some v ->
    exists v', provided_signatures s' !! k = Some v' /\ (v = true -> v' = true).

(** * Properties *)

Set Default Proof Using "Type".

(** ** Ascending iteration *)

Lemma elem_of_in_order (X : gset N) (x : N) : x ∈ in_order X <-> x ∈ X.
Proof.
  unfold in_order. rewrite merge_sort_Permutation. apply elem_of_elements.
Qed.

Lemma in_order_empty : in_order ∅ = [].
Proof. reflexivity. Qed.

Lemma in_order_NoDup (X : gset N) : NoDup (in_order X).
Proof.
  unfold in_order. rewrite merge_sort_Permutation. apply NoDup_elements.
Qed.

Lemma fold_left_erase (l : list account_id_type) (A : gset account_id_type) :
  fold_left (fun act account => act ∖ {[account]}) l A = A ∖ list_to_set l.
Proof.
  revert A. induction l as [|x l IH]; intros A; simpl.
  - set_solver.
  - rewrite IH. set_solver.
Qed.

Lemma list_to_set_in_order (X : gset N) : list_to_set (in_order X) = X.
Proof.
  apply set_eq. intros x. rewrite elem_of_list_to_set. apply elem_of_in_order.
Qed.

Section RequiredAuthorities.

Variable operation : Type.
Variable operation_get_required_authorities :
  operation -> bool -> required -> required.

Local Abbreviation get_required_authorities :=
  (get_required_authorities operation operation_get_required_authorities).
Local Abbreviation collected :=
  (collected operation operation_get_required_authorities).

(** C10.  When [transaction::get_required_authorities] returns, the
    required-active set is what the operations collected minus the
    required-owner set, so no account is in both sets; this holds for any
    contents of the containers on entry and any operations. *)
Theorem get_required_authorities_disjoint
    (ops : list operation) (ignore : bool) (r : required) :
  let r' := get_required_authorities ops ignore r in
  active r' = active (collected ops ignore r) ∖ owner r'
  /\ owner r' = owner (collected ops ignore r)
  /\ active r' ∩ owner r' = ∅.
Proof.
  cbn zeta. unfold get_required_authorities. cbn [active owner].
  rewrite fold_left_erase, list_to_set_in_order.
  split; [done|]. split; [done|].
  generalize (active (collected ops ignore r)) (owner (collected ops ignore r)).
  clear. intros A B. set_solver.
Qed.

End RequiredAuthorities.

(** ** The approval set only grows *)

Lemma bind_Ok {A B} (m : result A) (f : A -> sign_state -> result B) b s' :
  bind m f = Ok b s' -> exists a s1, m = Ok a s1 /\ f a s1 = Ok b s'.
Proof. destruct m as [a s1|]; simpl; [eauto | discriminate]. Qed.

Ltac inv_bind H :=
  let a := fresh "r" in
  let s := fresh "s" in
  let E := fresh "E" in
  apply bind_Ok in H; destruct H as (a & s & E & H).

Section Approvals.

Variable pts_address : public_key_type -> bool -> Z -> address.
Variable address_of_key : public_key_type -> address.
Variable get_active : account_id_type -> option authority.
Variable get_owner : account_id_type -> option authority.
Variable allow_non_immediate_owner : bool.
Variable max_recursion : Z.
Variable available_keys : gset public_key_type.

Local Abbreviation signed_by_address :=
  (signed_by_address pts_address address_of_key available_keys).
Local Abbreviation ensure_address_sigs :=
  (ensure_address_sigs pts_address address_of_key available_keys).
Local Abbreviation check_authority_at :=
  (check_authority_at pts_address address_of_key get_active get_owner
     allow_non_immediate_owner available_keys).
Local Abbreviation active_or_owner :=
  (active_or_owner get_active get_owner allow_non_immediate_owner).

Lemma ensure_address_sigs_approved s :
  approved_by (ensure_address_sigs s) = approved_by s.
Proof. unfold ensure_address_sigs. by destruct (available_address_sigs s). Qed.

Lemma signed_by_key_approved k s b s' :
  signed_by_key available_keys k s = Ok b s' -> approved_by s' = approved_by s.
Proof.
  unfold signed_by_key. intros H.
  destruct (provided_signatures s !! k); [|case_decide]; by inversion H.
Qed.

Lemma signed_by_address_approved a s b s' :
  signed_by_address a s = Ok b s' -> approved_by s' = approved_by s.
Proof.
  unfold signed_by_address. intros H.
  rewrite <- (ensure_address_sigs_approved s).
  destruct (provided_address_sigs _) as [pr|]; [|done].
  destruct (available_address_sigs _) as [av|]; [|done].
  destruct (pr !! a); [by inversion H|].
  destruct (av !! a); [|done].
  case_decide; by inversion H.
Qed.

Lemma signed_loop_approved {A} (signed_by : A -> sign_state -> result bool)
    threshold l :
  (forall k s b s', signed_by k s = Ok b s' -> approved_by s' = approved_by s) ->
  forall total s e s',
    signed_loop signed_by threshold l total s = Ok e s' ->
    approved_by s' = approved_by s.
Proof.
  intros Hs. induction l as [|k l IH]; intros total s e s' H; simpl in H.
  - by inversion H.
  - inv_bind H. apply Hs in E. rewrite <- E.
    destruct r; [destruct (_ <=? _)|]; eauto. by inversion H.
Qed.

Lemma account_auths_loop_approved deeper threshold l :
  (forall check, deeper = Some check ->
     forall a s b s', check a s = Ok b s' -> approved_by s ⊆ approved_by s') ->
  forall total s e s',
    account_auths_loop deeper threshold l total s = Ok e s' ->
    approved_by s ⊆ approved_by s'.
Proof.
  intros Hd. induction l as [|a l IH]; intros total s e s' H; simpl in H.
  - by inversion H.
  - case_decide.
    + destruct (_ <=? _); [by inversion H | eauto].
    + destruct deeper as [check|]; [|eauto].
      inv_bind H. apply (Hd check eq_refl) in E.
      destruct r.
      * destruct (_ <=? _).
        -- inversion H; subst. simpl. clear -E. set_solver.
        -- apply IH in H. simpl in H. clear -E H. set_solver.
      * apply IH in H. clear -E H. set_solver.
Qed.

Lemma active_or_owner_approved check :
  (forall au s b s', check au s = Ok b s' -> approved_by s ⊆ approved_by s') ->
  forall id s b s',
    active_or_owner check id s = Ok b s' -> approved_by s ⊆ approved_by s'.
Proof.
  intros Hc id s b s' H. unfold active_or_owner in H.
  inv_bind H. apply Hc in E.
  destruct r; [by inversion H; subst|].
  destruct allow_non_immediate_owner.
  - apply Hc in H. clear -E H. set_solver.
  - by inversion H; subst.
Qed.

Lemma check_authority_at_approved n :
  forall au s b s',
    check_authority_at n au s = Ok b s' -> approved_by s ⊆ approved_by s'.
Proof.
  induction n as [|n IH]; intros [auth|] s b s' H; simpl in H;
    try (by inversion H).
  all: inv_bind H;
    apply (signed_loop_approved _ _ _ (signed_by_key_approved)) in E;
    destruct r as [|w1]; [by inversion H; subst; rewrite E|];
    inv_bind H;
    apply (signed_loop_approved _ _ _ (signed_by_address_approved)) in E0;
    destruct r as [|w2]; [inversion H; subst; by rewrite E0, E|];
    inv_bind H;
    apply account_auths_loop_approved in E1;
    [ rewrite E0, E in E1; destruct r; by inversion H; subst | ].
  - intros check Hcheck; discriminate.
  - intros check Hcheck. inversion Hcheck; subst.
    apply active_or_owner_approved. exact IH.
Qed.

End Approvals.

(** ** Accessors are consulted for unapproved accounts only *)

Section Agreement.

Variable pts_address : public_key_type -> bool -> Z -> address.
Variable address_of_key : public_key_type -> address.
Variables get_active get_active' : account_id_type -> option authority.
Variables get_owner get_owner' : account_id_type -> option authority.
Variable allow_non_immediate_owner : bool.
Variable available_keys : gset public_key_type.

(** The two pairs of accessors answer alike for every account that is not
    approved in [s]. *)
Local Abbreviation agree_outside s :=
  (forall a : account_id_type, a ∉ approved_by s ->
     get_active a = get_active' a /\ get_owner a = get_owner' a).

Lemma agree_outside_mono (s s' : sign_state) :
  approved_by s ⊆ approved_by s' -> agree_outside s -> agree_outside s'.
Proof. intros Hsub H a Ha. apply H. clear -Hsub Ha. set_solver. Qed.

Lemma active_or_owner_agree check check' id s :
  (forall au s1, agree_outside s1 -> check au s1 = check' au s1) ->
  (forall au s1 b s2, check au s1 = Ok b s2 -> approved_by s1 ⊆ approved_by s2) ->
  agree_outside s -> id ∉ approved_by s ->
  active_or_owner get_active get_owner allow_non_immediate_owner check id s
  = active_or_owner get_active' get_owner' allow_non_immediate_owner check' id s.
Proof.
  intros Heq Hmono Hs Hid. unfold active_or_owner.
  destruct (Hs id Hid) as [-> ->].
  rewrite <- (Heq _ s Hs).
  destruct (check (get_active' id) s) as [b s1|] eqn:E; simpl; [|done].
  destruct b; [done|]. destruct allow_non_immediate_owner; [|done].
  apply Heq. eapply agree_outside_mono; [|exact Hs]. eapply Hmono, E.
Qed.

Lemma account_auths_loop_agree deeper deeper' threshold l :
  match deeper, deeper' with
  | None, None => True
  | Some c, Some c' =>
      (forall a s, agree_outside s -> a ∉ approved_by s -> c a s = c' a s) /\
      (forall a s b s', c a s = Ok b s' -> approved_by s ⊆ approved_by s')
  | _, _ => False
  end ->
  forall total s, agree_outside s ->
    account_auths_loop deeper threshold l total s
    = account_auths_loop deeper' threshold l total s.
Proof.
  intros Hd. induction l as [|a l IH]; intros total s Hs; simpl; [done|].
  case_decide as Ha.
  - destruct (_ <=? _); [done | by apply IH].
  - destruct deeper as [c|], deeper' as [c'|]; simpl in Hd; try done.
    destruct Hd as [Heq Hmono]. rewrite <- (Heq _ _ Hs Ha).
    destruct (c a.1 s) as [b s1|] eqn:E; simpl; [|done].
    apply Hmono in E.
    destruct b; [destruct (_ <=? _); [done|]|]; apply IH;
      (eapply agree_outside_mono; [|exact Hs]); simpl; clear -E; set_solver.
Qed.

Lemma check_authority_at_agree n :
  forall au s, agree_outside s ->
    check_authority_at pts_address address_of_key get_active get_owner
      allow_non_immediate_owner available_keys n au s
    = check_authority_at pts_address address_of_key get_active' get_owner'
      allow_non_immediate_owner available_keys n au s.
Proof.
  induction n as [|n IH]; intros [auth|] s Hs; simpl; try done.
  all: destruct (key_auths_loop _ _ _ _ _) as [e1 s1|] eqn:E1; simpl; [|done];
    destruct e1 as [|w1]; [done|];
    destruct (address_auths_loop _ _ _ _ _ _ _) as [e2 s2|] eqn:E2; simpl; [|done];
    destruct e2 as [|w2]; [done|];
    apply (signed_loop_approved _ _ _ (signed_by_key_approved _)) in E1;
    apply (signed_loop_approved _ _ _ (signed_by_address_approved _ _ _)) in E2;
    assert (agree_outside s2) as Hs2
      by (eapply agree_outside_mono; [|exact Hs]; by rewrite E2, E1).
  erewrite (account_auths_loop_agree (Some _) (Some _)); [done| |done].
  split.
  - intros a s0 Hs0 Ha. apply active_or_owner_agree; try done.
    apply check_authority_at_approved.
  - apply active_or_owner_approved. apply check_authority_at_approved.
Qed.

End Agreement.

(** ** The address tables *)

Section AddressTables.

Variable pts_address : public_key_type -> bool -> Z -> address.
Variable address_of_key : public_key_type -> address.

Local Abbreviation address_entries := (address_entries pts_address address_of_key).
Local Abbreviation derived_addresses := (derived_addresses pts_address address_of_key).
Local Abbreviation build_address_sigs := (build_address_sigs pts_address address_of_key).

Lemma insert_entries_lookup (es : list (address * public_key_type))
    (m : gmap address public_key_type) (a : address) (k : public_key_type) :
  fold_left (fun m' e => <[e.1 := e.2]> m') es m !! a = Some k ->
  m !! a = Some k \/ (a, k) ∈ es.
Proof.
  revert m. induction es as [|[a' k'] es IH]; intros m H; simpl in *; [by left|].
  apply IH in H as [H|H]; [|right; by constructor].
  destruct (decide (a' = a)) as [->|Hne].
  - rewrite lookup_insert_eq in H. inversion H; subst. right. constructor.
  - rewrite lookup_insert_ne in H by done. by left.
Qed.

Lemma insert_entries_dom (es : list (address * public_key_type))
    (m : gmap address public_key_type) :
  dom (fold_left (fun m' e => <[e.1 := e.2]> m') es m) = dom m ∪ list_to_set es.*1.
Proof.
  revert m. induction es as [|[a' k'] es IH]; intros m; simpl.
  - clear. set_solver.
  - rewrite IH, dom_insert_L. clear. set_solver.
Qed.

Lemma build_from_lookup (keys : list public_key_type)
    (m : gmap address public_key_type) (a : address) (k : public_key_type) :
  fold_left (fun m item =>
               fold_left (fun m' e => <[e.1 := e.2]> m') (address_entries item) m)
            keys m !! a = Some k ->
  m !! a = Some k \/ (k ∈ keys /\ a ∈ derived_addresses k).
Proof.
  revert m. induction keys as [|item keys IH]; intros m H;
    cbn [fold_left] in H; [by left|].
  apply IH in H as [H|[H1 H2]].
  - apply insert_entries_lookup in H as [H|H]; [by left|right].
    assert (k = item) as ->.
    { unfold address_entries in H.
      repeat (apply elem_of_cons in H as [H|H]; [by inversion H|]).
      by apply elem_of_nil in H. }
    split; [constructor|].
    unfold derived_addresses. by apply (list_elem_of_fmap_2 fst) in H.
  - right. split; [by constructor|done].
Qed.

Lemma build_from_dom (keys : list public_key_type)
    (m : gmap address public_key_type) (a : address) :
  a ∈ dom (fold_left (fun m item =>
             fold_left (fun m' e => <[e.1 := e.2]> m') (address_entries item) m)
           keys m)
  <-> a ∈ dom m \/ exists k, k ∈ keys /\ a ∈ derived_addresses k.
Proof.
  revert m. induction keys as [|item keys IH]; intros m; cbn [fold_left].
  - split; [by left|]. intros [H|(k & H & _)]; [done|by apply elem_of_nil in H].
  - rewrite IH, insert_entries_dom, elem_of_union, elem_of_list_to_set.
    split.
    + intros [[H|H]|(k & H1 & H2)]; [by left| |].
      * right. exists item. split; [constructor|done].
      * right. exists k. split; [by constructor|done].
    + intros [H|(k & H1 & H2)]; [by left; left|].
      apply elem_of_cons in H1 as [->|H1]; [by left; right|].
      right. by exists k.
Qed.

(** The table built from a list of keys holds an address exactly when it is
    one of the five addresses derived from one of the keys. *)
Lemma build_address_sigs_dom (keys : list public_key_type) (a : address) :
  a ∈ dom (build_address_sigs keys)
  <-> exists k, k ∈ keys /\ a ∈ derived_addresses k.
Proof.
  unfold build_address_sigs. rewrite build_from_dom, dom_empty_L.
  split; [intros [H|H]; [by apply not_elem_of_empty in H|done] | by right].
Qed.

(** The key stored under an address is a key of the list that derives it. *)
Lemma build_address_sigs_lookup (keys : list public_key_type) (a : address)
    (k : public_key_type) :
  build_address_sigs keys !! a = Some k -> k ∈ keys /\ a ∈ derived_addresses k.
Proof.
  unfold build_address_sigs. intros H.
  apply build_from_lookup in H as [H|H]; [by rewrite lookup_empty in H|done].
Qed.

End AddressTables.

(** ** signed_by on an address *)

Section SignedByAddress.

Variable pts_address : public_key_type -> bool -> Z -> address.
Variable address_of_key : public_key_type -> address.
Variable available_keys : gset public_key_type.

Local Abbreviation signed_by_address :=
  (signed_by_address pts_address address_of_key available_keys).
Local Abbreviation ensure_address_sigs :=
  (ensure_address_sigs pts_address address_of_key available_keys).
Local Abbreviation build_address_sigs := (build_address_sigs pts_address address_of_key).

(** C3.  An address that is in neither reconciliation table does not make
    [signed_by] return [false]: control reaches the last statement of the
    function with the past-the-end iterator of the provided table and
    dereferences it, so the call has no defined result. *)
Theorem signed_by_address_in_neither_table
    (a : address) (s : sign_state) (provided available : gmap address public_key_type) :
  provided_address_sigs (ensure_address_sigs s) = Some provided ->
  available_address_sigs (ensure_address_sigs s) = Some available ->
  provided !! a = None ->
  available !! a = None ->
  signed_by_address a s = Undefined.
Proof.
  intros Hp Ha Hpa Haa. unfold signed_by_address.
  by rewrite Hp, Ha, Hpa, Haa.
Qed.

End SignedByAddress.

Lemma signed_by_address_in_neither_table_witness :
  signed_by_address ex_pts_address ex_address_of_key ∅ 5%N
    (new_sign_state ex_temp_account {[7%N]}) = Undefined.
Proof.
  apply (signed_by_address_in_neither_table ex_pts_address ex_address_of_key ∅ 5%N
           (new_sign_state ex_temp_account {[7%N]})
           (build_address_sigs ex_pts_address ex_address_of_key [7%N]) ∅);
    vm_compute; reflexivity.
Defined.

(** ** Unused signatures *)

Lemma elem_of_remove_sigs (s : sign_state) (k : public_key_type) :
  k ∈ remove_sigs s <-> provided_signatures s !! k = Some false.
Proof.
  unfold remove_sigs. rewrite list_elem_of_filter, elem_of_in_order, elem_of_dom.
  split; [by intros [? _]|]. intros H. split; [done|]. by exists false.
Qed.

Lemma remove_unused_signatures_true (s : sign_state) :
  (remove_unused_signatures s).1 = true
  <-> exists k, provided_signatures s !! k = Some false.
Proof.
  unfold remove_unused_signatures. cbn [fst].
  destruct (remove_sigs s) as [|k l] eqn:E; simpl.
  - split; [done|]. intros [k Hk]. apply elem_of_remove_sigs in Hk.
    rewrite E in Hk. by apply elem_of_nil in Hk.
  - split; [|done]. intros _. exists k. apply elem_of_remove_sigs.
    rewrite E. constructor.
Qed.

Lemma remove_unused_signatures_false (s : sign_state) :
  (remove_unused_signatures s).1 = false
  <-> forall k b, provided_signatures s !! k = Some b -> b = true.
Proof.
  rewrite <- not_true_iff_false, remove_unused_signatures_true.
  split.
  - intros Hn k [|] Hk; [done|]. destruct Hn. eauto.
  - intros Hall [k Hk]. by apply Hall in Hk.
Qed.

(** ** The minimizer *)

Section Minimizer.

Variable pts_address : public_key_type -> bool -> Z -> address.
Variable address_of_key : public_key_type -> address.
Variables GRAPHENE_TEMP_ACCOUNT GRAPHENE_COMMITTEE_ACCOUNT : account_id_type.
Variable operation : Type.
Variable rejected_predicate_map : Type.
Variable no_rejections : rejected_predicate_map.
Variable operation_get_required_authorities :
  operation -> bool -> required -> required.
Variables get_active get_owner : account_id_type -> option authority.
Variable get_custom : custom_authority_lookup operation rejected_predicate_map.
Variables allow_non_immediate_owner ignore_custom_operation_required_auths : bool.
Variable max_recursion : Z.
Variable default_allow_committee : bool.
Variables default_active_aprovals default_owner_approvals : gset account_id_type.

(** The re-run of [verify_authority] inside the loop. *)
Local Abbreviation reverify ops sigs :=
  (verify_authority pts_address address_of_key GRAPHENE_TEMP_ACCOUNT
     GRAPHENE_COMMITTEE_ACCOUNT operation rejected_predicate_map no_rejections
     operation_get_required_authorities get_active get_owner get_custom
     allow_non_immediate_owner ignore_custom_operation_required_auths
     max_recursion ops sigs default_allow_committee default_active_aprovals
     default_owner_approvals).
Local Abbreviation minimize_loop :=
  (minimize_loop pts_address address_of_key GRAPHENE_TEMP_ACCOUNT
     GRAPHENE_COMMITTEE_ACCOUNT operation rejected_predicate_map no_rejections
     operation_get_required_authorities get_active get_owner get_custom
     allow_non_immediate_owner ignore_custom_operation_required_auths
     max_recursion default_allow_committee default_active_aprovals
     default_owner_approvals).

(** When every re-run returns or throws one of the caught exceptions, the
    loop returns, and with keys of the set it started from or candidates. *)
Lemma minimize_loop_returns (ops : list operation) (s : list public_key_type) :
  (forall sigs, reverify ops sigs = Returns tt
                \/ exists e, reverify ops sigs = Throws e
                             /\ is_missing_authority e = true) ->
  forall result,
    exists r, minimize_loop ops s result = Returns r /\ r ⊆ result ∪ list_to_set s.
Proof.
  intros Hv. induction s as [|k s IH]; intros result; simpl.
  - exists result. split; [done|]. clear. set_solver.
  - destruct (Hv (result ∖ {[k]})) as [->|(e & -> & He)].
    + destruct (IH (result ∖ {[k]})) as (r & -> & Hr).
      exists r. split; [done|]. clear -Hr. set_solver.
    + destruct (IH ({[k]} ∪ result ∖ {[k]})) as (r & Hr1 & Hr).
      exists r. split; [by destruct e|]. clear -Hr. set_solver.
Qed.

(** C4, as the code has it.  For the candidate [k] under consideration:
    when the re-run of [verify_authority] without [k] returns, [k] stays
    removed; when it throws a missing-owner, missing-active or missing-other
    authority exception, [k] is inserted again and the loop goes on; when it
    throws any other exception, that exception leaves the loop and the
    minimizer does not return a key set. *)
Theorem minimize_loop_step
    (ops : list operation) (k : public_key_type) (s' : list public_key_type)
    (result : gset public_key_type) :
  (reverify ops (result ∖ {[k]}) = Returns tt ->
     minimize_loop ops (k :: s') result = minimize_loop ops s' (result ∖ {[k]}))
  /\ (forall e, reverify ops (result ∖ {[k]}) = Throws e ->
        is_missing_authority e = true ->
        minimize_loop ops (k :: s') result
        = minimize_loop ops s' ({[k]} ∪ result ∖ {[k]}))
  /\ (forall e, reverify ops (result ∖ {[k]}) = Throws e ->
        is_missing_authority e = false ->
        minimize_loop ops (k :: s') result = Throws e).
Proof.
  split; [|split].
  - intros H. simpl. by rewrite H.
  - intros e H He. simpl. rewrite H. by destruct e.
  - intros e H He. simpl. rewrite H. by destruct e.
Qed.

End Minimizer.

(** C4 as stated fails: on account 10 of the examples the candidates are the
    keys 1, 2 and 3; the re-run without key 2 fails, with key 3 left unused,
    and the minimizer ends with that exception instead of restoring key 2. *)
Lemma minimize_does_not_restore_on_irrelevant_sig :
  ex_verify_authority [requires_active 10%N] ({[1%N; 2%N; 3%N]} ∖ {[2%N]})
    = Throws tx_irrelevant_sig
  /\ ex_minimize_loop [requires_active 10%N] [2%N; 3%N] {[1%N; 2%N; 3%N]}
     = Throws tx_irrelevant_sig
  /\ ex_minimize_required_signatures
       {| operations := [requires_active 10%N]; signatures := [] |}
       {[1%N; 2%N; 3%N]}
     = Throws tx_irrelevant_sig.
Proof. repeat split; vm_compute; reflexivity. Qed.

Lemma minimize_loop_step_witness :
  ex_minimize_loop [requires_active 10%N] [1%N; 2%N; 3%N] {[1%N; 2%N; 3%N]}
  = ex_minimize_loop [requires_active 10%N] [2%N; 3%N]
      ({[1%N]} ∪ {[1%N; 2%N; 3%N]} ∖ {[1%N]})
  /\ ex_minimize_loop [requires_active 10%N] [2%N; 3%N] {[1%N; 2%N; 3%N]}
     = Throws tx_irrelevant_sig
  /\ ex_minimize_loop [requires_active 11%N] [2%N] {[1%N; 2%N]}
     = ex_minimize_loop [requires_active 11%N] [] ({[1%N; 2%N]} ∖ {[2%N]}).
Proof.
  pose proof (minimize_loop_step ex_pts_address ex_address_of_key ex_temp_account
    ex_committee_account ex_operation unit tt ex_get_required
    ex_get_active ex_get_owner ex_get_custom false false 2 false ∅ ∅) as Hstep.
  split; [|split].
  - apply (Hstep [requires_active 10%N] 1%N [2%N; 3%N] {[1%N; 2%N; 3%N]})
      with (e := tx_missing_active_auth); vm_compute; reflexivity.
  - apply (Hstep [requires_active 10%N] 2%N [3%N] {[1%N; 2%N; 3%N]});
      vm_compute; reflexivity.
  - apply (Hstep [requires_active 11%N] 2%N [] {[1%N; 2%N]}); vm_compute; reflexivity.
Defined.

(** ** The loops of check_authority *)

Lemma u32_small (z : Z) : 0 <= z < u32_modulus -> u32 z = z.
Proof. intros H. unfold u32. by apply Z.mod_small. Qed.

Lemma u32_range (z : Z) : 0 <= u32 z < u32_modulus.
Proof. unfold u32, u32_modulus. apply Z.mod_pos_bound. lia. Qed.

Lemma sum_weights_nonneg {A} (l : list (A * Z)) :
  Forall (fun e => weight_ok e.2) l -> 0 <= sum_weights l.
Proof.
  induction 1 as [|e l He _ IH]; simpl; [lia|]. unfold weight_ok in He. lia.
Qed.

Section Loops.

Variable pts_address : public_key_type -> bool -> Z -> address.
Variable address_of_key : public_key_type -> address.
Variables get_active get_owner : account_id_type -> option authority.
Variable allow_non_immediate_owner : bool.
Variable available_keys : gset public_key_type.

Local Abbreviation check_authority_at :=
  (check_authority_at pts_address address_of_key get_active get_owner
     allow_non_immediate_owner available_keys).
Local Abbreviation key_auths_loop := (key_auths_loop available_keys).
Local Abbreviation address_auths_loop :=
  (address_auths_loop pts_address address_of_key available_keys).

(** *** Threshold zero *)

Lemma signed_loop_zero {A} (signed_by : A -> sign_state -> result bool)
    (l : list (A * Z)) :
  forall total s e s',
    signed_loop signed_by 0 l total s = Ok e s' ->
    e = Returned_true \/ e = Fell_through total.
Proof.
  induction l as [|k l IH]; intros total s e s' H; simpl in H.
  - inversion H; by right.
  - inv_bind H. destruct r; [|eauto].
    pose proof (u32_range (total + k.2)) as Hr.
    destruct (0 <=? u32 (total + k.2)) eqn:E0; [inversion H; by left|].
    apply Z.leb_gt in E0. lia.
Qed.

Lemma account_auths_loop_zero deeper (l : list (account_id_type * Z)) :
  forall total s e s',
    account_auths_loop deeper 0 l total s = Ok e s' ->
    e = Returned_true \/ e = Fell_through total.
Proof.
  induction l as [|a l IH]; intros total s e s' H; simpl in H.
  - inversion H; by right.
  - pose proof (u32_range (total + a.2)) as Hr.
    assert (0 <=? u32 (total + a.2) = true) as E0 by (apply Z.leb_le; lia).
    rewrite E0 in H. case_decide; [inversion H; by left|].
    destruct deeper as [check|]; [|eauto].
    inv_bind H. destruct r; [inversion H; by left | eauto].
Qed.

(** With the threshold 0 a call of [check_authority] that returns, returns
    [true]. *)
Lemma check_authority_at_zero_threshold (n : nat) (auth : authority)
    (s : sign_state) (b : bool) (s' : sign_state) :
  weight_threshold auth = 0 ->
  check_authority_at n (Some auth) s = Ok b s' -> b = true.
Proof.
  intros Hth H.
  assert (forall deeper,
    (let* (e1, s1) := key_auths_loop 0 (key_auths auth) 0 s in
     match e1 with
     | Returned_true => Ok true s1
     | Fell_through w1 =>
         let* (e2, s2) := address_auths_loop 0 (address_auths auth) w1 s1 in
         match e2 with
         | Returned_true => Ok true s2
         | Fell_through w2 =>
             let* (e3, s3) := account_auths_loop deeper 0 (account_auths auth) w2 s2 in
             match e3 with
             | Returned_true => Ok true s3
             | Fell_through w3 => Ok (0 <=? w3) s3
             end
         end
     end) = Ok b s' -> b = true) as Hbody.
  { clear H. intros deeper H.
    inv_bind H. apply signed_loop_zero in E as [->| ->]; [by inversion H|].
    inv_bind H. apply signed_loop_zero in E as [->| ->]; [by inversion H|].
    inv_bind H. apply account_auths_loop_zero in E as [->| ->]; by inversion H. }
  destruct n; simpl in H; rewrite Hth in H; by apply Hbody in H.
Qed.

(** *** Listed weights below the threshold *)

Lemma signed_loop_below {A} (signed_by : A -> sign_state -> result bool)
    (threshold : Z) (l : list (A * Z)) :
  Forall (fun e => weight_ok e.2) l ->
  forall total s e s',
    0 <= total -> total + sum_weights l < threshold -> threshold < u32_modulus ->
    signed_loop signed_by threshold l total s = Ok e s' ->
    exists total', e = Fell_through total'
                   /\ total <= total' <= total + sum_weights l.
Proof.
  induction 1 as [|k l Hk Hl IH]; intros total s e s' H0 Hlt Hth H; simpl in *.
  - inversion H; subst. exists total. split; [done|lia].
  - pose proof (sum_weights_nonneg l Hl) as Hn. unfold weight_ok in Hk.
    inv_bind H. destruct r.
    + rewrite u32_small in H by lia.
      destruct (threshold <=? total + k.2) eqn:E1; [apply Z.leb_le in E1; lia|].
      apply IH in H as (t' & -> & Ht'); [|lia..]. exists t'. split; [done|lia].
    + apply IH in H as (t' & -> & Ht'); [|lia..]. exists t'. split; [done|lia].
Qed.

Lemma account_auths_loop_below deeper (threshold : Z)
    (l : list (account_id_type * Z)) :
  Forall (fun e => weight_ok e.2) l ->
  forall total s e s',
    0 <= total -> total + sum_weights l < threshold -> threshold < u32_modulus ->
    account_auths_loop deeper threshold l total s = Ok e s' ->
    exists total', e = Fell_through total'
                   /\ total <= total' <= total + sum_weights l.
Proof.
  induction 1 as [|a l Ha Hl IH]; intros total s e s' H0 Hlt Hth H; simpl in *.
  - inversion H; subst. exists total. split; [done|lia].
  - pose proof (sum_weights_nonneg l Hl) as Hn. unfold weight_ok in Ha.
    rewrite u32_small in H by lia.
    assert (threshold <=? total + a.2 = false) as E1 by (apply Z.leb_gt; lia).
    rewrite E1 in H.
    assert (forall d t s0, t <= total + a.2 -> total <= t ->
              account_auths_loop d threshold l t s0 = Ok e s' -> d = deeper ->
              exists total', e = Fell_through total'
                             /\ total <= total' <= total + (a.2 + sum_weights l)) as Hgo.
    { intros d t s0 Ht1 Ht2 Hl' ->. apply IH in Hl' as (t' & -> & Ht'); [|lia..].
      exists t'. split; [done|lia]. }
    case_decide; [eapply Hgo; eauto; lia|].
    destruct deeper as [check|]; [|eapply Hgo; eauto; lia].
    inv_bind H. destruct r; eapply Hgo; eauto; lia.
Qed.

(** When the weights an authority lists sum to less than its threshold, a
    call of [check_authority] that returns, returns [false]. *)
Lemma check_authority_at_below_threshold (n : nat) (auth : authority)
    (s : sign_state) (b : bool) (s' : sign_state) :
  authority_ok auth ->
  total_listed_weight auth < weight_threshold auth ->
  check_authority_at n (Some auth) s = Ok b s' -> b = false.
Proof.
  intros (Hth & Hk & Ha & Hc) Hsum H. unfold total_listed_weight in Hsum.
  pose proof (sum_weights_nonneg _ Hk). pose proof (sum_weights_nonneg _ Ha).
  pose proof (sum_weights_nonneg _ Hc). destruct Hth as [_ Hth].
  assert (forall deeper,
    (let* (e1, s1) := key_auths_loop (weight_threshold auth) (key_auths auth) 0 s in
     match e1 with
     | Returned_true => Ok true s1
     | Fell_through w1 =>
         let* (e2, s2) := address_auths_loop (weight_threshold auth)
                            (address_auths auth) w1 s1 in
         match e2 with
         | Returned_true => Ok true s2
         | Fell_through w2 =>
             let* (e3, s3) := account_auths_loop deeper (weight_threshold auth)
                                (account_auths auth) w2 s2 in
             match e3 with
             | Returned_true => Ok true s3
             | Fell_through w3 => Ok (weight_threshold auth <=? w3) s3
             end
         end
     end) = Ok b s' -> b = false) as Hbody.
  { clear H. intros deeper H.
    inv_bind H. apply signed_loop_below in E as (w1 & -> & Hw1); [|done|lia..].
    inv_bind H. apply signed_loop_below in E as (w2 & -> & Hw2); [|done|lia..].
    inv_bind H. apply account_auths_loop_below in E as (w3 & -> & Hw3); [|done|lia..].
    inversion H; subst. apply Z.leb_gt. lia. }
  destruct n; simpl in H; by apply Hbody in H.
Qed.

End Loops.

(** ** check_authority in the form of the source *)

Section CheckAuthority.

Variable pts_address : public_key_type -> bool -> Z -> address.
Variable address_of_key : public_key_type -> address.
Variables get_active get_owner : account_id_type -> option authority.
Variable allow_non_immediate_owner : bool.
Variable max_recursion : Z.
Variable available_keys : gset public_key_type.

Local Abbreviation check_authority :=
  (check_authority pts_address address_of_key get_active get_owner
     allow_non_immediate_owner max_recursion available_keys).
Local Abbreviation check_authority_at :=
  (check_authority_at pts_address address_of_key get_active get_owner
     allow_non_immediate_owner available_keys).
Local Abbreviation key_auths_loop := (key_auths_loop available_keys).
Local Abbreviation address_auths_loop :=
  (address_auths_loop pts_address address_of_key available_keys).
Local Abbreviation signed_by_address :=
  (signed_by_address pts_address address_of_key available_keys).
Local Abbreviation active_or_owner :=
  (active_or_owner get_active get_owner allow_non_immediate_owner).
Local Abbreviation remaining := (remaining max_recursion).
Local Abbreviation unmatched := (unmatched pts_address address_of_key available_keys).

Lemma remaining_at_max (depth : Z) :
  is_u32 depth -> is_u32 max_recursion ->
  remaining depth = O <-> depth = max_recursion.
Proof.
  unfold remaining, is_u32, u32, u32_modulus. intros Hd Hm.
  split.
  - intros H.
    assert ((max_recursion - depth) mod 2 ^ 32 = 0) as H0.
    { pose proof (Z.mod_pos_bound (max_recursion - depth) (2 ^ 32)). lia. }
    apply Z.mod_divide in H0; [|lia]. destruct H0 as [q Hq]. nia.
  - intros ->. by rewrite Z.sub_diag.
Qed.

Lemma remaining_below_max (depth : Z) :
  is_u32 depth -> is_u32 max_recursion -> depth <> max_recursion ->
  remaining depth = S (remaining (u32 (depth + 1))).
Proof.
  unfold remaining, is_u32, u32, u32_modulus. intros Hd Hm Hne.
  rewrite Zminus_mod_idemp_r.
  replace (max_recursion - (depth + 1)) with ((max_recursion - depth) - 1) by lia.
  destruct (decide (depth < max_recursion)).
  - rewrite !Z.mod_small by lia. lia.
  - replace ((max_recursion - depth) mod 2 ^ 32)
      with (max_recursion - depth + 2 ^ 32).
    2: { apply Z.mod_unique with (q := -1); lia. }
    replace ((max_recursion - depth - 1) mod 2 ^ 32)
      with (max_recursion - depth - 1 + 2 ^ 32).
    2: { apply Z.mod_unique with (q := -1); lia. }
    lia.
Qed.

(** The body of [check_authority( au, depth )] as the source writes it: a
    delegate is skipped when [depth == max_recursion] and checked at
    [depth+1] otherwise. *)
Lemma check_authority_unfold (auth : authority) (depth : Z) (s : sign_state) :
  is_u32 depth -> is_u32 max_recursion ->
  check_authority (Some auth) depth s =
    let threshold := weight_threshold auth in
    let* (e1, s1) := key_auths_loop threshold (key_auths auth) 0 s in
    match e1 with
    | Returned_true => Ok true s1
    | Fell_through w1 =>
        let* (e2, s2) := address_auths_loop threshold (address_auths auth) w1 s1 in
        match e2 with
        | Returned_true => Ok true s2
        | Fell_through w2 =>
            let deeper :=
              if depth =? max_recursion then None
              else Some (active_or_owner
                           (fun au => check_authority au (u32 (depth + 1)))) in
            let* (e3, s3) :=
              account_auths_loop deeper threshold (account_auths auth) w2 s2 in
            match e3 with
            | Returned_true => Ok true s3
            | Fell_through w3 => Ok (threshold <=? w3) s3
            end
        end
    end.
Proof.
  intros Hd Hm. unfold check_authority.
  destruct (Z.eqb_spec depth max_recursion) as [Heq|Hne].
  - apply remaining_at_max in Heq; [|done..]. by rewrite Heq.
  - by rewrite (remaining_below_max depth Hd Hm Hne).
Qed.

Lemma check_authority_null (depth : Z) (s : sign_state) :
  check_authority None depth s = Ok false s.
Proof. unfold check_authority. by destruct (remaining depth). Qed.

(** *** Addresses that no key derives *)

Lemma signed_by_address_unmatched (a : address) (s : sign_state) :
  unmatched a s -> signed_by_address a s = Undefined.
Proof.
  intros [Hfresh Hno]. unfold signed_by_address, ensure_address_sigs.
  rewrite Hfresh. cbn [provided_address_sigs available_address_sigs set_address_sigs].
  assert (forall X : gset public_key_type,
            (forall k, k ∈ X -> a ∉ derived_addresses pts_address address_of_key k) ->
            build_address_sigs pts_address address_of_key (in_order X) !! a = None)
    as Hnone.
  { intros X HX. apply not_elem_of_dom. rewrite build_address_sigs_dom.
    intros (k & Hk & Ha). apply elem_of_in_order in Hk. by apply (HX k). }
  rewrite !Hnone; [done|..]; intros k Hk; apply Hno; [by right|by left].
Qed.

Lemma address_auths_loop_unmatched (threshold : Z) (a : address) (w : Z)
    (rest : list (address * Z)) (total : Z) (s : sign_state) :
  unmatched a s ->
  address_auths_loop threshold ((a, w) :: rest) total s = Undefined.
Proof.
  intros Hu. unfold address_auths_loop. cbn [signed_loop fst].
  by rewrite (signed_by_address_unmatched a s Hu).
Qed.

Lemma check_authority_at_unmatched (n : nat) (auth : authority) (a : address)
    (w : Z) (rest : list (address * Z)) (s : sign_state) :
  key_auths auth = [] ->
  address_auths auth = (a, w) :: rest ->
  unmatched a s ->
  check_authority_at n (Some auth) s = Undefined.
Proof.
  intros Hk Ha Hu.
  destruct n; cbn [check_authority_at]; rewrite Hk, Ha;
    unfold key_auths_loop; cbn [signed_loop bind];
    by rewrite (address_auths_loop_unmatched _ a w rest 0 s Hu).
Qed.

(** *** Authorities without address entries *)

Lemma signed_by_key_defined (k : public_key_type) (s : sign_state) :
  exists b s', signed_by_key available_keys k s = Ok b s'.
Proof.
  unfold signed_by_key. destruct (_ !! k); [|case_decide]; eauto.
Qed.

Lemma key_auths_loop_defined (threshold : Z) (l : list (public_key_type * Z)) :
  forall total s, exists e s', key_auths_loop threshold l total s = Ok e s'.
Proof.
  unfold key_auths_loop.
  induction l as [|k l IH]; intros total s; cbn [signed_loop]; [eauto|].
  destruct (signed_by_key_defined k.1 s) as (b & s1 & ->). cbn [bind].
  destruct b; [destruct (_ <=? _)|]; eauto.
Qed.

Lemma account_auths_loop_defined deeper (threshold : Z)
    (l : list (account_id_type * Z)) :
  (forall check, deeper = Some check ->
     forall a s, exists b s', check a s = Ok b s') ->
  forall total s, exists e s', account_auths_loop deeper threshold l total s = Ok e s'.
Proof.
  intros Hd. induction l as [|a l IH]; intros total s; simpl; [eauto|].
  case_decide; [destruct (_ <=? _); eauto|].
  destruct deeper as [check|]; [|eauto].
  destruct (Hd check eq_refl a.1 s) as (b & s1 & ->). simpl.
  destruct b; [destruct (_ <=? _)|]; eauto.
Qed.

(** When neither the authority checked nor any authority the accessors
    return lists an address, the call returns. *)
Lemma check_authority_at_defined (n : nat) :
  (forall id auth, get_active id = Some auth \/ get_owner id = Some auth ->
                   address_auths auth = []) ->
  forall au s,
    (forall auth, au = Some auth -> address_auths auth = []) ->
    exists b s', check_authority_at n au s = Ok b s'.
Proof.
  intros Hfree. induction n as [|n IH]; intros [auth|] s Hau; simpl; eauto.
  all: rewrite (Hau auth eq_refl);
    destruct (key_auths_loop_defined (weight_threshold auth) (key_auths auth) 0 s)
      as (e1 & s1 & ->); simpl;
    destruct e1 as [|w1]; [eauto|]; simpl.
  - destruct (account_auths_loop_defined None (weight_threshold auth)
                (account_auths auth)) with (total := w1) (s := s1)
      as (e3 & s3 & ->); [done|]. simpl. destruct e3; eauto.
  - destruct (account_auths_loop_defined
                (Some (active_or_owner (check_authority_at n)))
                (weight_threshold auth) (account_auths auth))
      with (total := w1) (s := s1) as (e3 & s3 & ->).
    2: { simpl. destruct e3; eauto. }
    intros check Hc a s0. inversion Hc; subst. unfold active_or_owner.
    destruct (IH (get_active a) s0) as (b & s' & ->); [naive_solver|]. simpl.
    destruct b; [eauto|]. destruct allow_non_immediate_owner; [|eauto].
    apply IH. naive_solver.
Qed.

End CheckAuthority.

(** ** A fresh sign_state *)

Lemma fold_insert_false_lookup (l : list public_key_type)
    (m : gmap public_key_type bool) (k : public_key_type) :
  fold_left (fun m' key => <[key := false]> m') l m !! k
  = if decide (k ∈ l) then Some false else m !! k.
Proof.
  revert m. induction l as [|x l IH]; intros m; cbn [fold_left].
  - case_decide as H; [by apply elem_of_nil in H|done].
  - rewrite IH. destruct (decide (k ∈ l)) as [Hin|Hin].
    + rewrite decide_True; [done|]. by constructor.
    + destruct (decide (k = x)) as [->|Hne].
      * rewrite decide_True by constructor. apply lookup_insert_eq.
      * rewrite decide_False.
        -- by rewrite lookup_insert_ne.
        -- intros H. apply elem_of_cons in H as [?|?]; done.
Qed.

Lemma new_sign_state_lookup (temp : account_id_type) (sigs : gset public_key_type)
    (k : public_key_type) :
  provided_signatures (new_sign_state temp sigs) !! k
  = if decide (k ∈ sigs) then Some false else None.
Proof.
  unfold new_sign_state. cbn [provided_signatures].
  rewrite fold_insert_false_lookup, lookup_empty.
  destruct (decide (k ∈ sigs)) as [H|H].
  - rewrite decide_True; [done|]. by apply elem_of_in_order.
  - rewrite decide_False; [done|]. by rewrite elem_of_in_order.
Qed.

Lemma new_sign_state_dom (temp : account_id_type) (sigs : gset public_key_type) :
  dom (provided_signatures (new_sign_state temp sigs)) = sigs.
Proof.
  apply set_eq. intros k. rewrite elem_of_dom, new_sign_state_lookup.
  case_decide; split; try done; intros [? ?]; done.
Qed.

(** ** Trivial and unsatisfiable authorities *)

Section Thresholds.

Variable pts_address : public_key_type -> bool -> Z -> address.
Variable address_of_key : public_key_type -> address.
Variables get_active get_owner : account_id_type -> option authority.
Variable allow_non_immediate_owner : bool.
Variable max_recursion : Z.
Variable available_keys : gset public_key_type.

Local Abbreviation check_authority :=
  (check_authority pts_address address_of_key get_active get_owner
     allow_non_immediate_owner max_recursion available_keys).
Local Abbreviation unmatched := (unmatched pts_address address_of_key available_keys).

(** C5.  With [weight_threshold = 0] a call of [check_authority] never
    returns [false]: whenever it returns, it returns [true].  It does not
    return on every input: when the first address entry is reached and no
    provided or available key derives that address, [signed_by] dereferences
    a past-the-end iterator and the call has no defined result. *)
Theorem check_authority_zero_threshold
    (auth : authority) (depth : Z) (s : sign_state) :
  weight_threshold auth = 0 ->
  (forall b s', check_authority (Some auth) depth s = Ok b s' -> b = true)
  /\ (forall a w rest,
        key_auths auth = [] -> address_auths auth = (a, w) :: rest ->
        unmatched a s ->
        check_authority (Some auth) depth s = Undefined).
Proof.
  intros Hth. split.
  - intros b s' H. eapply check_authority_at_zero_threshold; eauto.
  - intros a w rest Hk Ha Hu. eapply check_authority_at_unmatched; eauto.
Qed.

(** C6.  When the weights an authority lists sum to less than its
    threshold, a call of [check_authority] never returns [true]: whenever it
    returns, it returns [false].  It does not return on every input: an
    address entry that no provided or available key derives makes
    [signed_by] dereference a past-the-end iterator. *)
Theorem check_authority_below_threshold
    (auth : authority) (depth : Z) (s : sign_state) :
  authority_ok auth ->
  total_listed_weight auth < weight_threshold auth ->
  (forall b s', check_authority (Some auth) depth s = Ok b s' -> b = false)
  /\ (forall a w rest,
        key_auths auth = [] -> address_auths auth = (a, w) :: rest ->
        unmatched a s ->
        check_authority (Some auth) depth s = Undefined).
Proof.
  intros Hok Hsum. split.
  - intros b s' H. eapply check_authority_at_below_threshold; eauto.
  - intros a w rest Hk Ha Hu. eapply check_authority_at_unmatched; eauto.
Qed.

End Thresholds.

Lemma unmatched_example :
  unmatched ex_pts_address ex_address_of_key ∅ 5%N
    (new_sign_state ex_temp_account {[7%N]}).
Proof.
  split; [reflexivity|]. intros k [Hk|Hk].
  - rewrite new_sign_state_dom in Hk. apply elem_of_singleton in Hk as ->.
    intros H. apply list_elem_of_In in H. vm_compute in H. intuition discriminate.
  - by apply not_elem_of_empty in Hk.
Defined.

Lemma check_authority_zero_threshold_witness :
  ex_check_authority 2 ∅ (Some (au_address 0 5%N)) 0
    (new_sign_state ex_temp_account {[7%N]}) = Undefined.
Proof.
  apply (proj2 (check_authority_zero_threshold ex_pts_address ex_address_of_key
           ex_get_active ex_get_owner false 2 ∅ (au_address 0 5%N) 0
           (new_sign_state ex_temp_account {[7%N]}) eq_refl) 5%N 1 []);
    [reflexivity | reflexivity | exact unmatched_example].
Defined.

Lemma check_authority_below_threshold_witness :
  ex_check_authority 2 ∅ (Some (au_address 5 5%N)) 0
    (new_sign_state ex_temp_account {[7%N]}) = Undefined.
Proof.
  assert (authority_ok (au_address 5 5%N)) as Hok.
  { unfold authority_ok, is_u32, u32_modulus, weight_ok. cbn.
    repeat split; try lia; repeat constructor; cbn; lia. }
  assert (total_listed_weight (au_address 5 5%N) < weight_threshold (au_address 5 5%N))
    as Hsum by (vm_compute; reflexivity).
  apply (proj2 (check_authority_below_threshold ex_pts_address ex_address_of_key
           ex_get_active ex_get_owner false 2 ∅ (au_address 5 5%N) 0
           (new_sign_state ex_temp_account {[7%N]}) Hok Hsum) 5%N 1 []);
    [reflexivity | reflexivity | exact unmatched_example].
Defined.

(** ** Approved accounts stay approved *)

Section ApprovedBy.

Variable pts_address : public_key_type -> bool -> Z -> address.
Variable address_of_key : public_key_type -> address.
Variables get_active get_owner : account_id_type -> option authority.
Variable allow_non_immediate_owner : bool.
Variable max_recursion : Z.
Variable available_keys : gset public_key_type.

Local Abbreviation check_authority_with ga go :=
  (check_authority pts_address address_of_key ga go
     allow_non_immediate_owner max_recursion available_keys).
Local Abbreviation check_authority :=
  (check_authority pts_address address_of_key get_active get_owner
     allow_non_immediate_owner max_recursion available_keys).
Local Abbreviation check_authority_account :=
  (check_authority_account pts_address address_of_key get_active get_owner
     allow_non_immediate_owner max_recursion available_keys).
Local Abbreviation run_call :=
  (run_call pts_address address_of_key get_active get_owner
     allow_non_immediate_owner max_recursion available_keys).
Local Abbreviation run_calls :=
  (run_calls pts_address address_of_key get_active get_owner
     allow_non_immediate_owner max_recursion available_keys).

Lemma state_of_Some {A} (r : result A) (s' : sign_state) :
  state_of r = Some s' -> exists a, r = Ok a s'.
Proof. destruct r as [a s1|]; [|done]. intros H; inversion H; eauto. Qed.

Lemma check_authority_account_approved (id : account_id_type) (s : sign_state)
    (b : bool) (s' : sign_state) :
  check_authority_account id s = Ok b s' -> approved_by s ⊆ approved_by s'.
Proof.
  unfold check_authority_account.
  case_decide as Hin; [intros H; by inversion H|].
  apply active_or_owner_approved. intros au s0 b0 s0'.
  apply check_authority_at_approved.
Qed.

Lemma run_call_approved (c : sign_state_call) (s s' : sign_state) :
  run_call c s = Some s' -> approved_by s ⊆ approved_by s'.
Proof.
  destruct c; cbn [run_call]; intros H.
  - apply state_of_Some in H as [b H]. apply signed_by_key_approved in H.
    by rewrite H.
  - apply state_of_Some in H as [b H]. apply signed_by_address_approved in H.
    by rewrite H.
  - apply state_of_Some in H as [b H]. by apply check_authority_account_approved in H.
  - apply state_of_Some in H as [b H]. by apply check_authority_at_approved in H.
  - by inversion H.
  - inversion H. cbn. clear. set_solver.
Qed.

Lemma run_calls_approved (cs : list sign_state_call) :
  forall s s', run_calls cs s = Some s' -> approved_by s ⊆ approved_by s'.
Proof.
  induction cs as [|c cs IH]; intros s s' H; cbn [run_calls] in H.
  - by inversion H.
  - destruct (run_call c s) as [s1|] eqn:E; [|done].
    apply run_call_approved in E. apply IH in H. clear -E H. set_solver.
Qed.


End ApprovedBy.


(** ** Callbacks that answer alike *)

Section Idempotence.

Variable pts_address : public_key_type -> bool -> Z -> address.
Variable address_of_key : public_key_type -> address.
Variables GRAPHENE_TEMP_ACCOUNT GRAPHENE_COMMITTEE_ACCOUNT : account_id_type.
Variable operation : Type.
Variable rejected_predicate_map : Type.
Variable no_rejections : rejected_predicate_map.
Variable operation_get_required_authorities :
  operation -> bool -> required -> required.
Variables allow_non_immediate_owner ignore_custom_operation_required_auths : bool.
Variable max_recursion_depth : Z.

(** The callbacks as the first and as the second invocation see them. *)
Variables get_active get_active' : account_id_type -> option authority.
Variables get_owner get_owner' : account_id_type -> option authority.
Variables get_custom get_custom' :
  custom_authority_lookup operation rejected_predicate_map.

(** Stable callbacks: the second invocation gets the answers of the first. *)
Hypothesis get_active_stable : forall id, get_active id = get_active' id.
Hypothesis get_owner_stable : forall id, get_owner id = get_owner' id.
Hypothesis get_custom_stable :
  forall id op rejected, get_custom id op rejected = get_custom' id op rejected.

Local Abbreviation check_with ga go :=
  (check pts_address address_of_key ga go allow_non_immediate_owner
     max_recursion_depth).
Local Abbreviation check_account_with ga go :=
  (check_account pts_address address_of_key ga go allow_non_immediate_owner
     max_recursion_depth).
Local Abbreviation verify_authority_with ga go gc :=
  (verify_authority pts_address address_of_key GRAPHENE_TEMP_ACCOUNT
     GRAPHENE_COMMITTEE_ACCOUNT operation rejected_predicate_map no_rejections
     operation_get_required_authorities ga go gc
     allow_non_immediate_owner ignore_custom_operation_required_auths
     max_recursion_depth).
Local Abbreviation requirement_checks_with ga go gc :=
  (requirement_checks pts_address address_of_key GRAPHENE_TEMP_ACCOUNT
     GRAPHENE_COMMITTEE_ACCOUNT operation rejected_predicate_map no_rejections
     operation_get_required_authorities ga go gc
     allow_non_immediate_owner ignore_custom_operation_required_auths
     max_recursion_depth).

Lemma check_stable (keys : gset public_key_type) (au : option authority)
    (s : sign_state) :
  check_with get_active get_owner keys au s
  = check_with get_active' get_owner' keys au s.
Proof using get_active_stable get_owner_stable.
  unfold check, check_authority. apply check_authority_at_agree.
  intros a _. by split.
Qed.

Lemma check_account_stable (keys : gset public_key_type) (id : account_id_type)
    (s : sign_state) :
  check_account_with get_active get_owner keys id s
  = check_account_with get_active' get_owner' keys id s.
Proof using get_active_stable get_owner_stable.
  unfold check_account, check_authority_account. case_decide; [done|].
  unfold check_authority.
  apply active_or_owner_agree; [| |by intros a _; split|done].
  - intros au s1 _. apply check_authority_at_agree. intros a _. by split.
  - intros au s1 b s2. apply check_authority_at_approved.
Qed.

Lemma custom_auths_loop_stable (keys : gset public_key_type)
    (viable : list authority) :
  forall s,
    custom_auths_loop pts_address address_of_key get_active get_owner
      allow_non_immediate_owner max_recursion_depth keys viable s
    = custom_auths_loop pts_address address_of_key get_active' get_owner'
        allow_non_immediate_owner max_recursion_depth keys viable s.
Proof using get_active_stable get_owner_stable.
  induction viable as [|auth viable IH]; intros s; cbn [custom_auths_loop]; [done|].
  rewrite check_stable.
  destruct (check_with get_active' get_owner' keys (Some auth) s) as [b s1|];
    cbn [bind]; [|done].
  destruct b; [done|apply IH].
Qed.

Lemma custom_erase_loop_stable (keys : gset public_key_type) (op : operation)
    (ids : list account_id_type) :
  forall required_active rejected s,
    custom_erase_loop pts_address address_of_key operation rejected_predicate_map
      get_active get_owner get_custom allow_non_immediate_owner
      max_recursion_depth keys op ids required_active rejected s
    = custom_erase_loop pts_address address_of_key operation rejected_predicate_map
        get_active' get_owner' get_custom' allow_non_immediate_owner
        max_recursion_depth keys op ids required_active rejected s.
Proof using get_active_stable get_owner_stable get_custom_stable.
  induction ids as [|id ids IH]; intros required_active rejected s;
    cbn [custom_erase_loop]; [done|].
  rewrite get_custom_stable. destruct (get_custom' id op rejected) as [viable r1].
  rewrite custom_auths_loop_stable.
  destruct (custom_auths_loop _ _ get_active' _ _ _ _ _ _) as [b s1|];
    cbn [bind]; [|done].
  destruct b; apply IH.
Qed.

Lemma operations_loop_stable (keys : gset public_key_type) (ops : list operation) :
  forall required_active req rejected s,
    operations_loop pts_address address_of_key operation rejected_predicate_map
      operation_get_required_authorities get_active get_owner get_custom
      allow_non_immediate_owner ignore_custom_operation_required_auths
      max_recursion_depth keys ops required_active req rejected s
    = operations_loop pts_address address_of_key operation rejected_predicate_map
        operation_get_required_authorities get_active' get_owner' get_custom'
        allow_non_immediate_owner ignore_custom_operation_required_auths
        max_recursion_depth keys ops required_active req rejected s.
Proof using get_active_stable get_owner_stable get_custom_stable.
  induction ops as [|op ops IH]; intros required_active req rejected s;
    cbn [operations_loop]; [done|].
  rewrite custom_erase_loop_stable.
  destruct (custom_erase_loop _ _ _ _ get_active' _ _ _ _ _ _ _ _ _ _) as [e s1|];
    cbn [bind]; [|done].
  apply IH.
Qed.

Lemma other_loop_stable (keys : gset public_key_type) (l : list authority) :
  forall s,
    other_loop pts_address address_of_key get_active get_owner
      allow_non_immediate_owner max_recursion_depth keys l s
    = other_loop pts_address address_of_key get_active' get_owner'
        allow_non_immediate_owner max_recursion_depth keys l s.
Proof using get_active_stable get_owner_stable.
  induction l as [|auth l IH]; intros s; cbn [other_loop]; [done|].
  rewrite check_stable.
  destruct (check_with get_active' get_owner' keys (Some auth) s) as [[|] s1|];
    [apply IH|done..].
Qed.

Lemma owner_loop_stable (keys : gset public_key_type)
    (owner_approvals : gset account_id_type) (ids : list account_id_type) :
  forall s,
    owner_loop pts_address address_of_key get_active get_owner
      allow_non_immediate_owner max_recursion_depth keys owner_approvals ids s
    = owner_loop pts_address address_of_key get_active' get_owner'
        allow_non_immediate_owner max_recursion_depth keys owner_approvals ids s.
Proof using get_active_stable get_owner_stable.
  induction ids as [|id ids IH]; intros s; cbn [owner_loop]; [done|].
  case_decide; [apply IH|].
  rewrite check_stable, get_owner_stable.
  destruct (check_with get_active' get_owner' keys (get_owner' id) s)
    as [[|] s1|]; [apply IH|done..].
Qed.

Lemma active_loop_stable (keys : gset public_key_type) (ids : list account_id_type) :
  forall s,
    active_loop pts_address address_of_key get_active get_owner
      allow_non_immediate_owner max_recursion_depth keys ids s
    = active_loop pts_address address_of_key get_active' get_owner'
        allow_non_immediate_owner max_recursion_depth keys ids s.
Proof using get_active_stable get_owner_stable.
  induction ids as [|id ids IH]; intros s; cbn [active_loop]; [done|].
  rewrite check_account_stable.
  destruct (check_account_with get_active' get_owner' keys id s)
    as [[|] s1|]; [apply IH| |done].
  rewrite check_stable, get_owner_stable, get_active_stable.
  destruct (check_with get_active' get_owner' keys (get_owner' id) s1)
    as [[|] s2|]; [apply IH|done..].
Qed.

Lemma requirement_checks_stable (ops : list operation)
    (sigs : gset public_key_type) (allow_committee : bool)
    (active_aprovals owner_approvals : gset account_id_type) :
  requirement_checks_with get_active get_owner get_custom
    ops sigs allow_committee active_aprovals owner_approvals
  = requirement_checks_with get_active' get_owner' get_custom'
      ops sigs allow_committee active_aprovals owner_approvals.
Proof using get_active_stable get_owner_stable get_custom_stable.
  unfold requirement_checks. rewrite operations_loop_stable.
  destruct (operations_loop _ _ _ _ _ get_active' _ _ _ _ _ _ _ _ _ _ _)
    as [[[required_active req] rejected] s1|]; [|done].
  destruct (_ && _); [done|].
  rewrite other_loop_stable.
  destruct (other_loop _ _ get_active' _ _ _ _ _ _) as [s2|e|]; [|done..].
  rewrite owner_loop_stable.
  destruct (owner_loop _ _ get_active' _ _ _ _ _ _ _) as [s3|e|]; [|done..].
  apply active_loop_stable.
Qed.

End Idempotence.

Lemma ex_get_active_stable (id : account_id_type) :
  ex_get_active id = ex_get_active_again id.
Proof.
  unfold ex_get_active, ex_get_active_again.
  destruct (N.eqb_spec id 11) as [->|H11]; [done|].
  destruct (N.eqb_spec id 10) as [->|H10]; [done|].
  by rewrite !decide_False.
Defined.

(** ** Invariants of the object

    A property of the state that the two forms of [signed_by] and an
    insertion into [approved_by] preserve is preserved by every check. *)

Section Preservation.

Variable pts_address : public_key_type -> bool -> Z -> address.
Variable address_of_key : public_key_type -> address.
Variable GRAPHENE_TEMP_ACCOUNT : account_id_type.
Variable operation : Type.
Variable rejected_predicate_map : Type.
Variable operation_get_required_authorities :
  operation -> bool -> required -> required.
Variables get_active get_owner : account_id_type -> option authority.
Variable get_custom : custom_authority_lookup operation rejected_predicate_map.
Variables allow_non_immediate_owner ignore_custom_operation_required_auths : bool.
Variable max_recursion : Z.
Variable available_keys : gset public_key_type.

Variable P : sign_state -> Prop.
Hypothesis P_key : forall k s b s',
  P s -> signed_by_key available_keys k s = Ok b s' -> P s'.
Hypothesis P_address : forall a s b s',
  P s -> signed_by_address pts_address address_of_key available_keys a s = Ok b s' ->
  P s'.
Hypothesis P_insert : forall id s, P s -> P (set_approved (union {[id]}) s).

Local Abbreviation check_authority_at :=
  (check_authority_at pts_address address_of_key get_active get_owner
     allow_non_immediate_owner available_keys).
Local Abbreviation check :=
  (check pts_address address_of_key get_active get_owner
     allow_non_immediate_owner max_recursion available_keys).
Local Abbreviation check_account :=
  (check_account pts_address address_of_key get_active get_owner
     allow_non_immediate_owner max_recursion available_keys).

Lemma signed_loop_preserves {A} (signed_by : A -> sign_state -> result bool)
    (threshold : Z) (l : list (A * Z)) :
  (forall k s b s', P s -> signed_by k s = Ok b s' -> P s') ->
  forall total s e s',
    P s -> signed_loop signed_by threshold l total s = Ok e s' -> P s'.
Proof.
  intros Hs. induction l as [|k l IH]; intros total s e s' HP H; cbn [signed_loop] in H.
  - by inversion H; subst.
  - inv_bind H. apply Hs in E; [|done].
    destruct r; [destruct (_ <=? _)|]; eauto. by inversion H; subst.
Qed.

Lemma account_auths_loop_preserves deeper (threshold : Z)
    (l : list (account_id_type * Z)) :
  (forall chk, deeper = Some chk ->
     forall a s b s', P s -> chk a s = Ok b s' -> P s') ->
  forall total s e s',
    P s -> account_auths_loop deeper threshold l total s = Ok e s' -> P s'.
Proof using P_insert.
  intros Hd. induction l as [|a l IH]; intros total s e s' HP H;
    cbn [account_auths_loop] in H.
  - by inversion H; subst.
  - case_decide.
    + destruct (_ <=? _); [by inversion H; subst | eauto].
    + destruct deeper as [chk|]; [|eauto].
      inv_bind H. apply (Hd chk eq_refl) in E; [|done].
      destruct r; [|eauto].
      destruct (_ <=? _); [inversion H; subst; by apply P_insert|].
      eapply IH; [|exact H]. by apply P_insert.
Qed.

Lemma active_or_owner_preserves chk :
  (forall au s b s', P s -> chk au s = Ok b s' -> P s') ->
  forall id s b s',
    P s ->
    active_or_owner get_active get_owner allow_non_immediate_owner chk id s = Ok b s' ->
    P s'.
Proof.
  intros Hc id s b s' HP H. unfold active_or_owner in H.
  inv_bind H. apply Hc in E; [|done].
  destruct r; [by inversion H; subst|].
  destruct allow_non_immediate_owner; [eauto|by inversion H; subst].
Qed.

Lemma check_authority_at_preserves (n : nat) :
  forall au s b s', P s -> check_authority_at n au s = Ok b s' -> P s'.
Proof using P_key P_address P_insert.
  induction n as [|n IH]; intros [auth|] s b s' HP H;
    cbn [check_authority_at] in H; try (by inversion H; subst).
  all: inv_bind H;
    apply (signed_loop_preserves _ _ _ P_key) in E; [|done];
    destruct r as [|w1]; [by inversion H; subst|];
    inv_bind H;
    apply (signed_loop_preserves _ _ _ P_address) in E0; [|done];
    destruct r as [|w2]; [by inversion H; subst|];
    inv_bind H;
    assert (P s2) as HP2;
    [|destruct r; by inversion H; subst].
  - eapply account_auths_loop_preserves; [|exact E0|exact E1]. by intros chk Hchk.
  - eapply account_auths_loop_preserves; [|exact E0|exact E1].
    intros chk Hchk. inversion Hchk; subst.
    by apply active_or_owner_preserves.
Qed.

Lemma check_preserves (au : option authority) (s : sign_state) (b : bool)
    (s' : sign_state) :
  P s -> check au s = Ok b s' -> P s'.
Proof using P_key P_address P_insert.
  unfold check, check_authority. apply check_authority_at_preserves.
Qed.

Lemma check_account_preserves (id : account_id_type) (s : sign_state) (b : bool)
    (s' : sign_state) :
  P s -> check_account id s = Ok b s' -> P s'.
Proof using P_key P_address P_insert.
  unfold check_account, check_authority_account. intros HP.
  case_decide as Hin; [intros H; by inversion H; subst|].
  apply active_or_owner_preserves; [|done].
  intros au s0 b0 s0'. apply check_authority_at_preserves.
Qed.

Lemma custom_auths_loop_preserves (viable : list authority) :
  forall s b s',
    P s ->
    custom_auths_loop pts_address address_of_key get_active get_owner
      allow_non_immediate_owner max_recursion available_keys viable s = Ok b s' ->
    P s'.
Proof using P_key P_address P_insert.
  induction viable as [|auth viable IH]; intros s b s' HP H;
    cbn [custom_auths_loop] in H.
  - by inversion H; subst.
  - inv_bind H. apply check_preserves in E; [|done].
    destruct r; [by inversion H; subst | eauto].
Qed.

Lemma custom_erase_loop_preserves (op : operation) (ids : list account_id_type) :
  forall required_active rejected s e s',
    P s ->
    custom_erase_loop pts_address address_of_key operation rejected_predicate_map
      get_active get_owner get_custom allow_non_immediate_owner max_recursion
      available_keys op ids required_active rejected s = Ok e s' ->
    P s'.
Proof using P_key P_address P_insert.
  induction ids as [|id ids IH]; intros required_active rejected s e s' HP H;
    cbn [custom_erase_loop] in H.
  - by inversion H; subst.
  - destruct (get_custom id op rejected) as [viable r1].
    inv_bind H. apply custom_auths_loop_preserves in E; [|done].
    destruct r; eauto.
Qed.

Lemma operations_loop_preserves (ops : list operation) :
  forall required_active req rejected s e s',
    P s ->
    operations_loop pts_address address_of_key operation rejected_predicate_map
      operation_get_required_authorities get_active get_owner get_custom
      allow_non_immediate_owner ignore_custom_operation_required_auths
      max_recursion available_keys ops required_active req rejected s = Ok e s' ->
    P s'.
Proof using P_key P_address P_insert.
  induction ops as [|op ops IH]; intros required_active req rejected s e s' HP H;
    cbn [operations_loop] in H.
  - by inversion H; subst.
  - inv_bind H. apply custom_erase_loop_preserves in E; [|done]. eauto.
Qed.

Lemma other_loop_preserves (l : list authority) :
  forall s s',
    P s ->
    other_loop pts_address address_of_key get_active get_owner
      allow_non_immediate_owner max_recursion available_keys l s = Returns s' ->
    P s'.
Proof using P_key P_address P_insert.
  induction l as [|auth l IH]; intros s s' HP H; cbn [other_loop] in H.
  - by inversion H; subst.
  - destruct (check (Some auth) s) as [[|] s1|] eqn:E; [|done..].
    apply check_preserves in E; eauto.
Qed.

Lemma owner_loop_preserves (owner_approvals : gset account_id_type)
    (ids : list account_id_type) :
  forall s s',
    P s ->
    owner_loop pts_address address_of_key get_active get_owner
      allow_non_immediate_owner max_recursion available_keys owner_approvals ids s
    = Returns s' ->
    P s'.
Proof using P_key P_address P_insert.
  induction ids as [|id ids IH]; intros s s' HP H; cbn [owner_loop] in H.
  - by inversion H; subst.
  - case_decide as Hin; [eauto|].
    destruct (check (get_owner id) s) as [[|] s1|] eqn:E.
    + apply check_preserves in E; eauto.
    + by destruct (get_owner id).
    + done.
Qed.

Lemma active_loop_preserves (ids : list account_id_type) :
  forall s s',
    P s ->
    active_loop pts_address address_of_key get_active get_owner
      allow_non_immediate_owner max_recursion available_keys ids s = Returns s' ->
    P s'.
Proof using P_key P_address P_insert.
  induction ids as [|id ids IH]; intros s s' HP H; cbn [active_loop] in H.
  - by inversion H; subst.
  - destruct (check_account id s) as [[|] s1|] eqn:E; [| |done].
    + apply check_account_preserves in E; eauto.
    + apply check_account_preserves in E; [|done].
      destruct (check (get_owner id) s1) as [[|] s2|] eqn:E2.
      * apply check_preserves in E2; eauto.
      * by destruct (get_active id), (get_owner id).
      * done.
Qed.

End Preservation.

(** ** Irrelevant signatures *)

Section SignaturesKept.

Variable pts_address : public_key_type -> bool -> Z -> address.
Variable address_of_key : public_key_type -> address.
Variable sigs : gset public_key_type.

(** [verify_authority] gives its [sign_state] no available keys. *)
Lemma signed_by_key_keeps (k : public_key_type) (s : sign_state) (b : bool)
    (s' : sign_state) :
  signatures_kept sigs s -> signed_by_key ∅ k s = Ok b s' -> signatures_kept sigs s'.
Proof.
  intros [Hdom Htab]. unfold signed_by_key.
  destruct (provided_signatures s !! k) as [v|] eqn:E.
  - intros [= <- <-]. split; [|done].
    cbn. rewrite dom_insert_L, <- Hdom. apply elem_of_dom_2 in E.
    clear -E. set_solver.
  - rewrite decide_False by apply not_elem_of_empty.
    intros [= <- <-]. by split.
Qed.

Lemma ensure_address_sigs_keeps (s : sign_state) :
  signatures_kept sigs s ->
  signatures_kept sigs (ensure_address_sigs pts_address address_of_key ∅ s)
  /\ available_address_sigs (ensure_address_sigs pts_address address_of_key ∅ s)
     <> None.
Proof.
  intros Hs. pose proof Hs as [Hdom Htab]. unfold ensure_address_sigs.
  destruct (available_address_sigs s) eqn:E.
  - split; [done|]. by rewrite E.
  - split; [|done]. split; [done|]. cbn. intros _ provided a k Hp Ha.
    inversion Hp; subst provided.
    apply build_address_sigs_lookup in Ha as [Hk _].
    apply elem_of_in_order in Hk. by rewrite <- Hdom.
Qed.

Lemma signed_by_address_keeps (a : address) (s : sign_state) (b : bool)
    (s' : sign_state) :
  signatures_kept sigs s ->
  signed_by_address pts_address address_of_key ∅ a s = Ok b s' ->
  signatures_kept sigs s'.
Proof.
  intros Hs. unfold signed_by_address.
  destruct (ensure_address_sigs_keeps s Hs) as [Hkept Hbuilt].
  pose proof Hkept as [Hdom Htab].
  destruct (provided_address_sigs _) as [pr|] eqn:Ep; [|done].
  destruct (available_address_sigs _) as [av|] eqn:Ea; [|done].
  destruct (pr !! a) as [k|] eqn:Ek.
  - intros [= <- <-]. split.
    + cbn. rewrite dom_insert_L, Hdom.
      pose proof (Htab Hbuilt pr a k eq_refl Ek) as Hk. clear -Hk. set_solver.
    + cbn. rewrite Ea, Ep. intros _. by apply Htab.
  - destruct (av !! a); [|done].
    rewrite decide_False by apply not_elem_of_empty.
    intros [= <- <-]. split; [done|].
    rewrite Ea, Ep. intros _. by apply Htab.
Qed.

Lemma approved_by_insert_keeps (id : account_id_type) (s : sign_state) :
  signatures_kept sigs s -> signatures_kept sigs (set_approved (union {[id]}) s).
Proof. by intros [Hdom Htab]. Qed.

Lemma new_sign_state_keeps (temp : account_id_type) :
  signatures_kept sigs (new_sign_state temp sigs).
Proof. split; [apply new_sign_state_dom|done]. Qed.

End SignaturesKept.

Section IrrelevantSignature.

Variable pts_address : public_key_type -> bool -> Z -> address.
Variable address_of_key : public_key_type -> address.
Variables GRAPHENE_TEMP_ACCOUNT GRAPHENE_COMMITTEE_ACCOUNT : account_id_type.
Variable operation : Type.
Variable rejected_predicate_map : Type.
Variable no_rejections : rejected_predicate_map.
Variable operation_get_required_authorities :
  operation -> bool -> required -> required.
Variables get_active get_owner : account_id_type -> option authority.
Variable get_custom : custom_authority_lookup operation rejected_predicate_map.
Variables allow_non_immediate_owner ignore_custom_operation_required_auths : bool.
Variable max_recursion_depth : Z.

Local Abbreviation requirement_checks :=
  (requirement_checks pts_address address_of_key GRAPHENE_TEMP_ACCOUNT
     GRAPHENE_COMMITTEE_ACCOUNT operation rejected_predicate_map no_rejections
     operation_get_required_authorities get_active get_owner get_custom
     allow_non_immediate_owner ignore_custom_operation_required_auths
     max_recursion_depth).
Local Abbreviation verify_authority :=
  (verify_authority pts_address address_of_key GRAPHENE_TEMP_ACCOUNT
     GRAPHENE_COMMITTEE_ACCOUNT operation rejected_predicate_map no_rejections
     operation_get_required_authorities get_active get_owner get_custom
     allow_non_immediate_owner ignore_custom_operation_required_auths
     max_recursion_depth).

Lemma approvals_keep (sigs : gset public_key_type) (ids : list account_id_type) :
  forall s, signatures_kept sigs s ->
    signatures_kept sigs
      (fold_left (fun s' id => set_approved (union {[id]}) s') ids s).
Proof.
  induction ids as [|id ids IH]; intros s Hs; cbn [fold_left]; [done|].
  by apply IH, approved_by_insert_keeps.
Qed.

(** The state in which [remove_unused_signatures] is called has an entry
    for every signature key and for no other key. *)
Lemma requirement_checks_keep_signatures
    (ops : list operation) (sigs : gset public_key_type) (allow_committee : bool)
    (active_aprovals owner_approvals : gset account_id_type) (s : sign_state) :
  requirement_checks ops sigs allow_committee active_aprovals owner_approvals
    = Returns s ->
  dom (provided_signatures s) = sigs.
Proof.
  unfold requirement_checks. intros H.
  pose proof (signed_by_key_keeps sigs) as Hk.
  pose proof (signed_by_address_keeps pts_address address_of_key sigs) as Ha.
  pose proof (approved_by_insert_keeps sigs) as Hi.
  destruct (operations_loop _ _ _ _ _ _ _ _ _ _ _ _ _ _ _ _ _)
    as [[[required_active req] rejected] s1|] eqn:E1; [|done].
  eapply (operations_loop_preserves _ _ _ _ _ _ _ _ _ _ _ _ (signatures_kept sigs))
    in E1; [|done..|].
  2: { apply approvals_keep, approvals_keep, new_sign_state_keeps. }
  destruct (_ && _); [done|].
  destruct (other_loop _ _ _ _ _ _ _ _ _) as [s2| |] eqn:E2; [|done..].
  eapply (other_loop_preserves _ _ _ _ _ _ _ (signatures_kept sigs)) in E2;
    [|done..].
  destruct (owner_loop _ _ _ _ _ _ _ _ _ _) as [s3| |] eqn:E3; [|done..].
  eapply (owner_loop_preserves _ _ _ _ _ _ _ (signatures_kept sigs)) in E3;
    [|done..].
  eapply (active_loop_preserves _ _ _ _ _ _ _ (signatures_kept sigs)) in H;
    [|done..].
  by destruct H.
Qed.

(** C1.  When every requirement check of [verify_authority] passes and
    leaves the state [s], that state has one entry for each signature key.
    If the entry of some signature key is still unmarked, no call of
    [signed_by] having consumed the key, the function throws
    [tx_irrelevant_sig]; if the entry of every signature key is marked, it
    returns without an error. *)
Theorem verify_authority_irrelevant_sig
    (ops : list operation) (sigs : gset public_key_type) (allow_committee : bool)
    (active_aprovals owner_approvals : gset account_id_type) (s : sign_state) :
  requirement_checks ops sigs allow_committee active_aprovals owner_approvals
    = Returns s ->
  dom (provided_signatures s) = sigs
  /\ ((exists k, k ∈ sigs /\ provided_signatures s !! k = Some false) ->
        verify_authority ops sigs allow_committee active_aprovals owner_approvals
        = Throws tx_irrelevant_sig)
  /\ ((forall k, k ∈ sigs -> provided_signatures s !! k = Some true) ->
        verify_authority ops sigs allow_committee active_aprovals owner_approvals
        = Returns tt).
Proof.
  intros Hchecks.
  pose proof (requirement_checks_keep_signatures _ _ _ _ _ _ Hchecks) as Hdom.
  split; [done|]. unfold verify_authority. rewrite Hchecks. split; intros H.
  - assert ((remove_unused_signatures s).1 = true) as ->; [|done].
    apply remove_unused_signatures_true. destruct H as (k & _ & Hk). eauto.
  - assert ((remove_unused_signatures s).1 = false) as ->; [|done].
    apply remove_unused_signatures_false. intros k b Hk.
    assert (k ∈ sigs) as Hin by (rewrite <- Hdom; by apply elem_of_dom_2 in Hk).
    apply H in Hin. congruence.
Qed.

End IrrelevantSignature.

Lemma verify_authority_irrelevant_sig_witness :
  ex_verify_authority [requires_active 11%N] {[1%N; 2%N]} = Throws tx_irrelevant_sig
  /\ ex_verify_authority [requires_active 11%N] {[1%N]} = Returns tt.
Proof.
  split.
  - apply (verify_authority_irrelevant_sig ex_pts_address ex_address_of_key
             ex_temp_account ex_committee_account ex_operation unit tt
             ex_get_required ex_get_active ex_get_owner ex_get_custom false false 2
             [requires_active 11%N] {[1%N; 2%N]} false ∅ ∅
             (mark 1%N (new_sign_state ex_temp_account {[1%N; 2%N]}))).
    + vm_compute. reflexivity.
    + exists 2%N. split; [|vm_compute; reflexivity].
      apply elem_of_union_r. by apply elem_of_singleton.
  - apply (verify_authority_irrelevant_sig ex_pts_address ex_address_of_key
             ex_temp_account ex_committee_account ex_operation unit tt
             ex_get_required ex_get_active ex_get_owner ex_get_custom false false 2
             [requires_active 11%N] {[1%N]} false ∅ ∅
             (mark 1%N (new_sign_state ex_temp_account {[1%N]}))).
    + vm_compute. reflexivity.
    + intros k Hk. apply elem_of_singleton in Hk as ->. vm_compute. reflexivity.
Defined.

(** ** The five addresses of a key *)

Section FiveAddresses.

Variable pts_address : public_key_type -> bool -> Z -> address.
Variable address_of_key : public_key_type -> address.
Variable available_keys : gset public_key_type.

Local Abbreviation signed_by_address :=
  (signed_by_address pts_address address_of_key available_keys).
Local Abbreviation ensure_address_sigs :=
  (ensure_address_sigs pts_address address_of_key available_keys).
Local Abbreviation build_address_sigs := (build_address_sigs pts_address address_of_key).
Local Abbreviation derived_addresses := (derived_addresses pts_address address_of_key).
Local Abbreviation address_sigs_wf :=
  (address_sigs_wf pts_address address_of_key available_keys).

(** The four [pts_address] variants and the direct address of a key. *)
Local Abbreviation five_addresses k :=
  [ pts_address k false 56; pts_address k true 56;
    pts_address k false 0; pts_address k true 0; address_of_key k ].

Lemma derived_addresses_five (k : public_key_type) :
  derived_addresses k = five_addresses k.
Proof. reflexivity. Qed.

(** After the lazy construction the tables are built and well formed. *)
Lemma ensure_address_sigs_wf (s : sign_state) :
  address_sigs_wf s ->
  provided_signatures (ensure_address_sigs s) = provided_signatures s /\
  exists provided,
    available_address_sigs (ensure_address_sigs s)
      = Some (build_address_sigs (in_order available_keys)) /\
    provided_address_sigs (ensure_address_sigs s) = Some provided /\
    (forall a k, provided !! a = Some k ->
       (k ∈ dom (provided_signatures s) \/ k ∈ available_keys)
       /\ a ∈ derived_addresses k) /\
    (forall k a, k ∈ dom (provided_signatures s) -> k ∉ available_keys ->
       a ∈ derived_addresses k -> is_Some (provided !! a)).
Proof.
  unfold address_sigs_wf, ensure_address_sigs.
  destruct (available_address_sigs s) as [av|] eqn:E.
  - intros (-> & pr & Hp & H1 & H2). split; [done|]. exists pr. by rewrite E.
  - intros _. split; [done|]. eexists.
    cbn [available_address_sigs provided_address_sigs provided_signatures
         set_address_sigs].
    split; [done|]. split; [done|]. split.
    + intros a k H. apply build_address_sigs_lookup in H as [Hk Ha].
      split; [|exact Ha]. left. by apply elem_of_in_order in Hk.
    + intros k a Hk _ Ha. apply elem_of_dom, build_address_sigs_dom.
      exists k. split; [by apply elem_of_in_order|exact Ha].
Qed.

(** Marking a provided or available key keeps the tables well formed. *)
Lemma mark_wf (k : public_key_type) (s : sign_state) :
  k ∈ dom (provided_signatures s) \/ k ∈ available_keys ->
  address_sigs_wf s -> address_sigs_wf (mark k s).
Proof.
  intros Hk. unfold address_sigs_wf. cbn [mark set_provided available_address_sigs
    provided_address_sigs provided_signatures].
  destruct (available_address_sigs s) as [av|]; [|done].
  intros (-> & pr & Hp & H1 & H2). split; [done|]. exists pr. split; [done|].
  rewrite dom_insert_L. split.
  - intros a k' Ha. destruct (H1 a k' Ha) as [[Hd|Hav] Hder]; split; try done.
    + left. clear -Hd. set_solver.
    + by right.
  - intros k' a Hk' Hna Ha. apply elem_of_union in Hk' as [Hk'|Hk'].
    + apply elem_of_singleton in Hk' as ->.
      destruct Hk as [Hk|Hk]; [by apply (H2 k a)|done].
    + by apply (H2 k' a).
Qed.

Lemma signed_by_key_wf (k : public_key_type) (s : sign_state) (b : bool)
    (s' : sign_state) :
  address_sigs_wf s -> signed_by_key available_keys k s = Ok b s' ->
  address_sigs_wf s'.
Proof.
  intros Hwf. unfold signed_by_key.
  destruct (provided_signatures s !! k) as [v|] eqn:E.
  - intros [= <- <-]. apply mark_wf; [|done]. left. by apply elem_of_dom_2 in E.
  - case_decide as Hav; intros [= <- <-]; [|done]. apply mark_wf; [by right|done].
Qed.

(** What a call of [signed_by] on an address does on a well formed state. *)
Lemma signed_by_address_wf (a : address) (s : sign_state) :
  address_sigs_wf s ->
  (forall b s', signed_by_address a s = Ok b s' ->
     b = true /\ address_sigs_wf s' /\
     exists k, (k ∈ dom (provided_signatures s) \/ k ∈ available_keys)
               /\ a ∈ derived_addresses k
               /\ s' = mark k (ensure_address_sigs s))
  /\ ((exists k, (k ∈ dom (provided_signatures s) \/ k ∈ available_keys)
                 /\ a ∈ derived_addresses k) ->
      exists s', signed_by_address a s = Ok true s').
Proof.
  intros Hwf.
  destruct (ensure_address_sigs_wf s Hwf) as (Hsame & pr & Ha & Hp & H1 & H2).
  assert (address_sigs_wf (ensure_address_sigs s)) as Hwf1.
  { unfold address_sigs_wf. rewrite Ha. split; [done|]. exists pr.
    rewrite Hsame. split; [exact Hp|]. split; [exact H1|exact H2]. }
  assert (forall k, k ∈ dom (provided_signatures s) \/ k ∈ available_keys ->
            k ∈ dom (provided_signatures (ensure_address_sigs s))
            \/ k ∈ available_keys) as Hdom1 by (by rewrite Hsame).
  unfold signed_by_address. rewrite Hp, Ha.
  destruct (pr !! a) as [k|] eqn:Ek.
  - split; [|eauto]. intros b s' [= <- <-].
    destruct (H1 a k Ek) as [Hk Hder].
    split; [done|]. split; [by apply mark_wf; [apply Hdom1|]|]. by exists k.
  - destruct (build_address_sigs (in_order available_keys) !! a) as [k|] eqn:Eav.
    + apply build_address_sigs_lookup in Eav as [Hk Hder].
      apply elem_of_in_order in Hk. rewrite decide_True by done.
      split; [|eauto]. intros b s' [= <- <-].
      split; [done|]. split; [by apply mark_wf; [right|]|].
      exists k. by repeat split; [right|..].
    + split; [done|]. intros (k & Hk & Hder). exfalso.
      destruct (decide (k ∈ available_keys)) as [Hav|Hnav].
      * apply not_elem_of_dom in Eav. apply Eav, build_address_sigs_dom.
        exists k. split; [by apply elem_of_in_order|done].
      * destruct Hk as [Hk|Hk]; [|done].
        destruct (H2 k a Hk Hnav Hder) as [k' Hk']. congruence.
Qed.

(** C7, as the code has it.  The tables hold, for every key, the addresses
    of its five entries: the four [pts_address] variants and the direct
    address of the key.  On a state whose tables are well formed, as they
    are before and after their construction, [signed_by] on an address
    returns [true] exactly when the address is one of the five addresses of
    a provided or available key; it then marks such a key consumed. *)
Theorem signed_by_address_five_addresses (a : address) (s : sign_state) :
  address_sigs_wf s ->
  (forall keys : list public_key_type,
     a ∈ dom (build_address_sigs keys)
     <-> exists k, k ∈ keys /\ a ∈ five_addresses k)
  /\ ((exists s', signed_by_address a s = Ok true s')
      <-> exists k, (k ∈ dom (provided_signatures s) \/ k ∈ available_keys)
                    /\ a ∈ five_addresses k)
  /\ (forall s', signed_by_address a s = Ok true s' ->
        address_sigs_wf s' /\
        exists k, (k ∈ dom (provided_signatures s) \/ k ∈ available_keys)
                  /\ a ∈ five_addresses k
                  /\ s' = mark k (ensure_address_sigs s)).
Proof.
  intros Hwf. destruct (signed_by_address_wf a s Hwf) as [Hsound Hcomplete].
  split; [intros keys; apply build_address_sigs_dom|].
  split; [split|].
  - intros [s' H]. apply Hsound in H as (_ & _ & k & Hk & Ha & _). eauto.
  - exact Hcomplete.
  - intros s' H. by apply Hsound in H as (_ & Hwf' & Hk).
Qed.

End FiveAddresses.

Lemma signed_by_address_five_addresses_witness :
  exists s', signed_by_address ex_pts_address ex_address_of_key ∅ 73%N
               (new_sign_state ex_temp_account {[7%N]}) = Ok true s'.
Proof.
  apply (signed_by_address_five_addresses ex_pts_address ex_address_of_key ∅ 73%N
           (new_sign_state ex_temp_account {[7%N]})).
  - exact I.
  - exists 7%N. split.
    + left. vm_compute. reflexivity.
    + vm_compute. apply list_elem_of_In. simpl. tauto.
Defined.

(** C7 as stated fails: a key has five table entries, and the fifth, its
    direct address, is matched although it is none of the four
    [pts_address] variants. *)
Lemma address_tables_not_four :
  size (build_address_sigs ex_pts_address ex_address_of_key [7%N]) = 5%nat
  /\ (ex_address_of_key 7%N
        ∉ [ ex_pts_address 7%N false 56; ex_pts_address 7%N true 56;
            ex_pts_address 7%N false 0; ex_pts_address 7%N true 0 ])
  /\ signed_by_address ex_pts_address ex_address_of_key ∅ (ex_address_of_key 7%N)
       (new_sign_state ex_temp_account {[7%N]})
     = Ok true (mark 7%N (ensure_address_sigs ex_pts_address ex_address_of_key ∅
                            (new_sign_state ex_temp_account {[7%N]}))).
Proof.
  split; [by vm_compute|]. split; [|by vm_compute].
  intros H. apply list_elem_of_In in H. vm_compute in H. intuition discriminate.
Qed.

(** Well formed tables are an invariant of the object: the constructor
    establishes it and every check keeps it. *)
Lemma new_sign_state_wf (pts_address : public_key_type -> bool -> Z -> address)
    (address_of_key : public_key_type -> address)
    (available_keys sigs : gset public_key_type) (temp : account_id_type) :
  address_sigs_wf pts_address address_of_key available_keys
    (new_sign_state temp sigs).
Proof. exact I. Qed.

Lemma check_authority_wf (pts_address : public_key_type -> bool -> Z -> address)
    (address_of_key : public_key_type -> address)
    (get_active get_owner : account_id_type -> option authority)
    (allow_non_immediate_owner : bool) (max_recursion : Z)
    (available_keys : gset public_key_type)
    (au : option authority) (depth : Z) (s : sign_state) (b : bool)
    (s' : sign_state) :
  address_sigs_wf pts_address address_of_key available_keys s ->
  check_authority pts_address address_of_key get_active get_owner
    allow_non_immediate_owner max_recursion available_keys au depth s = Ok b s' ->
  address_sigs_wf pts_address address_of_key available_keys s'.
Proof.
  unfold check_authority.
  apply (check_authority_at_preserves pts_address address_of_key get_active
           get_owner allow_non_immediate_owner available_keys
           (address_sigs_wf pts_address address_of_key available_keys)).
  - intros k s0 b0 s0'. apply signed_by_key_wf.
  - intros a s0 b0 s0' Hwf H.
    by apply (signed_by_address_wf _ _ _ a s0 Hwf) in H as (_ & Hwf' & _).
  - intros id s0 Hwf. exact Hwf.
Qed.

(** ** End-to-end scenarios *)

(** One operation requires the active authority of account 11, which the
    key 1 satisfies: signing with the key 1 alone succeeds. *)
Example scenario_exactly_signed :
  ex_verify_authority [requires_active 11%N] {[1%N]} = Returns tt.
Proof. vm_compute. reflexivity. Qed.

(** The same, signed by the key 1 and by the unrelated key 2. *)
Example scenario_over_signed :
  ex_verify_authority [requires_active 11%N] {[1%N; 2%N]} = Throws tx_irrelevant_sig.
Proof. vm_compute. reflexivity. Qed.

(** Without a signature the active authority is missing. *)
Example scenario_unsigned :
  ex_verify_authority [requires_active 11%N] ∅ = Throws tx_missing_active_auth.
Proof. vm_compute. reflexivity. Qed.

(** Account 22 delegates to account 23, which the key 1 satisfies: the key
    1 alone satisfies the requirement of account 22. *)
Example scenario_one_delegation :
  ex_chain_verify_authority [requires_active 22%N] {[1%N]} ∅ = Returns tt.
Proof. vm_compute. reflexivity. Qed.

(** With the recursion bound 2 the key 1 is out of reach of an authority
    that delegates to account 21. *)
Example scenario_too_deep :
  ex_chain_check 2 (delegate_to 21%N) (new_sign_state ex_temp_account {[1%N]})
  = Ok false (new_sign_state ex_temp_account {[1%N]})
  /\ ex_chain_check 3 (delegate_to 21%N) (new_sign_state ex_temp_account {[1%N]})
     = Ok true
         (set_approved (union {[21%N]})
            (set_approved (union {[22%N]})
               (set_approved (union {[23%N]})
                  (mark 1%N (new_sign_state ex_temp_account {[1%N]}))))).
Proof. split; vm_compute; reflexivity. Qed.

(** An operation requires the owner authority of account 10 and the caller
    approves account 10 as owner: no signature is needed. *)
Example scenario_owner_approved :
  ex_chain_verify_authority [requires_owner 10%N] ∅ {[10%N]} = Returns tt
  /\ ex_chain_verify_authority [requires_owner 10%N] ∅ ∅
     = Throws tx_missing_owner_auth.
Proof. split; vm_compute; reflexivity. Qed.

(** The minimizer on account 11 with the keys 1 and 2 available keeps the
    key 1. *)
Example scenario_minimize :
  ex_minimize_required_signatures
    {| operations := [requires_active 11%N]; signatures := [] |} {[1%N; 2%N]}
  = Returns {[1%N]}.
Proof. vm_compute. reflexivity. Qed.

(** * Further properties of the code *)

(** ** transaction::validate *)

Section ValidateProperties.

Variable operation : Type.
Variable signature_type : Type.
Variable exception : Type.
Variable operation_validate : operation -> option exception.

Local Abbreviation validate := (validate operation exception operation_validate).
Local Abbreviation operations_validate_loop :=
  (operations_validate_loop operation exception operation_validate).
Local Abbreviation precomputable_validate :=
  (precomputable_validate operation signature_type exception operation_validate).

Lemma operations_validate_loop_ok (ops : list operation) :
  operations_validate_loop ops = Validated
  <-> Forall (fun op => operation_validate op = None) ops.
Proof.
  induction ops as [|op ops IH]; cbn [operations_validate_loop].
  - split; [constructor|done].
  - destruct (operation_validate op) as [e|] eqn:E.
    + split; [done|]. intros H. apply Forall_cons in H as [H _]. congruence.
    + rewrite IH. split; [by constructor|]. intros H. by apply Forall_cons in H as [_ H].
Qed.

Lemma operations_validate_loop_invalid (ops : list operation) (e : exception) :
  operations_validate_loop ops = Operation_invalid e
  <-> exists before op after,
        ops = before ++ op :: after
        /\ Forall (fun op' => operation_validate op' = None) before
        /\ operation_validate op = Some e.
Proof.
  induction ops as [|op ops IH]; cbn [operations_validate_loop].
  - split; [done|]. intros (before & op & after & H & _). by destruct before.
  - destruct (operation_validate op) as [e'|] eqn:E.
    + split.
      * intros [= ->]. exists [], op, ops. by repeat split.
      * intros (before & op' & after & H & Hb & He).
        destruct before as [|b before]; injection H as <- H.
        -- congruence.
        -- apply Forall_cons in Hb as [Hb _]. congruence.
    + rewrite IH. split.
      * intros (before & op' & after & -> & Hb & He).
        exists (op :: before), op', after. split; [done|]. split; [by constructor|done].
      * intros (before & op' & after & H & Hb & He).
        destruct before as [|b before]; injection H as <- H.
        -- congruence.
        -- apply Forall_cons in Hb as [_ Hb]. by exists before, op', after.
Qed.

Lemma operations_validate_loop_not_assert (ops : list operation) :
  operations_validate_loop ops <> Assert_failed.
Proof.
  induction ops as [|op ops IH]; cbn [operations_validate_loop]; [done|].
  by destruct (operation_validate op).
Qed.

(** X1.  [transaction::validate] returns exactly when the transaction has
    at least one operation and every operation validates.  It fails on its
    assertion exactly when there is no operation, and otherwise it throws
    the exception of the first operation that does not validate. *)
Theorem validate_outcomes (ops : list operation) :
  (validate ops = Validated
   <-> ops <> [] /\ Forall (fun op => operation_validate op = None) ops)
  /\ (validate ops = Assert_failed <-> ops = [])
  /\ (forall e, validate ops = Operation_invalid e
      <-> exists before op after,
            ops = before ++ op :: after
            /\ Forall (fun op' => operation_validate op' = None) before
            /\ operation_validate op = Some e).
Proof.
  unfold validate. destruct ops as [|op ops].
  - cbn. split; [|split].
    + split; [done|]. by intros [? _].
    + done.
    + intros e. split; [done|]. intros (before & ? & ? & H & _). by destruct before.
  - change (0 <? length (op :: ops))%nat with true. cbv iota. split; [|split].
    + rewrite operations_validate_loop_ok. split; [by intros H|by intros [_ H]].
    + split; [|done]. intros H. by apply operations_validate_loop_not_assert in H.
    + intros e. apply operations_validate_loop_invalid.
Qed.

(** X2.  After [precomputable_transaction::validate] has returned once,
    the object is marked validated and a later call returns without looking
    at the operations, whatever the object then holds as operations and
    signatures.  A call that throws leaves the object as it was, unmarked. *)
Theorem precomputable_validate_once
    (t t' : precomputable_transaction operation signature_type)
    (r : validation exception) :
  precomputable_validate t = (r, t') ->
  (r = Validated ->
     forall held : signed_transaction operation signature_type,
       let later := {| trx := held; _validated := _validated _ _ t';
                       _signees := _signees _ _ t' |} in
       precomputable_validate later = (Validated, later))
  /\ (r <> Validated -> t' = t /\ _validated _ _ t = false).
Proof.
  unfold precomputable_validate.
  destruct (_validated _ _ t) eqn:Hv.
  - intros [= <- <-]. split; [|done]. intros _ held. cbn. by rewrite Hv.
  - destruct (validate _) eqn:E; intros [= <- <-]; split; done.
Qed.

End ValidateProperties.

Lemma precomputable_validate_once_witness :
  let later : precomputable_transaction ex_operation public_key_type :=
    {| trx := {| operations := []; signatures := [] |};
       _validated := true; _signees := ∅ |} in
  precomputable_validate ex_operation public_key_type unit ex_operation_validate later
  = (Validated, later).
Proof.
  assert (precomputable_validate ex_operation public_key_type unit
            ex_operation_validate (ex_precomputable [requires_active 10%N] [])
          = (Validated,
             {| trx := {| operations := [requires_active 10%N]; signatures := [] |};
                _validated := true; _signees := ∅ |})) as Hfirst
    by (vm_compute; reflexivity).
  exact (proj1 (precomputable_validate_once ex_operation public_key_type unit
                  ex_operation_validate _ _ _ Hfirst) eq_refl
           {| operations := []; signatures := [] |}).
Defined.

(** ** Signature keys *)

Section SignatureKeys.

Variable operation : Type.
Variable signature_type : Type.
Variable chain_id_type : Type.
Variable signee :
  chain_id_type -> signed_transaction operation signature_type -> signature_type ->
  public_key_type.

Local Abbreviation signature_keys_loop :=
  (signature_keys_loop operation signature_type chain_id_type signee).
Local Abbreviation get_signature_keys :=
  (get_signature_keys operation signature_type chain_id_type signee).
Local Abbreviation store_signature_keys :=
  (store_signature_keys operation signature_type chain_id_type signee).
Local Abbreviation precomputable_get_signature_keys :=
  (precomputable_get_signature_keys operation signature_type chain_id_type signee).

(** The keys the signatures recover to, in the order of the signatures. *)
Local Abbreviation recovered chain_id t :=
  (map (signee chain_id t) (signatures operation signature_type t)).

Lemma signature_keys_loop_spec (chain_id : chain_id_type)
    (t : signed_transaction operation signature_type) (sigs : list signature_type) :
  forall result : gset public_key_type,
    signature_keys_loop chain_id t sigs result
    = if decide (NoDup (map (signee chain_id t) sigs)
                 /\ Forall (fun k => k ∉ result) (map (signee chain_id t) sigs))
      then Returns (list_to_set (map (signee chain_id t) sigs) ∪ result)
      else Throws tx_duplicate_sig.
Proof.
  induction sigs as [|sig sigs IH]; intros result; cbn [signature_keys_loop map].
  - rewrite decide_True by (split; constructor).
    f_equal. cbn. clear. set_solver.
  - case_decide as Hin.
    + rewrite decide_False; [done|]. intros [_ H].
      by apply Forall_cons in H as [H _].
    + rewrite IH. case_decide as Hrest.
      * destruct Hrest as [Hnd Hfresh]. rewrite Forall_forall in Hfresh.
        rewrite decide_True.
        -- f_equal. cbn. clear. set_solver.
        -- split.
           ++ constructor; [|done]. intros Hdup. apply (Hfresh _ Hdup).
              clear. set_solver.
           ++ constructor; [done|]. apply Forall_forall. intros k Hk Hr.
              apply (Hfresh k Hk). clear -Hr. set_solver.
      * rewrite decide_False; [done|]. intros [Hnd Hfresh]. apply Hrest.
        apply NoDup_cons in Hnd as [Hnotin Hnd].
        apply Forall_cons in Hfresh as [_ Hfresh]. rewrite Forall_forall in Hfresh.
        split; [done|]. apply Forall_forall.
        intros k Hk Hr. apply elem_of_union in Hr as [Hr|Hr].
        -- apply elem_of_singleton in Hr as ->. done.
        -- by apply (Hfresh k).
Qed.

Lemma get_signature_keys_spec (chain_id : chain_id_type)
    (t : signed_transaction operation signature_type) :
  get_signature_keys chain_id t
  = if decide (NoDup (recovered chain_id t))
    then Returns (list_to_set (recovered chain_id t))
    else Throws tx_duplicate_sig.
Proof.
  unfold get_signature_keys. rewrite signature_keys_loop_spec.
  case_decide as H.
  - rewrite decide_True by apply H. f_equal. clear. set_solver.
  - rewrite decide_False; [done|]. intros Hnd. apply H. split; [done|].
    apply Forall_forall. intros k _. apply not_elem_of_empty.
Qed.

(** X3.  [signed_transaction::get_signature_keys] returns the set of the
    keys the signatures recover to, one key for each signature, when these
    keys are pairwise distinct, and throws [tx_duplicate_sig] when two
    signatures recover to the same key. *)
Theorem get_signature_keys_distinct (chain_id : chain_id_type)
    (t : signed_transaction operation signature_type) :
  (NoDup (recovered chain_id t) ->
     get_signature_keys chain_id t = Returns (list_to_set (recovered chain_id t))
     /\ size (list_to_set (recovered chain_id t) : gset public_key_type)
        = length (signatures _ _ t))
  /\ (~ NoDup (recovered chain_id t) ->
        get_signature_keys chain_id t = Throws tx_duplicate_sig).
Proof.
  rewrite get_signature_keys_spec. split; intros H.
  - rewrite decide_True by done. split; [done|].
    rewrite size_list_to_set by done. apply length_map.
  - by rewrite decide_False.
Qed.

(** X4.  Once [precomputable_transaction::get_signature_keys] has returned
    a key set that is not empty, every later call returns that set and
    leaves the object as it is, for any chain id, also one under which the
    signatures recover to other keys. *)
Theorem precomputable_get_signature_keys_cached (chain_id : chain_id_type)
    (t t' : precomputable_transaction operation signature_type)
    (keys : gset public_key_type) :
  precomputable_get_signature_keys chain_id t = (Returns keys, t') ->
  keys <> ∅ ->
  forall chain_id', precomputable_get_signature_keys chain_id' t' = (Returns keys, t').
Proof.
  unfold precomputable_get_signature_keys, store_signature_keys.
  intros H Hne chain_id'.
  assert (_signees _ _ t' = keys) as Hkeys.
  { case_decide as He.
    - destruct (get_signature_keys chain_id (trx _ _ t)); by inversion H.
    - by inversion H. }
  rewrite decide_False; [by rewrite Hkeys|]. by rewrite Hkeys.
Qed.

End SignatureKeys.

Lemma precomputable_get_signature_keys_cached_witness :
  let t' : precomputable_transaction ex_operation public_key_type :=
    {| trx := {| operations := [requires_active 10%N]; signatures := [5%N; 6%N] |};
       _validated := false; _signees := {[5%N; 6%N]} |} in
  precomputable_get_signature_keys ex_operation public_key_type N ex_chain_signee
    1%N t' = (Returns {[5%N; 6%N]}, t')
  /\ get_signature_keys ex_operation public_key_type N ex_chain_signee 1%N
       (trx _ _ t') = Returns {[6%N; 7%N]}.
Proof.
  cbv zeta. split; [|vm_compute; reflexivity].
  apply (precomputable_get_signature_keys_cached ex_operation public_key_type N
           ex_chain_signee 0%N
           (ex_precomputable [requires_active 10%N] [5%N; 6%N])).
  - vm_compute. reflexivity.
  - intros H. apply (f_equal size) in H. vm_compute in H. discriminate.
Defined.

(** ** The member function verify_authority *)

Section SignedVerifyProperties.

Variable pts_address : public_key_type -> bool -> Z -> address.
Variable address_of_key : public_key_type -> address.
Variables GRAPHENE_TEMP_ACCOUNT GRAPHENE_COMMITTEE_ACCOUNT : account_id_type.
Variable operation : Type.
Variable signature_type : Type.
Variable chain_id_type : Type.
Variable rejected_predicate_map : Type.
Variable no_rejections : rejected_predicate_map.
Variable operation_get_required_authorities :
  operation -> bool -> required -> required.
Variable signee :
  chain_id_type -> signed_transaction operation signature_type -> signature_type ->
  public_key_type.
Variables get_active get_owner : account_id_type -> option authority.
Variable get_custom : custom_authority_lookup operation rejected_predicate_map.
Variables allow_non_immediate_owner ignore_custom_operation_required_auths : bool.
Variable max_recursion : Z.
Variable default_allow_committee : bool.
Variables default_active_aprovals default_owner_approvals : gset account_id_type.

Local Abbreviation signed_transaction_verify_authority :=
  (signed_transaction_verify_authority pts_address address_of_key
     GRAPHENE_TEMP_ACCOUNT GRAPHENE_COMMITTEE_ACCOUNT operation signature_type
     chain_id_type rejected_predicate_map no_rejections
     operation_get_required_authorities signee get_active get_owner get_custom
     allow_non_immediate_owner ignore_custom_operation_required_auths max_recursion
     default_allow_committee default_active_aprovals default_owner_approvals).
Local Abbreviation verify_authority :=
  (verify_authority pts_address address_of_key GRAPHENE_TEMP_ACCOUNT
     GRAPHENE_COMMITTEE_ACCOUNT operation rejected_predicate_map no_rejections
     operation_get_required_authorities get_active get_owner get_custom
     allow_non_immediate_owner ignore_custom_operation_required_auths max_recursion).
Local Abbreviation recovered chain_id t :=
  (map (signee chain_id t) (signatures operation signature_type t)).

(** X5.  [signed_transaction::verify_authority] throws [tx_duplicate_sig]
    when two signatures recover to the same key, whatever the operations
    require and whatever the accessors answer.  Otherwise its outcome is the
    outcome of the free function on the set of recovered keys. *)
Theorem signed_transaction_verify_authority_keys (chain_id : chain_id_type)
    (t : signed_transaction operation signature_type) :
  (~ NoDup (recovered chain_id t) ->
     signed_transaction_verify_authority chain_id t = Throws tx_duplicate_sig)
  /\ (NoDup (recovered chain_id t) ->
        signed_transaction_verify_authority chain_id t
        = verify_authority (operations _ _ t) (list_to_set (recovered chain_id t))
            default_allow_committee default_active_aprovals
            default_owner_approvals).
Proof.
  unfold signed_transaction_verify_authority. rewrite get_signature_keys_spec.
  split; intros H.
  - by rewrite decide_False.
  - by rewrite decide_True.
Qed.

End SignedVerifyProperties.

(** ** remove_unused_signatures *)

Lemma fold_delete_lookup (l : list public_key_type)
    (m : gmap public_key_type bool) (k : public_key_type) :
  fold_left (fun m' sig => delete sig m') l m !! k
  = if decide (k ∈ l) then None else m !! k.
Proof.
  revert m. induction l as [|x l IH]; intros m; cbn [fold_left].
  - case_decide as H; [by apply elem_of_nil in H|done].
  - rewrite IH. destruct (decide (k ∈ l)) as [Hin|Hin].
    + rewrite decide_True; [done|]. by constructor.
    + destruct (decide (k = x)) as [->|Hne].
      * rewrite decide_True by constructor. apply lookup_delete_eq.
      * rewrite decide_False.
        -- by rewrite lookup_delete_ne.
        -- intros H. apply elem_of_cons in H as [?|?]; done.
Qed.

Lemma remove_unused_signatures_lookup (s : sign_state) (k : public_key_type) :
  provided_signatures (remove_unused_signatures s).2 !! k
  = if consumed s k then Some true else None.
Proof.
  unfold remove_unused_signatures, consumed. cbn [snd set_provided provided_signatures].
  rewrite fold_delete_lookup. case_decide as Hin.
  - apply elem_of_remove_sigs in Hin. rewrite bool_decide_eq_false_2; [done|]. congruence.
  - rewrite elem_of_remove_sigs in Hin.
    by destruct (provided_signatures s !! k) as [[|]|] eqn:E.
Qed.

(** X6.  [remove_unused_signatures] keeps exactly the entries that are
    marked consumed, reports whether it erased an entry, and leaves the
    approved accounts as they are; a second call erases nothing, reports
    [false] and leaves the state as it is. *)
Theorem remove_unused_signatures_twice (s : sign_state) :
  let s1 := (remove_unused_signatures s).2 in
  (forall k, provided_signatures s1 !! k = if consumed s k then Some true else None)
  /\ ((remove_unused_signatures s).1 = true
      <-> exists k, provided_signatures s !! k = Some false)
  /\ approved_by s1 = approved_by s
  /\ remove_unused_signatures s1 = (false, s1).
Proof.
  cbv zeta. split; [apply remove_unused_signatures_lookup|].
  split; [apply remove_unused_signatures_true|]. split; [done|].
  assert (remove_sigs (remove_unused_signatures s).2 = []) as Hnone.
  { destruct (remove_sigs _) as [|k l] eqn:E; [done|].
    assert (k ∈ remove_sigs (remove_unused_signatures s).2) as Hk
      by (rewrite E; constructor).
    apply elem_of_remove_sigs in Hk. rewrite remove_unused_signatures_lookup in Hk.
    by destruct (consumed s k). }
  unfold remove_unused_signatures at 1. rewrite Hnone. cbn [length fold_left].
  by destruct (remove_unused_signatures s).2.
Qed.

(** ** What a check does to provided_signatures *)

Lemma marks_kept_refl (s : sign_state) : marks_kept s s.
Proof. intros k v H. eauto. Qed.

Lemma marks_kept_trans (s1 s2 s3 : sign_state) :
  marks_kept s1 s2 -> marks_kept s2 s3 -> marks_kept s1 s3.
Proof.
  intros H12 H23 k v H. apply H12 in H as (v2 & H2 & Hv2).
  apply H23 in H2 as (v3 & H3 & Hv3). eauto.
Qed.

Lemma marks_kept_mark (k : public_key_type) (s : sign_state) :
  marks_kept s (mark k s).
Proof.
  intros k' v H. cbn. destruct (decide (k = k')) as [->|Hne].
  - rewrite lookup_insert_eq. eauto.
  - rewrite lookup_insert_ne by done. eauto.
Qed.

Lemma marks_kept_same (s s' : sign_state) :
  provided_signatures s' = provided_signatures s -> marks_kept s s'.
Proof. intros Heq k v H. rewrite Heq. eauto. Qed.

Section ProvidedSignatures.

Variable pts_address : public_key_type -> bool -> Z -> address.
Variable address_of_key : public_key_type -> address.
Variables get_active get_owner : account_id_type -> option authority.
Variable allow_non_immediate_owner : bool.
Variable max_recursion : Z.
Variable available_keys : gset public_key_type.

Local Abbreviation check_authority :=
  (check_authority pts_address address_of_key get_active get_owner
     allow_non_immediate_owner max_recursion available_keys).
Local Abbreviation check_authority_at :=
  (check_authority_at pts_address address_of_key get_active get_owner
     allow_non_immediate_owner available_keys).
Local Abbreviation check_authority_account :=
  (check_authority_account pts_address address_of_key get_active get_owner
     allow_non_immediate_owner max_recursion available_keys).
Local Abbreviation signed_by_address :=
  (signed_by_address pts_address address_of_key available_keys).
Local Abbreviation ensure_address_sigs :=
  (ensure_address_sigs pts_address address_of_key available_keys).
Local Abbreviation address_sigs_wf :=
  (address_sigs_wf pts_address address_of_key available_keys).

Lemma ensure_address_sigs_provided (s : sign_state) :
  provided_signatures (ensure_address_sigs s) = provided_signatures s.
Proof. unfold ensure_address_sigs. by destruct (available_address_sigs s). Qed.

Lemma signed_by_key_marks (k : public_key_type) (s : sign_state) (b : bool)
    (s' : sign_state) :
  signed_by_key available_keys k s = Ok b s' ->
  marks_kept s s' /\ (b = true -> consumed s' k = true).
Proof.
  unfold signed_by_key, consumed.
  destruct (provided_signatures s !! k); [|case_decide]; intros [= <- <-];
    (split; [first [apply marks_kept_mark | apply marks_kept_refl]|]); try done;
    intros _; apply bool_decide_eq_true_2; cbn; apply lookup_insert_eq.
Qed.

Lemma signed_by_address_marks (a : address) (s : sign_state) (b : bool)
    (s' : sign_state) :
  signed_by_address a s = Ok b s' -> marks_kept s s'.
Proof.
  unfold signed_by_address.
  pose proof (marks_kept_same s (ensure_address_sigs s)
                (ensure_address_sigs_provided s)) as Hens.
  destruct (provided_address_sigs _) as [pr|]; [|done].
  destruct (available_address_sigs _) as [av|]; [|done].
  destruct (pr !! a) as [k|].
  - intros [= <- <-]. eapply marks_kept_trans; [exact Hens|apply marks_kept_mark].
  - destruct (av !! a) as [k|]; [|done].
    case_decide; intros [= <- <-]; [|done].
    eapply marks_kept_trans; [exact Hens|apply marks_kept_mark].
Qed.

Lemma check_authority_at_marks (n : nat) (au : option authority) (s : sign_state)
    (b : bool) (s' : sign_state) :
  check_authority_at n au s = Ok b s' -> marks_kept s s'.
Proof.
  apply (check_authority_at_preserves pts_address address_of_key get_active
           get_owner allow_non_immediate_owner available_keys (marks_kept s)).
  - intros k s0 b0 s0' H0 H. apply signed_by_key_marks in H as [H _].
    by eapply marks_kept_trans.
  - intros a s0 b0 s0' H0 H. apply signed_by_address_marks in H.
    by eapply marks_kept_trans.
  - intros id s0 H0. exact H0.
  - apply marks_kept_refl.
Qed.

(** X7.  A call of [check_authority], whether it returns [true] or
    [false], erases no entry of [provided_signatures] and leaves every
    consumed key consumed. *)
Theorem check_authority_keeps_marks (au : option authority) (depth : Z)
    (s : sign_state) (b : bool) (s' : sign_state) :
  check_authority au depth s = Ok b s' -> marks_kept s s'.
Proof. unfold check_authority. apply check_authority_at_marks. Qed.

(** The keys of [s'] are keys of [s] or available keys marked consumed. *)
Local Abbreviation only_available_added s s' :=
  (forall k, k ∈ dom (provided_signatures s') ->
     k ∈ dom (provided_signatures s)
     \/ (k ∈ available_keys /\ provided_signatures s' !! k = Some true)).

Lemma mark_only_available (s s1 : sign_state) (k : public_key_type) :
  only_available_added s s1 ->
  k ∈ dom (provided_signatures s1) \/ k ∈ available_keys ->
  only_available_added s (mark k s1).
Proof.
  intros H1 Hk k' Hk'. cbn in Hk'. rewrite dom_insert_L in Hk'. cbn.
  destruct (decide (k = k')) as [<-|Hne].
  - rewrite lookup_insert_eq. destruct Hk as [Hk|Hk]; [|by right].
    destruct (H1 k Hk) as [?|[? _]]; [by left|by right].
  - rewrite lookup_insert_ne by done. apply H1. clear -Hk' Hne. set_solver.
Qed.

Lemma check_authority_at_only_available (n : nat) (au : option authority)
    (s : sign_state) (b : bool) (s' : sign_state) :
  address_sigs_wf s ->
  check_authority_at n au s = Ok b s' ->
  address_sigs_wf s' /\ only_available_added s s'.
Proof.
  intros Hwf.
  apply (check_authority_at_preserves pts_address address_of_key get_active
           get_owner allow_non_immediate_owner available_keys
           (fun s1 => address_sigs_wf s1 /\ only_available_added s s1)).
  - intros k s0 b0 s0' [Hwf0 H0] H. split; [by eapply signed_by_key_wf|].
    revert H. unfold signed_by_key.
    destruct (provided_signatures s0 !! k) eqn:E; [|case_decide];
      intros [= <- <-]; try done; apply mark_only_available; try done.
    + left. by apply elem_of_dom_2 in E.
    + by right.
  - intros a s0 b0 s0' [Hwf0 H0] H.
    apply (signed_by_address_wf _ _ _ a s0 Hwf0) in H
      as (_ & Hwf' & k & Hk & _ & ->).
    split; [done|]. apply mark_only_available.
    + intros k' Hk'. rewrite ensure_address_sigs_provided in Hk' |- *.
      by apply H0.
    + by rewrite ensure_address_sigs_provided.
  - intros id s0 H0. exact H0.
  - split; [done|]. intros k Hk. by left.
Qed.


End ProvidedSignatures.

(** ** A successful check has the weight it needs *)

Lemma weight_where_cons {A} (f : A -> bool) (e : A * Z) (l : list (A * Z)) :
  weight_where f (e :: l) = (if f e.1 then e.2 else 0) + weight_where f l.
Proof. reflexivity. Qed.

Lemma sum_weights_cons {A} (e : A * Z) (l : list (A * Z)) :
  sum_weights (e :: l) = e.2 + sum_weights l.
Proof. reflexivity. Qed.

Lemma weight_where_nonneg {A} (f : A -> bool) (l : list (A * Z)) :
  Forall (fun e => weight_ok e.2) l -> 0 <= weight_where f l.
Proof.
  induction 1 as [|e l He _ IH]; [done|]. rewrite weight_where_cons.
  unfold weight_ok in He. destruct (f e.1); lia.
Qed.

Lemma weight_where_le_sum {A} (f : A -> bool) (l : list (A * Z)) :
  Forall (fun e => weight_ok e.2) l -> weight_where f l <= sum_weights l.
Proof.
  induction 1 as [|e l He _ IH]; [done|].
  rewrite weight_where_cons, sum_weights_cons.
  unfold weight_ok in He. destruct (f e.1); lia.
Qed.

Lemma weight_where_mono {A} (f g : A -> bool) (l : list (A * Z)) :
  (forall x, f x = true -> g x = true) ->
  Forall (fun e => weight_ok e.2) l -> weight_where f l <= weight_where g l.
Proof.
  intros Hfg. induction 1 as [|e l He _ IH]; [done|].
  rewrite !weight_where_cons. unfold weight_ok in He.
  destruct (f e.1) eqn:E; [rewrite (Hfg _ E); lia|]. destruct (g e.1); lia.
Qed.

Section Soundness.

Variable pts_address : public_key_type -> bool -> Z -> address.
Variable address_of_key : public_key_type -> address.
Variables get_active get_owner : account_id_type -> option authority.
Variable allow_non_immediate_owner : bool.
Variable max_recursion : Z.
Variable available_keys : gset public_key_type.

Local Abbreviation check_authority :=
  (check_authority pts_address address_of_key get_active get_owner
     allow_non_immediate_owner max_recursion available_keys).
Local Abbreviation check_authority_at :=
  (check_authority_at pts_address address_of_key get_active get_owner
     allow_non_immediate_owner available_keys).
Local Abbreviation signed_by_address :=
  (signed_by_address pts_address address_of_key available_keys).
Local Abbreviation ensure_address_sigs :=
  (ensure_address_sigs pts_address address_of_key available_keys).
Local Abbreviation address_sigs_wf :=
  (address_sigs_wf pts_address address_of_key available_keys).
Local Abbreviation address_consumed := (address_consumed pts_address address_of_key).
Local Abbreviation derived_addresses := (derived_addresses pts_address address_of_key).
Local Abbreviation satisfied_weight := (satisfied_weight pts_address address_of_key).

(** From [s] to [s']: marks and approvals are kept. *)
Local Abbreviation grown s s' :=
  (marks_kept s s' /\ approved_by s ⊆ approved_by s').

Lemma grown_trans (s1 s2 s3 : sign_state) :
  grown s1 s2 -> grown s2 s3 -> grown s1 s3.
Proof.
  intros [Hm1 Ha1] [Hm2 Ha2]. split; [by eapply marks_kept_trans|].
  clear -Ha1 Ha2. set_solver.
Qed.

Lemma consumed_grown (s s' : sign_state) (k : public_key_type) :
  marks_kept s s' -> consumed s k = true -> consumed s' k = true.
Proof.
  unfold consumed. intros Hm H. apply bool_decide_eq_true_1 in H.
  apply Hm in H as (v' & H & Hv). apply bool_decide_eq_true_2.
  by rewrite H, Hv.
Qed.

Lemma address_consumed_true (s : sign_state) (a : address) :
  address_consumed s a = true
  <-> exists k, provided_signatures s !! k = Some true /\ a ∈ derived_addresses k.
Proof.
  unfold address_consumed, consumed. rewrite existsb_exists. split.
  - intros (k & _ & Hk). apply andb_true_iff in Hk as [H1 H2].
    apply bool_decide_eq_true_1 in H1, H2. eauto.
  - intros (k & H1 & H2). exists k. split.
    + apply list_elem_of_In, elem_of_in_order. by apply elem_of_dom_2 in H1.
    + apply andb_true_iff. split; by apply bool_decide_eq_true_2.
Qed.

Lemma address_consumed_grown (s s' : sign_state) (a : address) :
  marks_kept s s' -> address_consumed s a = true -> address_consumed s' a = true.
Proof.
  rewrite !address_consumed_true. intros Hm (k & Hk & Ha).
  apply Hm in Hk as (v' & Hk & Hv). exists k. by rewrite Hk, Hv.
Qed.

Lemma approved_grown (s s' : sign_state) (id : account_id_type) :
  approved_by s ⊆ approved_by s' -> approved s id = true -> approved s' id = true.
Proof.
  unfold approved. intros Hsub H. apply bool_decide_eq_true_1 in H.
  apply bool_decide_eq_true_2. by apply Hsub.
Qed.

(** The first two loops: the total they reach is weight of entries that
    count in the state they leave. *)
Lemma signed_loop_sound {A} (signed_by : A -> sign_state -> result bool)
    (sat : sign_state -> A -> bool) (threshold : Z) (l : list (A * Z)) :
  (forall k s b s', address_sigs_wf s -> signed_by k s = Ok b s' ->
     address_sigs_wf s' /\ grown s s' /\ (b = true -> sat s' k = true)) ->
  (forall k s s', grown s s' -> sat s k = true -> sat s' k = true) ->
  Forall (fun e => weight_ok e.2) l ->
  forall total s e s',
    address_sigs_wf s -> 0 <= total -> total + sum_weights l < u32_modulus ->
    signed_loop signed_by threshold l total s = Ok e s' ->
    address_sigs_wf s' /\ grown s s' /\
    exists t, total <= t <= total + weight_where (sat s') l /\
              match e with
              | Returned_true => threshold <= t
              | Fell_through t' => t' = t
              end.
Proof.
  intros Hstep Hmono. induction 1 as [|k l Hk Hl IH];
    intros total s e s' Hwf H0 Hwrap H; cbn [signed_loop] in H.
  - injection H as <- <-. split; [done|]. split; [split; [apply marks_kept_refl|done]|].
    exists total. cbn. split; [lia|done].
  - rewrite sum_weights_cons in Hwrap. pose proof (sum_weights_nonneg l Hl) as Hn.
    pose proof Hk as Hk'. unfold weight_ok in Hk'.
    inv_bind H. apply Hstep in E as (Hwf1 & Hg1 & Hsat); [|done].
    destruct r.
    + rewrite u32_small in H by lia.
      destruct (threshold <=? total + k.2) eqn:Eth.
      * injection H as <- <-. split; [done|]. split; [done|].
        exists (total + k.2). apply Z.leb_le in Eth. split; [|done].
        rewrite weight_where_cons, Hsat by done.
        pose proof (weight_where_nonneg (sat s0) l Hl). lia.
      * apply IH in H as (Hwf' & Hg' & t & Ht & He); [|done|lia..].
        split; [done|]. split; [by eapply grown_trans|].
        exists t. split; [|done]. rewrite weight_where_cons.
        rewrite (Hmono k.1 s0 s' Hg') by auto. lia.
    + apply IH in H as (Hwf' & Hg' & t & Ht & He); [|done|lia..].
      split; [done|]. split; [by eapply grown_trans|].
      exists t. split; [|done]. rewrite weight_where_cons.
      destruct (sat s' k.1); lia.
Qed.

(** The third loop. *)
Lemma account_auths_loop_sound deeper (threshold : Z)
    (l : list (account_id_type * Z)) :
  (forall chk, deeper = Some chk ->
     forall a s b s', address_sigs_wf s -> chk a s = Ok b s' ->
       address_sigs_wf s' /\ grown s s') ->
  Forall (fun e => weight_ok e.2) l ->
  forall total s e s',
    address_sigs_wf s -> 0 <= total -> total + sum_weights l < u32_modulus ->
    account_auths_loop deeper threshold l total s = Ok e s' ->
    address_sigs_wf s' /\ grown s s' /\
    exists t, total <= t <= total + weight_where (approved s') l /\
              match e with
              | Returned_true => threshold <= t
              | Fell_through t' => t' = t
              end.
Proof.
  intros Hd. induction 1 as [|a l Ha Hl IH];
    intros total s e s' Hwf H0 Hwrap H; cbn [account_auths_loop] in H.
  - injection H as <- <-. split; [done|]. split; [split; [apply marks_kept_refl|done]|].
    exists total. cbn. split; [lia|done].
  - rewrite sum_weights_cons in Hwrap. pose proof (sum_weights_nonneg l Hl) as Hn.
    pose proof Ha as Ha'. unfold weight_ok in Ha'.
    rewrite u32_small in H by lia.
    (* the entry counts: the rest of the loop from [total + a.2] in [s0] *)
    assert (forall s0, address_sigs_wf s0 -> grown s s0 -> approved s0 a.1 = true ->
              (if threshold <=? total + a.2 then Ok Returned_true s0
               else account_auths_loop deeper threshold l (total + a.2) s0) = Ok e s' ->
              address_sigs_wf s' /\ grown s s' /\
              exists t, total <= t <= total + weight_where (approved s') (a :: l) /\
                        match e with
                        | Returned_true => threshold <= t
                        | Fell_through t' => t' = t
                        end) as Hcount.
    { intros s0 Hwf0 Hg0 Hap Hrest.
      destruct (threshold <=? total + a.2) eqn:Eth.
      - injection Hrest as <- <-. split; [done|]. split; [done|].
        exists (total + a.2). apply Z.leb_le in Eth. split; [|done].
        rewrite weight_where_cons, Hap.
        pose proof (weight_where_nonneg (approved s0) l Hl). lia.
      - apply IH in Hrest as (Hwf' & Hg' & t & Ht & He); [|done|lia..].
        split; [done|]. split; [by eapply grown_trans|].
        exists t. split; [|done]. rewrite weight_where_cons.
        rewrite (approved_grown s0 s' a.1 (proj2 Hg') Hap). lia. }
    (* the entry does not count: the rest of the loop from [total] in [s0] *)
    assert (forall s0, address_sigs_wf s0 -> grown s s0 ->
              account_auths_loop deeper threshold l total s0 = Ok e s' ->
              address_sigs_wf s' /\ grown s s' /\
              exists t, total <= t <= total + weight_where (approved s') (a :: l) /\
                        match e with
                        | Returned_true => threshold <= t
                        | Fell_through t' => t' = t
                        end) as Hskip.
    { intros s0 Hwf0 Hg0 Hrest.
      apply IH in Hrest as (Hwf' & Hg' & t & Ht & He); [|done|lia..].
      split; [done|]. split; [by eapply grown_trans|].
      exists t. split; [|done]. rewrite weight_where_cons.
      destruct (approved s' a.1); lia. }
    assert (grown s s) as Hrefl by (split; [apply marks_kept_refl|done]).
    case_decide as Hin.
    + apply (Hcount s); try done. by apply bool_decide_eq_true_2.
    + destruct deeper as [chk|]; [|by apply (Hskip s)].
      inv_bind H. apply (Hd chk eq_refl) in E as [Hwf1 Hg1]; [|done].
      destruct r; [|by apply (Hskip s0)].
      apply (Hcount (set_approved (union {[a.1]}) s0)); try done.
      * destruct Hg1 as [Hm1 Ha1]. split; [exact Hm1|].
        cbn. clear -Ha1. set_solver.
      * apply bool_decide_eq_true_2. cbn. clear. set_solver.
Qed.

Lemma check_authority_at_grown (n : nat) (au : option authority) (s : sign_state)
    (b : bool) (s' : sign_state) :
  address_sigs_wf s -> check_authority_at n au s = Ok b s' ->
  address_sigs_wf s' /\ grown s s'.
Proof.
  intros Hwf H. split; [|split].
  - by apply (check_authority_at_only_available _ _ _ _ _ _ _ _ _ _ _ Hwf) in H as [? _].
  - by eapply check_authority_at_marks.
  - by eapply check_authority_at_approved.
Qed.

Lemma active_or_owner_grown (n : nat) (id : account_id_type) (s : sign_state)
    (b : bool) (s' : sign_state) :
  address_sigs_wf s ->
  active_or_owner get_active get_owner allow_non_immediate_owner
    (check_authority_at n) id s = Ok b s' ->
  address_sigs_wf s' /\ grown s s'.
Proof.
  intros Hwf H.
  assert (forall au s1 b1 s1', address_sigs_wf s1 ->
            check_authority_at n au s1 = Ok b1 s1' ->
            address_sigs_wf s1' /\ grown s1 s1') as Hchk
    by (intros au s1 b1 s1'; apply check_authority_at_grown).
  unfold active_or_owner in H. revert H Hchk.
  generalize (check_authority_at n). intros chk H Hchk.
  assert (grown s s) as Hrefl by (split; [apply marks_kept_refl|done]).
  inv_bind H. apply Hchk in E as [Hwf1 Hg1]; [|done].
  destruct r; [inversion H; subst; split; assumption|].
  destruct allow_non_immediate_owner; [|inversion H; subst; split; assumption].
  apply Hchk in H as [Hwf2 Hg2]; [|done].
  split; [done|]. exact (grown_trans _ _ _ Hg1 Hg2).
Qed.

Lemma check_authority_at_sound (n : nat) (auth : authority) (s s' : sign_state) :
  address_sigs_wf s ->
  authority_ok auth ->
  total_listed_weight auth < u32_modulus ->
  check_authority_at n (Some auth) s = Ok true s' ->
  weight_threshold auth <= satisfied_weight auth s'.
Proof.
  intros Hwf (Hth & Hk & Ha & Hc) Hsum H.
  unfold total_listed_weight in Hsum. unfold satisfied_weight.
  pose proof (sum_weights_nonneg _ Hk). pose proof (sum_weights_nonneg _ Ha).
  pose proof (sum_weights_nonneg _ Hc).
  assert (exists deeper,
    (forall chk, deeper = Some chk ->
       forall a s b s', address_sigs_wf s -> chk a s = Ok b s' ->
         address_sigs_wf s' /\ grown s s') /\
    (let* (e1, s1) := key_auths_loop available_keys (weight_threshold auth)
                        (key_auths auth) 0 s in
     match e1 with
     | Returned_true => Ok true s1
     | Fell_through w1 =>
         let* (e2, s2) := address_auths_loop pts_address address_of_key
                            available_keys (weight_threshold auth)
                            (address_auths auth) w1 s1 in
         match e2 with
         | Returned_true => Ok true s2
         | Fell_through w2 =>
             let* (e3, s3) := account_auths_loop deeper (weight_threshold auth)
                                (account_auths auth) w2 s2 in
             match e3 with
             | Returned_true => Ok true s3
             | Fell_through w3 => Ok (weight_threshold auth <=? w3) s3
             end
         end
     end) = Ok true s') as (deeper & Hdeeper & Hbody).
  { destruct n as [|n]; cbn [check_authority_at] in H.
    - exists None. split; [done|exact H].
    - eexists. split; [|exact H]. intros chk [= <-] a s0 b s0'.
      apply active_or_owner_grown. }
  clear H.
  pose proof (weight_where_nonneg (address_consumed s') _ Ha) as Hna.
  pose proof (weight_where_nonneg (approved s') _ Hc) as Hnc.
  (* the loop over the keys *)
  destruct (key_auths_loop _ _ _ _ _) as [e1 sk|] eqn:E1; [|done].
  cbn [bind] in Hbody.
  apply (signed_loop_sound (signed_by_key available_keys) consumed) in E1
    as (Hwfk & Hgk & t1 & Ht1 & He1); [| | |done|done|lia|lia].
  2: { intros k s1 b s1' Hwf1 Hs. split; [by eapply signed_by_key_wf|].
       pose proof (signed_by_key_approved _ _ _ _ _ Hs) as Hap.
       apply signed_by_key_marks in Hs as [Hm Hc']. split; [|done].
       split; [done|]. by rewrite Hap. }
  2: { intros k s1 s1' [Hm _]. by apply consumed_grown. }
  pose proof (weight_where_le_sum (consumed sk) _ Hk) as Hle1.
  destruct e1 as [|w1].
  { injection Hbody as <-. lia. }
  subst w1.
  (* the loop over the addresses *)
  destruct (address_auths_loop _ _ _ _ _ _ _) as [e2 sa|] eqn:E2; [|done].
  cbn [bind] in Hbody.
  apply (signed_loop_sound signed_by_address address_consumed) in E2
    as (Hwfa & Hga & t2 & Ht2 & He2); [| | |done|done|lia|lia].
  2: { intros a s1 b s1' Hwf1' Hs.
       pose proof (signed_by_address_approved _ _ _ _ _ _ _ Hs) as Hap.
       pose proof (signed_by_address_marks _ _ _ _ _ _ _ Hs) as Hm.
       apply (signed_by_address_wf _ _ _ a s1 Hwf1') in Hs
         as (_ & Hwf' & k & _ & Hder & ->).
       split; [done|]. split; [split; [done|by rewrite Hap]|]. intros _.
       apply address_consumed_true. exists k. split; [|done].
       cbn. apply lookup_insert_eq. }
  2: { intros a s1 s1' [Hm _]. by apply address_consumed_grown. }
  pose proof (weight_where_le_sum (address_consumed sa) _ Ha) as Hle2.
  pose proof (weight_where_mono (consumed sk) (consumed sa) _
                (fun k => consumed_grown sk sa k (proj1 Hga)) Hk) as Hk12.
  destruct e2 as [|w2].
  { injection Hbody as <-. lia. }
  subst w2.
  (* the loop over the accounts *)
  destruct (account_auths_loop _ _ _ _ _) as [e3 sc|] eqn:E3; [|done].
  cbn [bind] in Hbody.
  apply (account_auths_loop_sound deeper) in E3
    as (Hwfc & Hgc & t3 & Ht3 & He3); [|done|done|done|lia|lia].
  assert (sc = s') as -> by (destruct e3; by injection Hbody).
  pose proof (weight_where_mono (consumed sa) (consumed s') _
                (fun k => consumed_grown sa s' k (proj1 Hgc)) Hk) as Hk23.
  pose proof (weight_where_mono (address_consumed sa) (address_consumed s') _
                (fun a => address_consumed_grown sa s' a (proj1 Hgc)) Ha) as Ha23.
  destruct e3 as [|w3].
  - lia.
  - subst w3. injection Hbody as Hb. apply Z.leb_le in Hb. lia.
Qed.

(** X9.  When [check_authority] returns [true] for an authority, the
    weights of the entries that count in the state it leaves reach the
    threshold: the key entries whose key is consumed, the address entries
    whose address a consumed key derives, and the account entries whose
    account is approved.  This holds when the listed weights cannot
    overflow the 32 bit total and the address tables are well formed. *)
Theorem check_authority_sound (auth : authority) (depth : Z) (s s' : sign_state) :
  address_sigs_wf s ->
  authority_ok auth ->
  total_listed_weight auth < u32_modulus ->
  check_authority (Some auth) depth s = Ok true s' ->
  weight_threshold auth <= satisfied_weight auth s'.
Proof. unfold check_authority. apply check_authority_at_sound. Qed.

End Soundness.

Lemma check_authority_keeps_marks_witness :
  marks_kept (new_sign_state ex_temp_account {[1%N; 2%N]})
    (set_approved (union {[22%N]})
       (set_approved (union {[23%N]})
          (mark 1%N (new_sign_state ex_temp_account {[1%N; 2%N]})))).
Proof.
  apply (check_authority_keeps_marks ex_pts_address ex_address_of_key
           ex_chain_active ex_chain_owner true 2 ∅
           (Some (delegate_to 22%N)) 0 _ true).
  vm_compute. reflexivity.
Defined.


Lemma check_authority_sound_witness :
  weight_threshold (delegate_to 22%N)
  <= satisfied_weight ex_pts_address ex_address_of_key (delegate_to 22%N)
       (set_approved (union {[22%N]})
          (set_approved (union {[23%N]})
             (mark 1%N (new_sign_state ex_temp_account {[1%N]})))).
Proof.
  apply (check_authority_sound ex_pts_address ex_address_of_key
           ex_chain_active ex_chain_owner true 2 ∅ (delegate_to 22%N) 0
           (new_sign_state ex_temp_account {[1%N]})).
  - exact I.
  - unfold authority_ok, is_u32, u32_modulus, weight_ok. cbn.
    repeat split; try lia; repeat constructor; cbn; lia.
  - vm_compute. reflexivity.
  - vm_compute. reflexivity.
Defined.

(** ** Required and minimal signatures *)

Section RequiredSignatures.

Variable pts_address : public_key_type -> bool -> Z -> address.
Variable address_of_key : public_key_type -> address.
Variables GRAPHENE_TEMP_ACCOUNT GRAPHENE_COMMITTEE_ACCOUNT : account_id_type.
Variable operation : Type.
Variable signature_type : Type.
Variable chain_id_type : Type.
Variable rejected_predicate_map : Type.
Variable no_rejections : rejected_predicate_map.
Variable operation_get_required_authorities :
  operation -> bool -> required -> required.
Variable signee :
  chain_id_type -> signed_transaction operation signature_type -> signature_type ->
  public_key_type.
Variables get_active get_owner : account_id_type -> option authority.
Variable get_custom : custom_authority_lookup operation rejected_predicate_map.
Variables allow_non_immediate_owner ignore_custom_operation_required_auths : bool.
Variable max_recursion : Z.
Variable default_allow_committee : bool.
Variables default_active_aprovals default_owner_approvals : gset account_id_type.

Local Abbreviation get_signature_keys :=
  (get_signature_keys operation signature_type chain_id_type signee).
Local Abbreviation get_required_signatures :=
  (get_required_signatures pts_address address_of_key GRAPHENE_TEMP_ACCOUNT
     operation signature_type chain_id_type operation_get_required_authorities
     signee get_active get_owner allow_non_immediate_owner
     ignore_custom_operation_required_auths max_recursion).
Local Abbreviation minimize_loop :=
  (minimize_loop pts_address address_of_key GRAPHENE_TEMP_ACCOUNT
     GRAPHENE_COMMITTEE_ACCOUNT operation rejected_predicate_map no_rejections
     operation_get_required_authorities get_active get_owner get_custom
     allow_non_immediate_owner ignore_custom_operation_required_auths
     max_recursion default_allow_committee default_active_aprovals
     default_owner_approvals).
Local Abbreviation minimize_required_signatures :=
  (minimize_required_signatures pts_address address_of_key GRAPHENE_TEMP_ACCOUNT
     GRAPHENE_COMMITTEE_ACCOUNT operation signature_type chain_id_type
     rejected_predicate_map no_rejections operation_get_required_authorities
     signee get_active get_owner get_custom allow_non_immediate_owner
     ignore_custom_operation_required_auths max_recursion default_allow_committee
     default_active_aprovals default_owner_approvals).

(** The keys [get_required_signatures] returns are available keys that are
    not among the keys of the attached signatures. *)
Lemma get_required_signatures_available (chain_id : chain_id_type)
    (t : signed_transaction operation signature_type)
    (available_keys result : gset public_key_type) :
  get_required_signatures chain_id t available_keys = Returns result ->
  exists signature_keys,
    get_signature_keys chain_id t = Returns signature_keys
    /\ result ⊆ available_keys
    /\ result ## signature_keys.
Proof.
  unfold get_required_signatures.
  destruct (get_signature_keys chain_id t) as [signature_keys| |]; [|done..].
  destruct (bind _ _) as [u s3|]; [|done].
  intros [= <-]. exists signature_keys. split; [done|].
  split; intros k Hk.
  - by apply elem_of_filter in Hk as [[? _] _].
  - intros Hs. by apply elem_of_filter in Hk as [[_ ?] _].
Qed.

(** Whatever the re-runs of [verify_authority] do, a set the loop returns
    holds only keys of the set it started from and candidates. *)
Lemma minimize_loop_subset (ops : list operation) (s : list public_key_type) :
  forall result r,
    minimize_loop ops s result = Returns r -> r ⊆ result ∪ list_to_set s.
Proof.
  induction s as [|k s IH]; intros result r H; cbn [minimize_loop] in H.
  - injection H as <-. clear. set_solver.
  - destruct (verify_authority _ _ _ _ _ _ _ _ _ _ _ _ _ _ _ _ _ _ _)
      as [u|e|]; [| |done].
    + apply IH in H. clear -H. set_solver.
    + destruct e; try done; apply IH in H; clear -H; set_solver.
Qed.

(** X10.  A key set that [minimize_required_signatures] returns is a
    subset of the set [get_required_signatures] returns: it holds only
    available keys, and no key of a signature the transaction already
    carries. *)
Theorem minimize_required_signatures_subset (chain_id : chain_id_type)
    (t : signed_transaction operation signature_type)
    (available_keys result : gset public_key_type) :
  minimize_required_signatures chain_id t available_keys = Returns result ->
  exists required signature_keys,
    get_required_signatures chain_id t available_keys = Returns required
    /\ get_signature_keys chain_id t = Returns signature_keys
    /\ result ⊆ required
    /\ result ⊆ available_keys
    /\ result ## signature_keys.
Proof.
  unfold minimize_required_signatures.
  destruct (get_required_signatures chain_id t available_keys)
    as [required| |] eqn:E; [|done..].
  intros H. apply minimize_loop_subset in H.
  rewrite list_to_set_in_order in H.
  apply get_required_signatures_available in E as (signature_keys & Hs & Hav & Hdis).
  exists required, signature_keys.
  split; [done|]. split; [done|].
  clear -H Hav Hdis. set_solver.
Qed.

End RequiredSignatures.

Lemma minimize_required_signatures_subset_witness :
  exists required signature_keys,
    get_required_signatures ex_pts_address ex_address_of_key ex_temp_account
      ex_operation public_key_type unit ex_get_required ex_signee
      ex_get_active ex_get_owner false false 2 tt
      {| operations := [requires_active 11%N]; signatures := [] |} {[1%N; 2%N]}
    = Returns required
    /\ get_signature_keys ex_operation public_key_type unit ex_signee tt
         {| operations := [requires_active 11%N]; signatures := [] |}
       = Returns signature_keys
    /\ ({[1%N]} : gset public_key_type) ⊆ required
    /\ ({[1%N]} : gset public_key_type) ⊆ {[1%N; 2%N]}
    /\ ({[1%N]} : gset public_key_type) ## signature_keys.
Proof.
  apply (minimize_required_signatures_subset ex_pts_address ex_address_of_key
           ex_temp_account ex_committee_account ex_operation public_key_type unit
           unit tt ex_get_required ex_signee ex_get_active ex_get_owner
           ex_get_custom false false 2 false ∅ ∅ tt
           {| operations := [requires_active 11%N]; signatures := [] |}
           {[1%N; 2%N]} {[1%N]}).
  vm_compute. reflexivity.
Defined.

(** ** verify_authority without operations *)

Lemma approvals_provided (ids : list account_id_type) :
  forall s,
    provided_signatures
      (fold_left (fun s' id => set_approved (union {[id]}) s') ids s)
    = provided_signatures s.
Proof.
  induction ids as [|id ids IH]; intros s; cbn [fold_left]; [done|]. by rewrite IH.
Qed.

Section NoOperations.

Variable pts_address : public_key_type -> bool -> Z -> address.
Variable address_of_key : public_key_type -> address.
Variables GRAPHENE_TEMP_ACCOUNT GRAPHENE_COMMITTEE_ACCOUNT : account_id_type.
Variable operation : Type.
Variable rejected_predicate_map : Type.
Variable no_rejections : rejected_predicate_map.
Variable operation_get_required_authorities :
  operation -> bool -> required -> required.
Variables get_active get_owner : account_id_type -> option authority.
Variable get_custom : custom_authority_lookup operation rejected_predicate_map.
Variables allow_non_immediate_owner ignore_custom_operation_required_auths : bool.
Variable max_recursion_depth : Z.

Local Abbreviation verify_authority :=
  (verify_authority pts_address address_of_key GRAPHENE_TEMP_ACCOUNT
     GRAPHENE_COMMITTEE_ACCOUNT operation rejected_predicate_map no_rejections
     operation_get_required_authorities get_active get_owner get_custom
     allow_non_immediate_owner ignore_custom_operation_required_auths
     max_recursion_depth).

(** X11.  On an empty list of operations [verify_authority] requires
    nothing: it returns when there is no signature key and throws
    [tx_irrelevant_sig] when there is one, whatever the flags, the approved
    accounts and the accessors are. *)
Theorem verify_authority_no_operations (sigs : gset public_key_type)
    (allow_committee : bool) (active_aprovals owner_approvals : gset account_id_type) :
  verify_authority [] sigs allow_committee active_aprovals owner_approvals
  = if decide (sigs = ∅) then Returns tt else Throws tx_irrelevant_sig.
Proof.
  unfold verify_authority, requirement_checks.
  cbn [operations_loop other owner other_loop].
  rewrite bool_decide_eq_false_2 by apply not_elem_of_empty.
  rewrite andb_false_r.
  change (in_order ∅) with (@nil N). cbn [owner_loop active_loop].
  match goal with
  | |- (if (remove_unused_signatures ?s0).1 then _ else _) = _ =>
      assert (provided_signatures s0
              = provided_signatures (new_sign_state GRAPHENE_TEMP_ACCOUNT sigs))
        as Hprov by (by rewrite !approvals_provided);
      destruct (remove_unused_signatures s0).1 eqn:E
  end.
  - apply remove_unused_signatures_true in E as [k Hk].
    rewrite Hprov, new_sign_state_lookup in Hk.
    rewrite decide_False; [done|]. intros ->. by rewrite decide_False in Hk.
  - rewrite decide_True; [done|]. apply set_eq. intros k. split; [|done].
    intros Hk. exfalso.
    pose proof (proj1 (remove_unused_signatures_false _) E k false) as Hf.
    rewrite Hprov, new_sign_state_lookup, decide_True in Hf by done.
    by specialize (Hf eq_refl).
Qed.

End NoOperations.

(** ** verify_authority when no custom authority is viable *)

Lemma approvals_approved (ids : list account_id_type) :
  forall s,
    approved_by (fold_left (fun s' id => set_approved (union {[id]}) s') ids s)
    = list_to_set ids ∪ approved_by s.
Proof.
  induction ids as [|id ids IH]; intros s; cbn [fold_left].
  - cbn. clear. set_solver.
  - rewrite IH. cbn. clear. set_solver.
Qed.

Section NoCustomAuthority.

Variable pts_address : public_key_type -> bool -> Z -> address.
Variable address_of_key : public_key_type -> address.
Variables GRAPHENE_TEMP_ACCOUNT GRAPHENE_COMMITTEE_ACCOUNT : account_id_type.
Variable operation : Type.
Variable rejected_predicate_map : Type.
Variable no_rejections : rejected_predicate_map.
Variable operation_get_required_authorities :
  operation -> bool -> required -> required.
Variables get_active get_owner : account_id_type -> option authority.
Variable get_custom : custom_authority_lookup operation rejected_predicate_map.
Variables allow_non_immediate_owner ignore_custom_operation_required_auths : bool.
Variable max_recursion_depth : Z.

(** The lookup returns no viable custom authority. *)
Hypothesis no_custom : forall id op rejected, (get_custom id op rejected).1 = [].

Local Abbreviation verify_authority :=
  (verify_authority pts_address address_of_key GRAPHENE_TEMP_ACCOUNT
     GRAPHENE_COMMITTEE_ACCOUNT operation rejected_predicate_map no_rejections
     operation_get_required_authorities get_active get_owner get_custom
     allow_non_immediate_owner ignore_custom_operation_required_auths
     max_recursion_depth).
Local Abbreviation requirement_checks :=
  (requirement_checks pts_address address_of_key GRAPHENE_TEMP_ACCOUNT
     GRAPHENE_COMMITTEE_ACCOUNT operation rejected_predicate_map no_rejections
     operation_get_required_authorities get_active get_owner get_custom
     allow_non_immediate_owner ignore_custom_operation_required_auths
     max_recursion_depth).
Local Abbreviation required_of :=
  (required_of operation operation_get_required_authorities
     ignore_custom_operation_required_auths).
Local Abbreviation other_loop :=
  (other_loop pts_address address_of_key get_active get_owner
     allow_non_immediate_owner max_recursion_depth ∅).
Local Abbreviation owner_loop :=
  (owner_loop pts_address address_of_key get_active get_owner
     allow_non_immediate_owner max_recursion_depth ∅).
Local Abbreviation active_loop :=
  (active_loop pts_address address_of_key get_active get_owner
     allow_non_immediate_owner max_recursion_depth ∅).

(** The state [verify_authority] builds before its loops. *)
Local Abbreviation initial_state sigs active_aprovals owner_approvals :=
  (fold_left (fun s' id => set_approved (union {[id]}) s')
     (in_order owner_approvals)
     (fold_left (fun s' id => set_approved (union {[id]}) s')
        (in_order active_aprovals)
        (new_sign_state GRAPHENE_TEMP_ACCOUNT sigs))).

Lemma custom_erase_loop_no_custom (op : operation) (ids : list account_id_type) :
  forall kept rejected s,
    exists rejected',
      custom_erase_loop pts_address address_of_key operation rejected_predicate_map
        get_active get_owner get_custom allow_non_immediate_owner
        max_recursion_depth ∅ op ids kept rejected s
      = Ok (kept, rejected') s.
Proof using no_custom.
  induction ids as [|id ids IH]; intros kept rejected s; cbn [custom_erase_loop].
  - eauto.
  - pose proof (no_custom id op rejected) as Hno.
    destruct (get_custom id op rejected) as [viable r1]. cbn in Hno. subst viable.
    cbn [custom_auths_loop bind]. apply IH.
Qed.

Lemma operations_loop_no_custom (ops : list operation) :
  forall required_active req rejected s,
    exists rejected',
      operations_loop pts_address address_of_key operation rejected_predicate_map
        operation_get_required_authorities get_active get_owner get_custom
        allow_non_immediate_owner ignore_custom_operation_required_auths
        max_recursion_depth ∅ ops required_active req rejected s
      = Ok (required_of ops required_active req, rejected') s.
Proof using no_custom.
  induction ops as [|op ops IH]; intros required_active req rejected s;
    cbn [operations_loop required_of].
  - exists rejected. by destruct req.
  - match goal with
    | |- context [custom_erase_loop _ _ _ _ _ _ _ _ _ _ ?o ?ids ?kept ?rej ?st] =>
        destruct (custom_erase_loop_no_custom o ids kept rej st) as [r1 ->]
    end.
    cbn [bind fst snd]. apply IH.
Qed.

Lemma requirement_checks_no_custom (ops : list operation)
    (sigs : gset public_key_type) (allow_committee : bool)
    (active_aprovals owner_approvals : gset account_id_type) :
  requirement_checks ops sigs allow_committee active_aprovals owner_approvals
  = let required := required_of ops ∅ nothing_required in
    if negb allow_committee
       && bool_decide (GRAPHENE_COMMITTEE_ACCOUNT ∈ required.1)
    then Throws invalid_committee_approval
    else
      match other_loop (other required.2)
              (initial_state sigs active_aprovals owner_approvals) with
      | Returns s2 =>
          match owner_loop owner_approvals (in_order (owner required.2)) s2 with
          | Returns s3 => active_loop (in_order required.1) s3
          | o => o
          end
      | o => o
      end.
Proof using no_custom.
  unfold requirement_checks.
  match goal with
  | |- context [operations_loop _ _ _ _ _ _ _ _ _ _ _ _ ?o ?ra ?rq ?rej ?st] =>
      destruct (operations_loop_no_custom o ra rq rej st) as [r1 ->]
  end.
  cbv zeta. unfold nothing_required.
  by destruct (required_of ops ∅ _) as [ra rq].
Qed.

(** X13.  When no custom authority is viable, committee approval is not
    allowed and an operation requires the active authority of the committee
    account, [verify_authority] throws [invalid_committee_approval]: before
    any authority is checked, for any signature keys, and also when the
    committee account is among the accounts the caller approves. *)
Theorem verify_authority_committee (ops : list operation)
    (sigs : gset public_key_type)
    (active_aprovals owner_approvals : gset account_id_type) :
  GRAPHENE_COMMITTEE_ACCOUNT ∈ (required_of ops ∅ nothing_required).1 ->
  verify_authority ops sigs false active_aprovals owner_approvals
  = Throws invalid_committee_approval.
Proof using no_custom.
  intros Hc. unfold verify_authority. rewrite requirement_checks_no_custom.
  cbv zeta. by rewrite bool_decide_eq_true_2.
Qed.

Lemma owner_loop_approved (owner_approvals : gset account_id_type)
    (ids : list account_id_type) (s : sign_state) :
  (forall id, id ∈ ids -> id ∈ owner_approvals) ->
  owner_loop owner_approvals ids s = Returns s.
Proof.
  induction ids as [|id ids IH]; intros Hids; [done|].
  change (owner_loop owner_approvals (id :: ids) s)
    with (if decide (id ∈ owner_approvals) then owner_loop owner_approvals ids s
          else match check pts_address address_of_key get_active get_owner
                       allow_non_immediate_owner max_recursion_depth ∅
                       (get_owner id) s with
               | Ok true s1 => owner_loop owner_approvals ids s1
               | Ok false _ =>
                   match get_owner id with
                   | Some _ => Throws tx_missing_owner_auth
                   | None => Undefined_behaviour
                   end
               | Undefined => Undefined_behaviour
               end).
  rewrite decide_True by (apply Hids; constructor).
  apply IH. intros id' Hid'. apply Hids. by constructor.
Qed.

Lemma active_loop_approved (ids : list account_id_type) (s : sign_state) :
  (forall id, id ∈ ids -> id ∈ approved_by s) ->
  active_loop ids s = Returns s.
Proof.
  induction ids as [|id ids IH]; intros Hids; [done|].
  change (active_loop (id :: ids) s)
    with (match check_account pts_address address_of_key get_active get_owner
                  allow_non_immediate_owner max_recursion_depth ∅ id s with
          | Ok true s1 => active_loop ids s1
          | Ok false s1 =>
              match check pts_address address_of_key get_active get_owner
                      allow_non_immediate_owner max_recursion_depth ∅
                      (get_owner id) s1 with
              | Ok true s2 => active_loop ids s2
              | Ok false _ =>
                  match get_active id, get_owner id with
                  | Some _, Some _ => Throws tx_missing_active_auth
                  | _, _ => Undefined_behaviour
                  end
              | Undefined => Undefined_behaviour
              end
          | Undefined => Undefined_behaviour
          end).
  unfold check_account, check_authority_account.
  rewrite decide_True by (apply Hids; constructor).
  apply IH. intros id' Hid'. apply Hids. by constructor.
Qed.

(** X14.  When no custom authority is viable, the operations require no
    other authority, every required owner account is among the caller's
    owner approvals, every required active account is the temporary account
    or among the caller's approvals, and the committee rule does not apply,
    [verify_authority] needs no signature: it returns on the empty key set
    and throws [tx_irrelevant_sig] on any other. *)
Theorem verify_authority_approved (ops : list operation)
    (sigs : gset public_key_type) (allow_committee : bool)
    (active_aprovals owner_approvals : gset account_id_type) :
  other (required_of ops ∅ nothing_required).2 = [] ->
  owner (required_of ops ∅ nothing_required).2 ⊆ owner_approvals ->
  (required_of ops ∅ nothing_required).1
    ⊆ {[GRAPHENE_TEMP_ACCOUNT]} ∪ active_aprovals ∪ owner_approvals ->
  allow_committee = true
  \/ GRAPHENE_COMMITTEE_ACCOUNT ∉ (required_of ops ∅ nothing_required).1 ->
  verify_authority ops sigs allow_committee active_aprovals owner_approvals
  = if decide (sigs = ∅) then Returns tt else Throws tx_irrelevant_sig.
Proof using no_custom.
  intros Hother Howner Hactive Hcommittee.
  unfold verify_authority. rewrite requirement_checks_no_custom. cbv zeta.
  assert (negb allow_committee
          && bool_decide (GRAPHENE_COMMITTEE_ACCOUNT
                          ∈ (required_of ops ∅ nothing_required).1) = false) as ->.
  { destruct Hcommittee as [->|Hc]; [done|].
    rewrite bool_decide_eq_false_2 by done. apply andb_false_r. }
  rewrite Hother.
  match goal with
  | |- context [other_loop [] ?s0] =>
      change (other_loop [] s0) with (Returns s0)
  end.
  cbv iota beta.
  rewrite owner_loop_approved.
  2: { intros id Hid. apply Howner. by apply elem_of_in_order. }
  rewrite active_loop_approved.
  2: { intros id Hid. apply elem_of_in_order in Hid. apply Hactive in Hid.
       rewrite !approvals_approved, !list_to_set_in_order. cbn.
       clear -Hid. set_solver. }
  match goal with
  | |- (if (remove_unused_signatures ?s0).1 then _ else _) = _ =>
      assert (provided_signatures s0
              = provided_signatures (new_sign_state GRAPHENE_TEMP_ACCOUNT sigs))
        as Hprov by (by rewrite !approvals_provided);
      destruct (remove_unused_signatures s0).1 eqn:E
  end.
  - apply remove_unused_signatures_true in E as [k Hk].
    rewrite Hprov, new_sign_state_lookup in Hk.
    rewrite decide_False; [done|]. intros ->. by rewrite decide_False in Hk.
  - rewrite decide_True; [done|]. apply set_eq. intros k. split; [|done].
    intros Hk. exfalso.
    pose proof (proj1 (remove_unused_signatures_false _) E k false) as Hf.
    rewrite Hprov, new_sign_state_lookup, decide_True in Hf by done.
    by specialize (Hf eq_refl).
Qed.

End NoCustomAuthority.

(** ** Justified approvals and the requirements verify_authority checks *)

Section Justified.

Variable pts_address : public_key_type -> bool -> Z -> address.
Variable address_of_key : public_key_type -> address.
Variables get_active get_owner : account_id_type -> option authority.
Variable allow_non_immediate_owner : bool.
Variable available_keys : gset public_key_type.
Variable initial : gset account_id_type.
Variable max_recursion : Z.

Hypothesis active_fits : forall id auth, get_active id = Some auth -> authority_fits auth.
Hypothesis owner_fits : forall id auth, get_owner id = Some auth -> authority_fits auth.

Local Abbreviation check_authority_at :=
  (check_authority_at pts_address address_of_key get_active get_owner
     allow_non_immediate_owner available_keys).
Local Abbreviation address_sigs_wf :=
  (address_sigs_wf pts_address address_of_key available_keys).
Local Abbreviation satisfied_weight := (satisfied_weight pts_address address_of_key).
Local Abbreviation meets := (meets pts_address address_of_key).
Local Abbreviation justified :=
  (justified pts_address address_of_key get_active get_owner
     allow_non_immediate_owner initial).
Local Abbreviation grown s s' :=
  (marks_kept s s' /\ approved_by s ⊆ approved_by s').
Local Abbreviation backed s id :=
  (meets s (get_active id)
   \/ (allow_non_immediate_owner = true /\ meets s (get_owner id))).

Lemma satisfied_weight_grown (auth : authority) (s s' : sign_state) :
  authority_ok auth -> grown s s' ->
  satisfied_weight auth s <= satisfied_weight auth s'.
Proof.
  intros (_ & Hk & Ha & Hc) [Hm Hap]. unfold satisfied_weight.
  pose proof (weight_where_mono (consumed s) (consumed s') _
                (fun k => consumed_grown s s' k Hm) Hk).
  pose proof (weight_where_mono _ _ _
                (fun a => address_consumed_grown pts_address address_of_key
                            s s' a Hm) Ha).
  pose proof (weight_where_mono _ _ _
                (fun id => approved_grown s s' id Hap) Hc).
  lia.
Qed.

Lemma meets_grown (au : option authority) (s s' : sign_state) :
  (forall auth, au = Some auth -> authority_fits auth) ->
  grown s s' -> meets s au -> meets s' au.
Proof.
  intros Hfit Hg (auth & -> & Hw). exists auth. split; [done|].
  pose proof (satisfied_weight_grown auth s s' (proj1 (Hfit auth eq_refl)) Hg). lia.
Qed.

Lemma backed_grown (id : account_id_type) (s s' : sign_state) :
  grown s s' -> backed s id -> backed s' id.
Proof using active_fits owner_fits.
  intros Hg [H|[Hal H]]; [left|right; split; [done|]];
    (eapply meets_grown; [|done..]); intros auth; [apply active_fits|apply owner_fits].
Qed.

(** Steps that add no approval keep every approval justified. *)
Lemma justified_grown (s s' : sign_state) :
  grown s s' -> approved_by s' = approved_by s -> justified s -> justified s'.
Proof using active_fits owner_fits.
  intros Hg Heq Hj id Hid. rewrite Heq in Hid.
  destruct (Hj id Hid) as [?|Hb]; [by left|right]. by eapply backed_grown.
Qed.

Lemma justified_insert (id : account_id_type) (s : sign_state) :
  justified s -> backed s id -> justified (set_approved (union {[id]}) s).
Proof using active_fits owner_fits.
  intros Hj Hb id' Hid'.
  assert (grown s (set_approved (union {[id]}) s)) as Hg.
  { split; [intros k v Hk; by exists v|]. cbn. clear. set_solver. }
  cbn in Hid'. apply elem_of_union in Hid' as [Hid'|Hid'].
  - apply elem_of_singleton in Hid' as ->. right. by eapply backed_grown.
  - destruct (Hj id' Hid') as [?|Hb']; [by left|right]. by eapply backed_grown.
Qed.

Local Abbreviation inv s := (address_sigs_wf s /\ justified s).

Lemma signed_by_key_justified (k : public_key_type) (s : sign_state) (b : bool)
    (s' : sign_state) :
  inv s -> signed_by_key available_keys k s = Ok b s' -> inv s'.
Proof using active_fits owner_fits.
  intros [Hwf Hj] H. split; [by eapply signed_by_key_wf|].
  eapply justified_grown; [| |done].
  - split; [by eapply signed_by_key_marks|].
    by rewrite (signed_by_key_approved _ _ _ _ _ H).
  - by eapply signed_by_key_approved.
Qed.

Lemma signed_by_address_justified (a : address) (s : sign_state) (b : bool)
    (s' : sign_state) :
  inv s ->
  signed_by_address pts_address address_of_key available_keys a s = Ok b s' ->
  inv s'.
Proof using active_fits owner_fits.
  intros [Hwf Hj] H. split.
  - by apply (signed_by_address_wf _ _ _ a s Hwf) in H as (_ & ? & _).
  - eapply justified_grown; [| |done].
    + split; [by eapply signed_by_address_marks|].
      by rewrite (signed_by_address_approved _ _ _ _ _ _ _ H).
    + by eapply signed_by_address_approved.
Qed.

Lemma account_auths_loop_justified deeper (threshold : Z)
    (l : list (account_id_type * Z)) :
  (forall chk, deeper = Some chk ->
     forall a s b s', inv s -> chk a s = Ok b s' ->
       inv s' /\ (b = true -> backed s' a)) ->
  forall total s e s',
    inv s -> account_auths_loop deeper threshold l total s = Ok e s' -> inv s'.
Proof using active_fits owner_fits.
  intros Hd. induction l as [|a l IH]; intros total s e s' Hinv H;
    cbn [account_auths_loop] in H.
  - by injection H as <- <-.
  - case_decide as Hin.
    + destruct (_ <=? _); [by injection H as <- <- | eauto].
    + destruct deeper as [chk|]; [|eauto].
      destruct (chk a.1 s) as [r s1|] eqn:E; [|done]. cbn [bind] in H.
      apply (Hd chk eq_refl) in E as [[Hwf1 Hj1] Hb]; [|done].
      destruct r; [|eauto].
      assert (inv (set_approved (union {[a.1]}) s1)) as Hinv2.
      { split; [exact Hwf1|]. apply justified_insert; auto. }
      destruct (_ <=? _); [by injection H as <- <- | eauto].
Qed.

Lemma active_or_owner_justified (n : nat) :
  (forall au s b s', inv s -> check_authority_at n au s = Ok b s' -> inv s') ->
  forall id s b s',
    inv s ->
    active_or_owner get_active get_owner allow_non_immediate_owner
      (check_authority_at n) id s = Ok b s' ->
    inv s' /\ (b = true -> backed s' id).
Proof using active_fits owner_fits.
  intros IH id s b s' Hinv H. unfold active_or_owner in H.
  destruct (check_authority_at n (get_active id) s) as [r s1|] eqn:E; [|done].
  cbn [bind] in H. pose proof (IH _ _ _ _ Hinv E) as Hinv1.
  destruct r.
  - injection H as <- <-. split; [done|]. intros _. left.
    destruct (get_active id) as [auth|] eqn:Ea; [|by destruct n].
    exists auth. split; [done|].
    destruct (active_fits id auth Ea) as [Hok Hsum].
    by eapply check_authority_at_sound; [apply Hinv| | |exact E].
  - destruct allow_non_immediate_owner eqn:Eal.
    + pose proof (IH _ _ _ _ Hinv1 H) as Hinv2. split; [done|].
      intros ->. right. split; [done|].
      destruct (get_owner id) as [auth|] eqn:Eo; [|by destruct n].
      exists auth. split; [done|].
      destruct (owner_fits id auth Eo) as [Hok Hsum].
      by eapply check_authority_at_sound; [apply Hinv1| | |exact H].
    + injection H as <- <-. by split.
Qed.

Lemma check_authority_at_justified (n : nat) :
  forall au s b s', inv s -> check_authority_at n au s = Ok b s' -> inv s'.
Proof using active_fits owner_fits.
  induction n as [|n IH]; intros [auth|] s b s' Hinv H;
    cbn [check_authority_at] in H; try (by injection H as <- <-).
  all: destruct (key_auths_loop _ _ _ _ s) as [e1 s1|] eqn:E1; [|done];
    cbn [bind] in H;
    apply (signed_loop_preserves (fun s => inv s) _ _ _ signed_by_key_justified)
      in E1; [|done];
    destruct e1 as [|w1]; [by injection H as <- <-|];
    destruct (address_auths_loop _ _ _ _ _ _ s1) as [e2 s2|] eqn:E2; [|done];
    cbn [bind] in H;
    apply (signed_loop_preserves (fun s => inv s) _ _ _ signed_by_address_justified)
      in E2; [|done];
    destruct e2 as [|w2]; [by injection H as <- <-|];
    destruct (account_auths_loop _ _ _ _ s2) as [e3 s3|] eqn:E3; [|done];
    cbn [bind] in H;
    apply account_auths_loop_justified in E3; [| |done].
  1,3: by destruct e3; injection H as <- <-.
  - intros chk [=].
  - intros chk [= <-]. by apply active_or_owner_justified.
Qed.

(** X15.  [check_authority] keeps every approval justified: an account it
    adds to [approved_by] has its active authority met in the state it
    leaves, or its owner authority when owner authorities may stand in.
    This holds when the weights of the authorities the accessors return
    cannot overflow the 32 bit total and the address tables are well
    formed. *)
Theorem check_authority_justified (au : option authority) (depth : Z)
    (s : sign_state) (b : bool) (s' : sign_state) :
  address_sigs_wf s -> justified s ->
  check_authority pts_address address_of_key get_active get_owner
    allow_non_immediate_owner max_recursion available_keys au depth s = Ok b s' ->
  justified s'.
Proof using active_fits owner_fits.
  intros Hwf Hj H. unfold check_authority in H.
  by apply check_authority_at_justified in H as [_ ?].
Qed.

Local Abbreviation check :=
  (check pts_address address_of_key get_active get_owner
     allow_non_immediate_owner max_recursion available_keys).

Lemma grown_refl (s : sign_state) : grown s s.
Proof. split; [apply marks_kept_refl|done]. Qed.

Lemma check_justified (au : option authority) (s : sign_state) (b : bool)
    (s' : sign_state) :
  (forall auth, au = Some auth -> authority_fits auth) ->
  inv s -> check au s = Ok b s' ->
  inv s' /\ grown s s' /\ (b = true -> meets s' au).
Proof using active_fits owner_fits.
  intros Hfit Hinv H. unfold check, check_authority in H.
  split; [by eapply check_authority_at_justified|].
  split; [by eapply check_authority_at_grown; [apply Hinv|]|].
  intros ->. destruct au as [auth|]; [|by destruct (remaining _ _)].
  exists auth. split; [done|]. destruct (Hfit auth eq_refl) as [Hok Hsum].
  by eapply check_authority_at_sound; [apply Hinv| | |exact H].
Qed.

Lemma other_loop_sound (l : list authority) :
  Forall authority_fits l ->
  forall s s',
    inv s ->
    other_loop pts_address address_of_key get_active get_owner
      allow_non_immediate_owner max_recursion available_keys l s = Returns s' ->
    inv s' /\ grown s s' /\ forall auth, auth ∈ l -> meets s' (Some auth).
Proof using active_fits owner_fits.
  induction 1 as [|auth l Hfit Hl IH]; intros s s' Hinv H; cbn [other_loop] in H.
  - injection H as <-. split; [done|]. split; [apply grown_refl|].
    intros auth Hin. by apply elem_of_nil in Hin.
  - destruct (check (Some auth) s) as [[|] s1|] eqn:E; [|done..].
    apply check_justified in E as (Hinv1 & Hg1 & Hm); [| |done].
    2: { by intros ? [= <-]. }
    apply IH in H as (Hinv' & Hg' & Hall); [|done].
    split; [done|]. split; [exact (grown_trans _ _ _ Hg1 Hg')|].
    intros auth' Hin. apply elem_of_cons in Hin as [->|Hin]; [|by apply Hall].
    eapply meets_grown; [|exact Hg'|by apply Hm]. by intros ? [= <-].
Qed.

Lemma owner_loop_sound (owner_approvals : gset account_id_type)
    (ids : list account_id_type) :
  forall s s',
    inv s ->
    owner_loop pts_address address_of_key get_active get_owner
      allow_non_immediate_owner max_recursion available_keys owner_approvals ids s
    = Returns s' ->
    inv s' /\ grown s s' /\
    forall id, id ∈ ids -> id ∈ owner_approvals \/ meets s' (get_owner id).
Proof using active_fits owner_fits.
  induction ids as [|id ids IH]; intros s s' Hinv H; cbn [owner_loop] in H.
  - injection H as <-. split; [done|]. split; [apply grown_refl|].
    intros id Hin. by apply elem_of_nil in Hin.
  - case_decide as Hown.
    + apply IH in H as (Hinv' & Hg' & Hall); [|done].
      split; [done|]. split; [done|].
      intros id' Hin. apply elem_of_cons in Hin as [->|Hin]; [by left|by apply Hall].
    + destruct (check (get_owner id) s) as [[|] s1|] eqn:E.
      * apply check_justified in E as (Hinv1 & Hg1 & Hm); [|by apply owner_fits|done].
        apply IH in H as (Hinv' & Hg' & Hall); [|done].
        split; [done|]. split; [exact (grown_trans _ _ _ Hg1 Hg')|].
        intros id' Hin. apply elem_of_cons in Hin as [->|Hin]; [|by apply Hall].
        right. eapply meets_grown; [by apply owner_fits|exact Hg'|by apply Hm].
      * by destruct (get_owner id).
      * done.
Qed.

Lemma check_account_justified (id : account_id_type) (s : sign_state) (b : bool)
    (s' : sign_state) :
  inv s ->
  check_account pts_address address_of_key get_active get_owner
    allow_non_immediate_owner max_recursion available_keys id s = Ok b s' ->
  inv s' /\ grown s s' /\ (b = true -> id ∈ initial \/ backed s' id).
Proof using active_fits owner_fits.
  intros Hinv H. unfold check_account, check_authority_account in H.
  case_decide as Hin.
  - injection H as <- <-. split; [done|]. split; [apply grown_refl|].
    intros _. by apply (proj2 Hinv).
  - unfold check_authority in H.
    pose proof (active_or_owner_grown _ _ _ _ _ _ _ _ _ _ _ (proj1 Hinv) H) as [_ Hg].
    apply active_or_owner_justified in H as [Hinv' Hb]; [|apply check_authority_at_justified|done].
    split; [done|]. split; [done|]. intros ->. right. by apply Hb.
Qed.

Lemma active_loop_sound (ids : list account_id_type) :
  forall s s',
    inv s ->
    active_loop pts_address address_of_key get_active get_owner
      allow_non_immediate_owner max_recursion available_keys ids s = Returns s' ->
    inv s' /\ grown s s' /\
    forall id, id ∈ ids ->
      id ∈ initial \/ meets s' (get_active id) \/ meets s' (get_owner id).
Proof using active_fits owner_fits.
  induction ids as [|id ids IH]; intros s s' Hinv H; cbn [active_loop] in H.
  - injection H as <-. split; [done|]. split; [apply grown_refl|].
    intros id Hin. by apply elem_of_nil in Hin.
  - destruct (check_account _ _ _ _ _ _ _ id s) as [[|] s1|] eqn:E; [| |done].
    + apply check_account_justified in E as (Hinv1 & Hg1 & Hb); [|done].
      apply IH in H as (Hinv' & Hg' & Hall); [|done].
      split; [done|]. split; [exact (grown_trans _ _ _ Hg1 Hg')|].
      intros id' Hin. apply elem_of_cons in Hin as [->|Hin]; [|by apply Hall].
      destruct (Hb eq_refl) as [?|Hbk]; [by left|right].
      destruct (backed_grown id s1 s' Hg' Hbk) as [?|[_ ?]]; [by left|by right].
    + apply check_account_justified in E as (Hinv1 & Hg1 & _); [|done].
      destruct (check (get_owner id) s1) as [[|] s2|] eqn:E2.
      * apply check_justified in E2 as (Hinv2 & Hg2 & Hm); [|by apply owner_fits|done].
        apply IH in H as (Hinv' & Hg' & Hall); [|done].
        split; [done|].
        split; [exact (grown_trans _ _ _ (grown_trans _ _ _ Hg1 Hg2) Hg')|].
        intros id' Hin. apply elem_of_cons in Hin as [->|Hin]; [|by apply Hall].
        right. right.
        eapply meets_grown; [by apply owner_fits|exact Hg'|by apply Hm].
      * by destruct (get_active id), (get_owner id).
      * done.
Qed.

End Justified.

Lemma approvals_wf (pts_address : public_key_type -> bool -> Z -> address)
    (address_of_key : public_key_type -> address)
    (available_keys : gset public_key_type) (ids : list account_id_type) :
  forall s,
    address_sigs_wf pts_address address_of_key available_keys s ->
    address_sigs_wf pts_address address_of_key available_keys
      (fold_left (fun s' id => set_approved (union {[id]}) s') ids s).
Proof.
  induction ids as [|id ids IH]; intros s Hwf; cbn [fold_left]; [done|].
  by apply IH.
Qed.

Section VerifyAuthoritySound.

Variable pts_address : public_key_type -> bool -> Z -> address.
Variable address_of_key : public_key_type -> address.
Variables GRAPHENE_TEMP_ACCOUNT GRAPHENE_COMMITTEE_ACCOUNT : account_id_type.
Variable operation : Type.
Variable rejected_predicate_map : Type.
Variable no_rejections : rejected_predicate_map.
Variable operation_get_required_authorities :
  operation -> bool -> required -> required.
Variables get_active get_owner : account_id_type -> option authority.
Variable get_custom : custom_authority_lookup operation rejected_predicate_map.
Variables allow_non_immediate_owner ignore_custom_operation_required_auths : bool.
Variable max_recursion_depth : Z.

Hypothesis no_custom : forall id op rejected, (get_custom id op rejected).1 = [].
Hypothesis active_fits : forall id auth, get_active id = Some auth -> authority_fits auth.
Hypothesis owner_fits : forall id auth, get_owner id = Some auth -> authority_fits auth.

Local Abbreviation verify_authority :=
  (verify_authority pts_address address_of_key GRAPHENE_TEMP_ACCOUNT
     GRAPHENE_COMMITTEE_ACCOUNT operation rejected_predicate_map no_rejections
     operation_get_required_authorities get_active get_owner get_custom
     allow_non_immediate_owner ignore_custom_operation_required_auths
     max_recursion_depth).
Local Abbreviation required_of :=
  (required_of operation operation_get_required_authorities
     ignore_custom_operation_required_auths).
Local Abbreviation meets := (meets pts_address address_of_key).

(** X16.  When no custom authority is viable, the weights of the
    authorities involved cannot overflow the 32 bit total and
    [verify_authority] returns, there is a state in which exactly the given
    keys are consumed, every approval is the temporary account, one of the
    caller or backed by the account's authority, and every requirement of
    the operations is met: each other authority, each required owner
    account by the caller's owner approval or its owner authority, and each
    required active account by an approval of the caller or its active or
    owner authority. *)
Theorem verify_authority_sound (ops : list operation)
    (sigs : gset public_key_type) (allow_committee : bool)
    (active_aprovals owner_approvals : gset account_id_type) :
  Forall authority_fits (other (required_of ops ∅ nothing_required).2) ->
  verify_authority ops sigs allow_committee active_aprovals owner_approvals
    = Returns tt ->
  exists s,
    (forall k, consumed s k = true <-> k ∈ sigs)
    /\ justified pts_address address_of_key get_active get_owner
         allow_non_immediate_owner
         ({[GRAPHENE_TEMP_ACCOUNT]} ∪ active_aprovals ∪ owner_approvals) s
    /\ (forall auth, auth ∈ other (required_of ops ∅ nothing_required).2 ->
          meets s (Some auth))
    /\ (forall id, id ∈ owner (required_of ops ∅ nothing_required).2 ->
          id ∈ owner_approvals \/ meets s (get_owner id))
    /\ (forall id, id ∈ (required_of ops ∅ nothing_required).1 ->
          id ∈ {[GRAPHENE_TEMP_ACCOUNT]} ∪ active_aprovals ∪ owner_approvals
          \/ meets s (get_active id) \/ meets s (get_owner id)).
Proof using no_custom active_fits owner_fits.
  intros Hother H. unfold verify_authority in H.
  destruct (requirement_checks _ _ _ _ _ _ _ _ _ _ _ _ _ _ ops sigs allow_committee
              active_aprovals owner_approvals) as [s| |] eqn:E; [|done..].
  pose proof (requirement_checks_keep_signatures _ _ _ _ _ _ _ _ _ _ _ _ _ _ _ _ _ _ _ _ E)
    as Hdom.
  destruct (remove_unused_signatures s).1 eqn:Er; [done|]. clear H.
  pose proof (proj1 (remove_unused_signatures_false s) Er) as Hall.
  rewrite (requirement_checks_no_custom _ _ _ _ _ _ _ _ _ _ _ _ _ _ no_custom) in E.
  cbv zeta in E. destruct (_ && _); [done|].
  set (initial := {[GRAPHENE_TEMP_ACCOUNT]} ∪ active_aprovals ∪ owner_approvals) in *.
  match type of E with
  | match other_loop _ _ _ _ _ _ _ _ ?s0 with _ => _ end = _ =>
      assert (address_sigs_wf pts_address address_of_key ∅ s0
              /\ justified pts_address address_of_key get_active get_owner
                   allow_non_immediate_owner initial s0) as Hinv0
  end.
  { split; [by do 2 apply approvals_wf|].
    intros id Hid. left. revert Hid.
    rewrite !approvals_approved, !list_to_set_in_order. cbn.
    unfold initial. clear. set_solver. }
  destruct (other_loop _ _ _ _ _ _ _ _ _) as [s2| |] eqn:E2; [|done..].
  apply (other_loop_sound _ _ _ _ _ _ initial _ active_fits owner_fits _ Hother)
    in E2 as (Hinv2 & Hg2 & Ho2); [|done].
  destruct (owner_loop _ _ _ _ _ _ _ _ _ s2) as [s3| |] eqn:E3; [|done..].
  apply (owner_loop_sound _ _ _ _ _ _ initial _ active_fits owner_fits)
    in E3 as (Hinv3 & Hg3 & Ho3); [|done].
  apply (active_loop_sound _ _ _ _ _ _ initial _ active_fits owner_fits)
    in E as (Hinv & Hg & Ha); [|done].
  exists s. split; [|split; [apply Hinv|split; [|split]]].
  - intros k. unfold consumed. rewrite bool_decide_eq_true, <- Hdom. split.
    + intros Hk. by apply elem_of_dom_2 in Hk.
    + intros [b Hk]%elem_of_dom. by rewrite (Hall k b Hk) in Hk.
  - intros auth Hin.
    assert (authority_fits auth) as Hfit.
    { by apply (proj1 (Forall_forall _ _) Hother). }
    eapply meets_grown; [by intros ? [= <-]| |by apply Ho2].
    exact (grown_trans _ _ _ Hg3 Hg).
  - intros id Hin. apply elem_of_in_order in Hin.
    destruct (Ho3 id Hin) as [?|Hm]; [by left|right].
    eapply meets_grown; [by apply owner_fits|exact Hg|done].
  - intros id Hin. apply elem_of_in_order in Hin. by apply Ha.
Qed.

End VerifyAuthoritySound.

(** ** The properties above on the example data *)

Ltac example_fits :=
  split;
  [ unfold authority_ok, is_u32, u32_modulus, weight_ok; cbn;
    repeat split; try lia; repeat constructor; cbn; lia
  | vm_compute; reflexivity ].

Lemma ex_chain_active_fits (id : account_id_type) (auth : authority) :
  ex_chain_active id = Some auth -> authority_fits auth.
Proof.
  unfold ex_chain_active. repeat case_decide; intros [= <-]; example_fits.
Qed.

Lemma ex_chain_owner_fits (id : account_id_type) (auth : authority) :
  ex_chain_owner id = Some auth -> authority_fits auth.
Proof. intros [=]. Qed.

Lemma ex_get_owner_fits (id : account_id_type) (auth : authority) :
  ex_get_owner id = Some auth -> authority_fits auth.
Proof. intros [= <-]. example_fits. Qed.

Lemma verify_authority_committee_witness :
  verify_authority ex_pts_address ex_address_of_key ex_temp_account
    ex_committee_account ex_operation unit tt ex_get_required
    ex_chain_active ex_get_owner (fun id op rejected => ([], rejected)) false false 2
    [requires_active 23%N; requires_active ex_committee_account] {[1%N]} false
    {[ex_committee_account]} ∅
  = Throws invalid_committee_approval.
Proof.
  apply (verify_authority_committee ex_pts_address ex_address_of_key
           ex_temp_account ex_committee_account ex_operation unit tt
           ex_get_required ex_chain_active ex_get_owner
           (fun id op rejected => ([], rejected)) false false 2
           (fun id op rejected => eq_refl)
           [requires_active 23%N; requires_active ex_committee_account] {[1%N]}
           {[ex_committee_account]} ∅).
  apply (bool_decide_unpack _). vm_compute. exact I.
Defined.

Lemma verify_authority_approved_witness :
  verify_authority ex_pts_address ex_address_of_key ex_temp_account
    ex_committee_account ex_operation unit tt ex_get_required
    ex_chain_active ex_get_owner (fun id op rejected => ([], rejected)) false false 2
    [requires_active 21%N; requires_owner 22%N] ∅ false {[21%N]} {[22%N]}
  = (if decide ((∅ : gset public_key_type) = ∅) then Returns tt
     else Throws tx_irrelevant_sig).
Proof.
  apply (verify_authority_approved ex_pts_address ex_address_of_key
           ex_temp_account ex_committee_account ex_operation unit tt
           ex_get_required ex_chain_active ex_get_owner
           (fun id op rejected => ([], rejected)) false false 2
           (fun id op rejected => eq_refl)
           [requires_active 21%N; requires_owner 22%N] ∅ false {[21%N]} {[22%N]}).
  - reflexivity.
  - apply (bool_decide_unpack _). vm_compute. exact I.
  - apply (bool_decide_unpack _). vm_compute. exact I.
  - right. apply (bool_decide_unpack _). vm_compute. exact I.
Defined.

Lemma check_authority_justified_witness :
  justified ex_pts_address ex_address_of_key ex_chain_active ex_chain_owner true
    {[ex_temp_account]}
    (set_approved (union {[22%N]})
       (set_approved (union {[23%N]})
          (mark 1%N (new_sign_state ex_temp_account {[1%N]})))).
Proof.
  apply (check_authority_justified ex_pts_address ex_address_of_key
           ex_chain_active ex_chain_owner true ∅ {[ex_temp_account]} 2
           ex_chain_active_fits ex_chain_owner_fits
           (Some (delegate_to 22%N)) 0
           (new_sign_state ex_temp_account {[1%N]}) true).
  - exact I.
  - intros id Hid. left. exact Hid.
  - vm_compute. reflexivity.
Defined.

Lemma verify_authority_sound_witness :
  exists s,
    (forall k, consumed s k = true <-> k ∈ ({[1%N]} : gset public_key_type))
    /\ justified ex_pts_address ex_address_of_key ex_chain_active ex_get_owner false
         ({[ex_temp_account]} ∪ ∅ ∪ ∅) s
    /\ (forall auth,
          auth ∈ other (required_of ex_operation ex_get_required false
                          [requires_active 22%N] ∅ nothing_required).2 ->
          meets ex_pts_address ex_address_of_key s (Some auth))
    /\ (forall id,
          id ∈ owner (required_of ex_operation ex_get_required false
                        [requires_active 22%N] ∅ nothing_required).2 ->
          id ∈ (∅ : gset account_id_type)
          \/ meets ex_pts_address ex_address_of_key s (ex_get_owner id))
    /\ (forall id,
          id ∈ (required_of ex_operation ex_get_required false
                  [requires_active 22%N] ∅ nothing_required).1 ->
          id ∈ ({[ex_temp_account]} ∪ ∅ ∪ ∅ : gset account_id_type)
          \/ meets ex_pts_address ex_address_of_key s (ex_chain_active id)
          \/ meets ex_pts_address ex_address_of_key s (ex_get_owner id)).
Proof.
  apply (verify_authority_sound ex_pts_address ex_address_of_key
           ex_temp_account ex_committee_account ex_operation unit tt
           ex_get_required ex_chain_active ex_get_owner
           (fun id op rejected => ([], rejected)) false false 2
           (fun id op rejected => eq_refl)
           ex_chain_active_fits ex_get_owner_fits
           [requires_active 22%N] {[1%N]} false ∅ ∅).
  - constructor.
  - vm_compute. reflexivity.
Defined.

(** ** The recursion bound *)

Lemma if_true_then {A} (b : bool) (x y : A) :
  b = true -> (if b then x else y) = x.
Proof. by intros ->. Qed.

Lemma if_false_else {A} (b : bool) (x y : A) :
  b <> true -> (if b then x else y) = y.
Proof. by destruct b. Qed.

Section RecursionBound.

Variable pts_address : public_key_type -> bool -> Z -> address.
Variable address_of_key : public_key_type -> address.
Variables get_active get_owner : account_id_type -> option authority.
Variable allow_non_immediate_owner : bool.
Variable available_keys : gset public_key_type.

Local Abbreviation check_authority_at :=
  (check_authority_at pts_address address_of_key get_active get_owner
     allow_non_immediate_owner available_keys).
Local Abbreviation key_auths_loop := (key_auths_loop available_keys).
Local Abbreviation address_auths_loop :=
  (address_auths_loop pts_address address_of_key available_keys).
Local Abbreviation signed_by_address :=
  (signed_by_address pts_address address_of_key available_keys).
Local Abbreviation address_sigs_wf :=
  (address_sigs_wf pts_address address_of_key available_keys).
Local Abbreviation derived_addresses := (derived_addresses pts_address address_of_key).
Local Abbreviation signers := (signers available_keys).
Local Abbreviation address_in := (address_in pts_address address_of_key).
Local Abbreviation signed_weight := (signed_weight pts_address address_of_key).
Local Abbreviation gives_no_way := (gives_no_way pts_address address_of_key).
Local Abbreviation addresses_derived := (addresses_derived pts_address address_of_key).
Local Abbreviation delegation_chain :=
  (delegation_chain pts_address address_of_key get_active get_owner
     allow_non_immediate_owner).
Local Abbreviation consulted :=
  (consulted get_active get_owner allow_non_immediate_owner).

(** The state has well formed tables and [keys] as its signing keys. *)
Local Abbreviation sees keys s := (address_sigs_wf s /\ signers s = keys).

Lemma address_in_true (keys : gset public_key_type) (a : address) :
  address_in keys a = true
  <-> exists k, k ∈ keys /\ a ∈ derived_addresses k.
Proof.
  unfold address_in. rewrite existsb_exists. split.
  - intros (k & Hk & Ha). exists k.
    apply list_elem_of_In, elem_of_in_order in Hk.
    by apply bool_decide_eq_true_1 in Ha.
  - intros (k & Hk & Ha). exists k. split.
    + by apply list_elem_of_In, elem_of_in_order.
    + by apply bool_decide_eq_true_2.
Qed.

Lemma signed_by_key_sees (keys : gset public_key_type) (k : public_key_type)
    (s : sign_state) (b : bool) (s' : sign_state) :
  sees keys s -> signed_by_key available_keys k s = Ok b s' ->
  sees keys s' /\ b = key_in keys k.
Proof.
  intros [Hwf <-] H. split; [split|].
  - by eapply signed_by_key_wf.
  - revert H. unfold signed_by_key, signers.
    destruct (provided_signatures s !! k) as [v|] eqn:E; [|case_decide as Hav];
      intros [= <- <-]; try done; cbn; rewrite dom_insert_L.
    + apply elem_of_dom_2 in E. clear -E. set_solver.
    + clear -Hav. set_solver.
  - revert H. unfold signed_by_key, key_in, signers.
    destruct (provided_signatures s !! k) as [v|] eqn:E; [|case_decide as Hav];
      intros [= <- <-].
    + symmetry. apply bool_decide_eq_true_2. apply elem_of_dom_2 in E.
      clear -E. set_solver.
    + symmetry. apply bool_decide_eq_true_2. clear -Hav. set_solver.
    + symmetry. apply bool_decide_eq_false_2. apply not_elem_of_dom in E.
      clear -E Hav. set_solver.
Qed.

Lemma signed_by_address_sees (keys : gset public_key_type) (a : address)
    (s : sign_state) (b : bool) (s' : sign_state) :
  sees keys s -> signed_by_address a s = Ok b s' ->
  sees keys s' /\ b = true /\ address_in keys a = true.
Proof.
  intros [Hwf <-] H.
  apply (signed_by_address_wf _ _ _ a s Hwf) in H
    as (-> & Hwf' & k & Hk & Ha & ->).
  assert (k ∈ signers s) as Hin by (unfold signers; clear -Hk; set_solver).
  split; [split; [done|]|].
  - unfold signers in *. cbn. rewrite dom_insert_L, ensure_address_sigs_provided.
    clear -Hin. set_solver.
  - split; [done|]. apply address_in_true. eauto.
Qed.

Lemma signed_by_address_returns (keys : gset public_key_type) (a : address)
    (s : sign_state) :
  sees keys s -> address_in keys a = true ->
  exists s', signed_by_address a s = Ok true s'.
Proof.
  intros [Hwf <-] Ha. apply address_in_true in Ha as (k & Hk & Ha).
  apply (signed_by_address_wf _ _ _ a s Hwf). exists k. split; [|done].
  unfold signers in Hk. clear -Hk. set_solver.
Qed.

Lemma signed_by_address_missed (keys : gset public_key_type) (a : address)
    (s : sign_state) :
  sees keys s -> address_in keys a = false -> signed_by_address a s = Undefined.
Proof.
  intros Hs Ha. destruct (signed_by_address a s) as [b s'|] eqn:E; [|done].
  apply (signed_by_address_sees keys) in E as (_ & _ & Hin); [|done].
  by rewrite Hin in Ha.
Qed.

(** *** The two loops over keys and addresses *)

(** A loop whose test answers [sat] ends with the weight of the entries
    [sat] holds of, or returns when that weight reaches the threshold. *)
Lemma signed_loop_weight {A} (signed_by : A -> sign_state -> result bool)
    (sat : A -> bool) (R : sign_state -> Prop) (threshold : Z)
    (l : list (A * Z)) :
  (forall k s b s', R s -> signed_by k s = Ok b s' -> R s' /\ b = sat k) ->
  Forall (fun e => weight_ok e.2) l ->
  forall total s e s',
    R s -> 0 <= total < threshold -> total + sum_weights l < u32_modulus ->
    signed_loop signed_by threshold l total s = Ok e s' ->
    R s' /\ match e with
            | Returned_true => threshold <= total + weight_where sat l
            | Fell_through t => t = total + weight_where sat l /\ t < threshold
            end.
Proof.
  intros Hstep. induction 1 as [|k l Hk Hl IH];
    intros total s e s' HR Ht Hwrap H; cbn [signed_loop] in H.
  - injection H as <- <-. split; [done|]. cbn. lia.
  - rewrite sum_weights_cons in Hwrap. rewrite weight_where_cons.
    pose proof (sum_weights_nonneg l Hl). pose proof (weight_where_nonneg sat l Hl).
    unfold weight_ok in Hk.
    destruct (signed_by k.1 s) as [r s1|] eqn:E; [|done]. cbn [bind] in H.
    apply Hstep in E as [HR1 ->]; [|done].
    destruct (sat k.1).
    + rewrite u32_small in H by lia.
      destruct (threshold <=? total + k.2) eqn:Eth.
      * injection H as <- <-. apply Z.leb_le in Eth. split; [done|]. lia.
      * apply Z.leb_gt in Eth. apply IH in H as [HR' He]; [|done|lia..].
        split; [done|]. destruct e; lia.
    + apply IH in H as [HR' He]; [|done|lia..].
      split; [done|]. destruct e; lia.
Qed.

Lemma signed_loop_returns {A} (signed_by : A -> sign_state -> result bool)
    (R : sign_state -> Prop) (threshold : Z) (l : list (A * Z)) :
  (forall k s b s', R s -> signed_by k s = Ok b s' -> R s') ->
  (forall k s, R s -> k ∈ l.*1 -> exists b s', signed_by k s = Ok b s') ->
  forall total s, R s ->
    exists e s', signed_loop signed_by threshold l total s = Ok e s'.
Proof.
  intros Hstep. induction l as [|k l IH]; intros Hdef total s HR;
    cbn [signed_loop]; [eauto|].
  destruct (Hdef k.1 s HR) as (b & s1 & E); [cbn; constructor|].
  rewrite E. cbn [bind]. apply Hstep in E; [|done].
  assert (forall t, exists e s', signed_loop signed_by threshold l t s1 = Ok e s')
    as Hrest.
  { intros t. apply IH; [|done]. intros k' s0 HR0 Hin. apply Hdef; [done|].
    cbn. by constructor. }
  destruct b; [destruct (_ <=? _)|]; eauto.
Qed.

(** A loop that cannot reach the threshold comes to every entry: an entry
    on which the test has no defined result leaves the loop without one. *)
Lemma signed_loop_missed {A} (signed_by : A -> sign_state -> result bool)
    (sat : A -> bool) (R : sign_state -> Prop) (threshold : Z)
    (l : list (A * Z)) (k0 : A) :
  (forall k s b s', R s -> signed_by k s = Ok b s' -> R s' /\ b = sat k) ->
  (forall s, R s -> signed_by k0 s = Undefined) ->
  Forall (fun e => weight_ok e.2) l ->
  k0 ∈ l.*1 ->
  forall total s,
    R s -> 0 <= total -> total + weight_where sat l < threshold ->
    total + sum_weights l < u32_modulus ->
    signed_loop signed_by threshold l total s = Undefined.
Proof.
  intros Hstep Hmiss. induction 1 as [|k l Hk Hl IH];
    intros Hin total s HR Ht Hlow Hwrap; cbn [signed_loop].
  - by apply elem_of_nil in Hin.
  - rewrite sum_weights_cons in Hwrap. rewrite weight_where_cons in Hlow.
    pose proof (sum_weights_nonneg l Hl). pose proof (weight_where_nonneg sat l Hl).
    unfold weight_ok in Hk.
    destruct (signed_by k.1 s) as [r s1|] eqn:E; [|done]. cbn [bind].
    assert (k0 ∈ l.*1) as Hin'.
    { cbn in Hin. apply elem_of_cons in Hin as [->|Hin]; [|done].
      by rewrite (Hmiss s HR) in E. }
    apply Hstep in E as [HR1 ->]; [|done].
    destruct (sat k.1).
    + rewrite u32_small by lia.
      assert (threshold <=? total + k.2 = false) as -> by (apply Z.leb_gt; lia).
      apply IH; [done..|lia|lia|lia].
    + apply IH; [done..|lia|lia].
Qed.

Lemma key_auths_loop_weight (keys : gset public_key_type) (threshold : Z)
    (l : list (public_key_type * Z)) (total : Z) (s : sign_state) :
  Forall (fun e => weight_ok e.2) l ->
  sees keys s -> 0 <= total < threshold -> total + sum_weights l < u32_modulus ->
  exists e s',
    key_auths_loop threshold l total s = Ok e s'
    /\ sees keys s' /\ approved_by s' = approved_by s
    /\ match e with
       | Returned_true => threshold <= total + weight_where (key_in keys) l
       | Fell_through t =>
           t = total + weight_where (key_in keys) l /\ t < threshold
       end.
Proof.
  intros Hl Hs Ht Hwrap.
  destruct (key_auths_loop_defined available_keys threshold l total s)
    as (e & s' & H).
  exists e, s'. split; [done|].
  pose proof (signed_loop_approved _ threshold l
                (signed_by_key_approved available_keys) _ _ _ _ H) as Hap.
  apply (signed_loop_weight _ (key_in keys) (fun s0 => sees keys s0)) in H
    as [Hs' He]; [done| |done..].
  intros k s0 b s0'. apply signed_by_key_sees.
Qed.

Lemma address_auths_loop_weight (keys : gset public_key_type) (threshold : Z)
    (l : list (address * Z)) (total : Z) (s : sign_state) (e : loop_exit)
    (s' : sign_state) :
  Forall (fun e => weight_ok e.2) l ->
  sees keys s -> 0 <= total < threshold -> total + sum_weights l < u32_modulus ->
  address_auths_loop threshold l total s = Ok e s' ->
  sees keys s' /\ approved_by s' = approved_by s
  /\ match e with
     | Returned_true => threshold <= total + weight_where (address_in keys) l
     | Fell_through t =>
         t = total + weight_where (address_in keys) l /\ t < threshold
     end.
Proof.
  intros Hl Hs Ht Hwrap H.
  pose proof (signed_loop_approved _ threshold l
                (signed_by_address_approved pts_address address_of_key
                   available_keys) _ _ _ _ H) as Hap.
  apply (signed_loop_weight _ (address_in keys) (fun s0 => sees keys s0)) in H
    as [Hs' He]; [done| |done..].
  intros k s0 b s0' Hs0 H0.
  apply (signed_by_address_sees keys) in H0 as (? & -> & ->); done.
Qed.

Lemma address_auths_loop_returns (keys : gset public_key_type) (threshold : Z)
    (l : list (address * Z)) (total : Z) (s : sign_state) :
  Forall (fun e => address_in keys e.1 = true) l ->
  sees keys s ->
  exists e s', address_auths_loop threshold l total s = Ok e s'.
Proof.
  intros Hl Hs.
  apply (signed_loop_returns _ (fun s0 => sees keys s0)); [| |done].
  - intros k s0 b s0' Hs0 H. by apply (signed_by_address_sees keys) in H as [? _].
  - intros a s0 Hs0 Hin. exists true.
    apply (signed_by_address_returns keys); [done|].
    apply list_elem_of_fmap in Hin as (e & -> & He).
    by apply (proj1 (Forall_forall _ _) Hl).
Qed.

Lemma address_auths_loop_missed (keys : gset public_key_type) (threshold : Z)
    (l : list (address * Z)) (total : Z) (s : sign_state) :
  Forall (fun e => weight_ok e.2) l ->
  Exists (fun e => address_in keys e.1 = false) l ->
  sees keys s -> 0 <= total ->
  total + weight_where (address_in keys) l < threshold ->
  total + sum_weights l < u32_modulus ->
  address_auths_loop threshold l total s = Undefined.
Proof.
  intros Hl Hex Hs Ht Hlow Hwrap.
  apply Exists_exists in Hex as (e0 & Hin & Hmiss).
  apply (signed_loop_missed _ (address_in keys) (fun s0 => sees keys s0)
           threshold l e0.1); try done.
  - intros k s0 b s0' Hs0 H0.
    apply (signed_by_address_sees keys) in H0 as (? & -> & ->); done.
  - intros s0 Hs0. by apply (signed_by_address_missed keys).
  - apply list_elem_of_fmap. eauto.
Qed.

(** *** One authority *)

Lemma check_authority_at_eq (n : nat) (au : authority) (s : sign_state) :
  check_authority_at n (Some au) s
  = let threshold := weight_threshold au in
    let* (e1, s1) := key_auths_loop threshold (key_auths au) 0 s in
    match e1 with
    | Returned_true => Ok true s1
    | Fell_through w1 =>
        let* (e2, s2) := address_auths_loop threshold (address_auths au) w1 s1 in
        match e2 with
        | Returned_true => Ok true s2
        | Fell_through w2 =>
            let* (e3, s3) :=
              account_auths_loop
                match n with
                | O => None
                | S n' => Some (active_or_owner get_active get_owner
                                  allow_non_immediate_owner (check_authority_at n'))
                end
                threshold (account_auths au) w2 s2 in
            match e3 with
            | Returned_true => Ok true s3
            | Fell_through w3 => Ok (threshold <=? w3) s3
            end
        end
    end.
Proof. by destruct n. Qed.

Lemma authority_fits_weights (keys : gset public_key_type) (au : authority) :
  authority_fits au ->
  Forall (fun e => weight_ok e.2) (key_auths au)
  /\ Forall (fun e => weight_ok e.2) (address_auths au)
  /\ Forall (fun e => weight_ok e.2) (account_auths au)
  /\ 0 <= weight_where (key_in keys) (key_auths au) <= sum_weights (key_auths au)
  /\ 0 <= weight_where (address_in keys) (address_auths au)
       <= sum_weights (address_auths au)
  /\ 0 <= sum_weights (account_auths au)
  /\ sum_weights (key_auths au) + sum_weights (address_auths au)
     + sum_weights (account_auths au) < u32_modulus.
Proof.
  intros [(_ & Hk & Ha & Hc) Hsum]. unfold total_listed_weight in Hsum.
  pose proof (weight_where_nonneg (key_in keys) _ Hk).
  pose proof (weight_where_le_sum (key_in keys) _ Hk).
  pose proof (weight_where_nonneg (address_in keys) _ Ha).
  pose proof (weight_where_le_sum (address_in keys) _ Ha).
  pose proof (sum_weights_nonneg _ Hc).
  repeat split; try done; lia.
Qed.

(** An authority whose threshold the signing keys reach: a call that
    returns, returns [true]. *)
Lemma check_signed (keys : gset public_key_type) (n : nat) (au : authority)
    (s : sign_state) (b : bool) (s' : sign_state) :
  sees keys s -> authority_fits au ->
  0 < weight_threshold au <= signed_weight keys au ->
  check_authority_at n (Some au) s = Ok b s' -> b = true.
Proof.
  intros Hs Hfit Hth H. unfold signed_weight in Hth.
  destruct (authority_fits_weights keys au Hfit)
    as (Hk & Ha & Hc & Hwk & Hwa & Hsc & Hsum).
  rewrite check_authority_at_eq in H. cbv zeta in H.
  destruct (key_auths_loop_weight keys (weight_threshold au) (key_auths au) 0 s)
    as (e1 & s1 & E1 & Hs1 & _ & He1); [done|done|lia|lia|].
  rewrite E1 in H. cbn [bind] in H.
  destruct e1 as [|w1]; [by injection H as <- <-|]. destruct He1 as [-> Hlow].
  destruct (address_auths_loop _ _ _ s1) as [e2 s2|] eqn:E2; [|done].
  cbn [bind] in H.
  apply (address_auths_loop_weight keys) in E2 as (Hs2 & _ & He2);
    [|done|done|lia|lia].
  destruct e2 as [|w2]; [by injection H as <- <-|]. lia.
Qed.

Lemma check_signed_returns (keys : gset public_key_type) (n : nat) (au : authority)
    (s : sign_state) :
  sees keys s -> authority_fits au ->
  0 < weight_threshold au <= signed_weight keys au ->
  addresses_derived keys au ->
  exists s', check_authority_at n (Some au) s = Ok true s'.
Proof.
  intros Hs Hfit Hth Hder.
  assert (exists b s', check_authority_at n (Some au) s = Ok b s') as (b & s' & H).
  { destruct (authority_fits_weights keys au Hfit)
      as (Hk & Ha & Hc & Hwk & Hwa & Hsc & Hsum).
    rewrite check_authority_at_eq. cbv zeta.
    destruct (key_auths_loop_weight keys (weight_threshold au) (key_auths au) 0 s)
      as (e1 & s1 & E1 & Hs1 & _ & He1); [done|done|lia|lia|].
    rewrite E1. cbn [bind].
    destruct e1 as [|w1]; [eauto|]. destruct He1 as [-> Hlow].
    destruct Hder as [Hkeys|Hall]; [lia|].
    destruct (address_auths_loop_returns keys (weight_threshold au)
                (address_auths au)
                (0 + weight_where (key_in keys) (key_auths au)) s1 Hall Hs1)
      as (e2 & s2 & E2).
    rewrite E2. cbn [bind].
    apply (address_auths_loop_weight keys) in E2 as (Hs2 & _ & He2);
      [|done|done|lia|lia].
    destruct e2 as [|w2]; [eauto|]. unfold signed_weight in Hth. lia. }
  exists s'. by rewrite (check_signed keys n au s b s' Hs Hfit Hth H) in H.
Qed.

(** An authority whose threshold the signing keys do not reach: the first
    two loops end with the weight of the signing keys, in a state with the
    same signing keys and approvals, when a signing key derives every
    address listed; otherwise the call has no defined result. *)
Lemma check_unsigned (keys : gset public_key_type) (n : nat) (au : authority)
    (s : sign_state) :
  sees keys s -> authority_fits au ->
  signed_weight keys au < weight_threshold au ->
  (Forall (fun e => address_in keys e.1 = true) (address_auths au) ->
   exists s2,
     sees keys s2 /\ approved_by s2 = approved_by s
     /\ check_authority_at n (Some au) s
        = let* (e3, s3) :=
            account_auths_loop
              match n with
              | O => None
              | S n' => Some (active_or_owner get_active get_owner
                                allow_non_immediate_owner (check_authority_at n'))
              end
              (weight_threshold au) (account_auths au) (signed_weight keys au) s2 in
          match e3 with
          | Returned_true => Ok true s3
          | Fell_through w3 => Ok (weight_threshold au <=? w3) s3
          end)
  /\ (Exists (fun e => address_in keys e.1 = false) (address_auths au) ->
      check_authority_at n (Some au) s = Undefined).
Proof.
  intros Hs Hfit Hth. unfold signed_weight in *.
  destruct (authority_fits_weights keys au Hfit)
    as (Hk & Ha & Hc & Hwk & Hwa & Hsc & Hsum).
  rewrite check_authority_at_eq. cbv zeta.
  destruct (key_auths_loop_weight keys (weight_threshold au) (key_auths au) 0 s)
    as (e1 & s1 & E1 & Hs1 & Hap1 & He1); [done|done|lia|lia|].
  rewrite E1. cbn [bind].
  destruct e1 as [|w1]; [lia|]. destruct He1 as [-> Hlow]. split.
  - intros Hall.
    destruct (address_auths_loop_returns keys (weight_threshold au)
                (address_auths au)
                (0 + weight_where (key_in keys) (key_auths au)) s1 Hall Hs1)
      as (e2 & s2 & E2).
    rewrite E2. cbn [bind].
    apply (address_auths_loop_weight keys) in E2 as (Hs2 & Hap2 & He2);
      [|done|done|lia|lia].
    destruct e2 as [|w2]; [lia|]. destruct He2 as [-> _].
    exists s2. split; [done|]. split; [by rewrite Hap2|].
    by rewrite Z.add_0_l.
  - intros Hex.
    rewrite (address_auths_loop_missed keys); [done|done|done|done|lia|lia|lia].
Qed.

(** The same for a call that returns. *)
Lemma check_unsigned_returned (keys : gset public_key_type) (n : nat)
    (au : authority) (s : sign_state) (b : bool) (s' : sign_state) :
  sees keys s -> authority_fits au ->
  signed_weight keys au < weight_threshold au ->
  check_authority_at n (Some au) s = Ok b s' ->
  Forall (fun e => address_in keys e.1 = true) (address_auths au).
Proof.
  intros Hs Hfit Hth H.
  destruct (decide (Forall (fun e => address_in keys e.1 = true) (address_auths au)))
    as [Hall|Hnot]; [done|].
  apply not_Forall_Exists in Hnot; [|intros e; apply _].
  assert (Exists (fun e => address_in keys e.1 = false) (address_auths au)) as Hex.
  { eapply Exists_impl; [exact Hnot|]. intros e He. cbn in He.
    by destruct (address_in keys e.1). }
  by rewrite (proj2 (check_unsigned keys n au s Hs Hfit Hth) Hex) in H.
Qed.

Lemma check_authority_at_sees (keys : gset public_key_type) (n : nat)
    (au : option authority) (s : sign_state) (b : bool) (s' : sign_state) :
  sees keys s -> check_authority_at n au s = Ok b s' -> sees keys s'.
Proof.
  intros [Hwf <-] H.
  pose proof (check_authority_at_marks _ _ _ _ _ _ _ _ _ _ _ H) as Hm.
  apply check_authority_at_only_available in H as [Hwf' Hadd]; [|done].
  split; [done|]. unfold signers. apply set_eq. intros k.
  rewrite !elem_of_union. split.
  - intros [Hk|Hk]; [|by right]. destruct (Hadd k Hk) as [?|[? _]]; [by left|by right].
  - intros [Hk|Hk]; [|by right]. left.
    apply elem_of_dom in Hk as [v Hk]. apply Hm in Hk as (v' & Hk & _).
    by apply elem_of_dom_2 in Hk.
Qed.

(** An owner authority that gives no other way. *)
Lemma check_no_way (keys : gset public_key_type) (n : nat) (o : option authority)
    (s : sign_state) :
  sees keys s -> gives_no_way keys o ->
  (forall b s', check_authority_at n o s = Ok b s' -> b = false)
  /\ ((forall ao, o = Some ao -> addresses_derived keys ao) ->
      exists s', check_authority_at n o s = Ok false s').
Proof.
  intros Hs Hno. destruct o as [ao|]; [|split; [|by destruct n; eauto]].
  2: { intros b s'. destruct n; by intros [= <- <-]. }
  destruct (Hno ao eq_refl) as (Hfit & Hacc & Hlow).
  destruct (authority_fits_weights keys ao Hfit)
    as (Hk & Ha & Hc & Hwk & Hwa & Hsc & Hsum).
  assert (Forall (fun e => address_in keys e.1 = true) (address_auths ao) ->
          exists s', check_authority_at n (Some ao) s = Ok false s') as Htotal.
  { intros Hall.
    destruct (proj1 (check_unsigned keys n ao s Hs Hfit Hlow) Hall)
      as (s2 & _ & _ & ->).
    rewrite Hacc. cbn [account_auths_loop bind].
    exists s2. f_equal. apply Z.leb_gt. lia. }
  split.
  - intros b s' H.
    pose proof (check_unsigned_returned keys n ao s b s' Hs Hfit Hlow H) as Hall.
    destruct (Htotal Hall) as (s'' & Hs''). rewrite Hs'' in H. by injection H as <- _.
  - intros Hder. apply Htotal.
    destruct (Hder ao eq_refl) as [Hkeys|Hall]; [|done].
    unfold signed_weight in Hlow. lia.
Qed.

(** *** Along a chain *)

(** One hop: the check of a delegating authority is the check of its
    delegate one level deeper. *)
Lemma check_hop (keys : gset public_key_type) (n : nat) (au : authority)
    (a : account_id_type) (w : Z) (s : sign_state) :
  sees keys s -> authority_fits au ->
  signed_weight keys au < weight_threshold au <= signed_weight keys au + w ->
  account_auths au = [(a, w)] ->
  a ∉ approved_by s ->
  Forall (fun e => address_in keys e.1 = true) (address_auths au) ->
  exists s2,
    sees keys s2 /\ approved_by s2 = approved_by s
    /\ check_authority_at n (Some au) s
       = match n with
         | O => Ok false s2
         | S n' =>
             let* (ok, s3) :=
               active_or_owner get_active get_owner allow_non_immediate_owner
                 (check_authority_at n') a s2 in
             if (ok : bool) then Ok true (set_approved (union {[a]}) s3)
             else Ok false s3
         end.
Proof.
  intros Hs Hfit [Hlow Hth] Hacc Ha Hall.
  destruct (authority_fits_weights keys au Hfit)
    as (Hk & Had & Hc & Hwk & Hwa & Hsc & Hsum).
  destruct (proj1 (check_unsigned keys n au s Hs Hfit Hlow) Hall)
    as (s2 & Hs2 & Hap2 & ->).
  exists s2. split; [done|]. split; [done|].
  rewrite Hacc in *. rewrite sum_weights_cons in Hsum, Hsc. cbn in Hsum, Hsc.
  apply Forall_cons in Hc as [Hw _]. unfold weight_ok in Hw. cbn in Hw.
  assert (weight_threshold au <=? signed_weight keys au = false) as Hno
    by (apply Z.leb_gt; lia).
  cbn [account_auths_loop fst snd]. rewrite decide_False by (by rewrite Hap2).
  destruct n as [|n]; cbn [bind]; [by rewrite Hno|].
  destruct (active_or_owner _ _ _ _ a s2) as [[|] s3|]; cbn [bind]; [| |done].
  - unfold signed_weight in *. rewrite u32_small by lia.
    assert (weight_threshold au
              <=? weight_where (key_in keys) (key_auths au)
                  + weight_where (address_in keys) (address_auths au) + w = true)
      as -> by (apply Z.leb_le; lia).
    done.
  - by rewrite Hno.
Qed.

Lemma consulted_hop (hops : nat) (au : authority) (a : account_id_type) (w : Z)
    (au' : authority) (P : authority -> Prop) :
  account_auths au = [(a, w)] -> get_active a = Some au' ->
  Forall P (consulted (S hops) au) ->
  P au
  /\ (allow_non_immediate_owner = true -> forall ao, get_owner a = Some ao -> P ao)
  /\ Forall P (consulted hops au').
Proof.
  intros Hacc Hact H.
  change (consulted (S hops) au)
    with (au :: match account_auths au with
                | [(a0, _)] =>
                    (if allow_non_immediate_owner
                     then match get_owner a0 with Some ao => [ao] | None => [] end
                     else [])
                    ++ match get_active a0 with
                       | Some au0 => consulted hops au0
                       | None => []
                       end
                | _ => []
                end) in H.
  rewrite Hacc, Hact in H. apply Forall_cons in H as [Hau H].
  apply Forall_app in H as [Hown H]. split; [done|]. split; [|done].
  intros -> ao Hao. rewrite Hao in Hown. by apply Forall_cons in Hown as [? _].
Qed.

(** With at least as many levels left as the chain has hops, a call that
    returns, returns [true]. *)
Lemma chain_followed_returned (keys : gset public_key_type)
    (approved : gset account_id_type) (hops : nat) (au : authority) :
  delegation_chain keys approved hops au ->
  forall n s b s',
    (hops <= n)%nat -> sees keys s -> approved_by s = approved ->
    check_authority_at n (Some au) s = Ok b s' -> b = true.
Proof.
  induction 1 as [au Hfit Hth
                 | hops au a w au' Hfit Hth Hacc Ha Hact Hown Hchain IH];
    intros n s b s' Hn Hs Hap H.
  - by eapply check_signed.
  - destruct n as [|n]; [lia|].
    pose proof (check_unsigned_returned keys _ au s b s' Hs Hfit (proj1 Hth) H)
      as Hall.
    destruct (check_hop keys (S n) au a w s Hs Hfit Hth Hacc) as (s2 & Hs2 & Hap2 & E);
      [by rewrite Hap|done|].
    rewrite E in H. clear E. unfold active_or_owner in H. rewrite Hact in H.
    destruct (check_authority_at n (Some au') s2) as [r s3|] eqn:E; [|done].
    cbn [bind] in H.
    apply IH in E; [|lia|done|by rewrite Hap2]. subst r.
    cbn [bind] in H. by injection H as <- _.
Qed.

(** With fewer levels left than the chain has hops, a call that returns,
    returns [false]. *)
Lemma chain_cut_returned (keys : gset public_key_type)
    (approved : gset account_id_type) (hops : nat) (au : authority) :
  delegation_chain keys approved hops au ->
  forall n s b s',
    (n < hops)%nat -> sees keys s -> approved_by s = approved ->
    check_authority_at n (Some au) s = Ok b s' -> b = false.
Proof.
  induction 1 as [au Hfit Hth
                 | hops au a w au' Hfit Hth Hacc Ha Hact Hown Hchain IH];
    intros n s b s' Hn Hs Hap H; [lia|].
  pose proof (check_unsigned_returned keys _ au s b s' Hs Hfit (proj1 Hth) H)
    as Hall.
  destruct (check_hop keys n au a w s Hs Hfit Hth Hacc) as (s2 & Hs2 & Hap2 & E);
    [by rewrite Hap|done|].
  rewrite E in H. clear E.
  destruct n as [|n]; [by injection H as <- _|].
  unfold active_or_owner in H. rewrite Hact in H.
  destruct (check_authority_at n (Some au') s2) as [r s3|] eqn:E; [|done].
  cbn [bind] in H.
  pose proof (check_authority_at_sees keys _ _ _ _ _ Hs2 E) as Hs3.
  apply IH in E; [|lia|done|by rewrite Hap2]. subst r.
  destruct (decide (allow_non_immediate_owner = true)) as [Hal|Hal].
  - rewrite (if_true_then _ _ _ Hal) in H.
    destruct (check_authority_at n (get_owner a) s3) as [r s4|] eqn:E4; [|done].
    cbn [bind] in H.
    apply (proj1 (check_no_way keys n (get_owner a) s3 Hs3 (Hown Hal))) in E4.
    subst r. by injection H as <- _.
  - rewrite (if_false_else _ _ _ Hal) in H. cbn [bind] in H.
    by injection H as <- _.
Qed.

(** When moreover no authority consulted lists an address that no signing
    key derives, the call returns. *)
Lemma chain_followed (keys : gset public_key_type)
    (approved : gset account_id_type) (hops : nat) (au : authority) :
  delegation_chain keys approved hops au ->
  Forall (addresses_derived keys) (consulted hops au) ->
  forall n s,
    (hops <= n)%nat -> sees keys s -> approved_by s = approved ->
    exists s', check_authority_at n (Some au) s = Ok true s'.
Proof.
  induction 1 as [au Hfit Hth
                 | hops au a w au' Hfit Hth Hacc Ha Hact Hown Hchain IH];
    intros Hder n s Hn Hs Hap.
  - apply (check_signed_returns keys); try done.
    exact (Forall_inv Hder).
  - destruct n as [|n]; [lia|].
    apply (consulted_hop hops au a w au' _ Hacc Hact) in Hder
      as (Hau & _ & Hrest).
    destruct (authority_fits_weights keys au Hfit) as (_ & _ & _ & _ & Hwa & _).
    assert (Forall (fun e => address_in keys e.1 = true) (address_auths au))
      as Hall.
    { destruct Hau as [Hkeys|Hall]; [|done]. unfold signed_weight in Hth. lia. }
    destruct (check_hop keys (S n) au a w s Hs Hfit Hth Hacc) as (s2 & Hs2 & Hap2 & ->);
      [by rewrite Hap|done|].
    unfold active_or_owner. rewrite Hact.
    destruct (IH Hrest n s2) as (s3 & ->); [lia|done|by rewrite Hap2|].
    cbn [bind]. eauto.
Qed.

Lemma chain_cut (keys : gset public_key_type)
    (approved : gset account_id_type) (hops : nat) (au : authority) :
  delegation_chain keys approved hops au ->
  Forall (addresses_derived keys) (consulted hops au) ->
  forall n s,
    (n < hops)%nat -> sees keys s -> approved_by s = approved ->
    exists s', check_authority_at n (Some au) s = Ok false s'.
Proof.
  induction 1 as [au Hfit Hth
                 | hops au a w au' Hfit Hth Hacc Ha Hact Hown Hchain IH];
    intros Hder n s Hn Hs Hap; [lia|].
  apply (consulted_hop hops au a w au' _ Hacc Hact) in Hder
    as (Hau & Howner & Hrest).
  destruct (authority_fits_weights keys au Hfit) as (_ & _ & _ & _ & Hwa & _).
  assert (Forall (fun e => address_in keys e.1 = true) (address_auths au))
    as Hall.
  { destruct Hau as [Hkeys|Hall]; [|done]. unfold signed_weight in Hth. lia. }
  destruct (check_hop keys n au a w s Hs Hfit Hth Hacc) as (s2 & Hs2 & Hap2 & ->);
    [by rewrite Hap|done|].
  destruct n as [|n]; [eauto|].
  unfold active_or_owner. rewrite Hact.
  destruct (IH Hrest n s2) as (s3 & E); [lia|done|by rewrite Hap2|].
  rewrite E. cbn [bind].
  pose proof (check_authority_at_sees keys _ _ _ _ _ Hs2 E) as Hs3.
  destruct (decide (allow_non_immediate_owner = true)) as [Hal|Hal].
  - rewrite (if_true_then _ _ _ Hal).
    destruct (proj2 (check_no_way keys n (get_owner a) s3 Hs3 (Hown Hal)))
      as (s4 & ->); [by apply Howner|].
    cbn [bind]. eauto.
  - rewrite (if_false_else _ _ _ Hal). cbn [bind]. eauto.
Qed.

(** An authority before the end of a chain that lists an address no
    signing key derives: the call has no defined result. *)
Lemma chain_address_missed (keys : gset public_key_type)
    (approved : gset account_id_type) (hops : nat) (au : authority) (n : nat)
    (s : sign_state) :
  delegation_chain keys approved (S hops) au ->
  sees keys s ->
  Exists (fun e => address_in keys e.1 = false) (address_auths au) ->
  check_authority_at n (Some au) s = Undefined.
Proof.
  intros Hchain Hs Hex.
  inversion Hchain as [|hops' au0 a w au' Hfit Hth Hacc Ha Hact Hown Hrest Eh Ea].
  exact (proj2 (check_unsigned keys n au s Hs Hfit (proj1 Hth)) Hex).
Qed.

Variable max_recursion : Z.

Local Abbreviation check_authority :=
  (check_authority pts_address address_of_key get_active get_owner
     allow_non_immediate_owner max_recursion available_keys).

(** C2.  On a delegation chain of exactly [max_recursion] hops a call of
    [check_authority] at depth 0 never returns [false], and on a chain of
    [max_recursion + 1] hops it never returns [true]: the delegate is
    skipped when [depth == max_recursion].  The call returns, with these
    results, when a signing key derives every address the authorities
    consulted list.  It does not return on every chain: when an authority
    before the end lists an address that no signing key derives,
    [signed_by] dereferences a past-the-end iterator and the call has no
    defined result. *)
Theorem check_authority_recursion_bound (au : authority) (s : sign_state) :
  is_u32 max_recursion ->
  address_sigs_wf s ->
  (delegation_chain (signers s) (approved_by s) (Z.to_nat max_recursion) au ->
     (forall b s', check_authority (Some au) 0 s = Ok b s' -> b = true)
     /\ (Forall (addresses_derived (signers s))
           (consulted (Z.to_nat max_recursion) au) ->
         exists s', check_authority (Some au) 0 s = Ok true s'))
  /\ (delegation_chain (signers s) (approved_by s)
        (S (Z.to_nat max_recursion)) au ->
      (forall b s', check_authority (Some au) 0 s = Ok b s' -> b = false)
      /\ (Forall (addresses_derived (signers s))
            (consulted (S (Z.to_nat max_recursion)) au) ->
          exists s', check_authority (Some au) 0 s = Ok false s'))
  /\ (forall hops,
        delegation_chain (signers s) (approved_by s) (S hops) au ->
        Exists (fun e => address_in (signers s) e.1 = false) (address_auths au) ->
        check_authority (Some au) 0 s = Undefined).
Proof.
  intros Hm Hwf. unfold check_authority, remaining.
  rewrite Z.sub_0_r, u32_small by exact Hm.
  assert (sees (signers s) s) as Hs by done.
  split; [|split].
  - intros Hchain. split.
    + intros b s'. by eapply chain_followed_returned.
    + intros Hder. by eapply chain_followed.
  - intros Hchain. split.
    + intros b s'. eapply chain_cut_returned; [exact Hchain|lia|done..].
    + intros Hder. eapply chain_cut; [exact Hchain|done|lia|done..].
  - intros hops Hchain Hex. by eapply chain_address_missed.
Qed.

(** X12.  The test that skips a delegate is [depth == max_recursion].  A
    call at a depth up to [max_recursion] follows a delegation chain, on
    which a signing key derives every address listed, for
    [max_recursion - depth] hops and no further.  A call at a depth above
    [max_recursion] is not cut off there: the depth has to wrap around the
    32 bit range before the test holds. *)
Theorem check_authority_depth (depth : Z) (hops : nat) (au : authority)
    (s : sign_state) :
  is_u32 depth -> is_u32 max_recursion ->
  address_sigs_wf s ->
  delegation_chain (signers s) (approved_by s) hops au ->
  Forall (addresses_derived (signers s)) (consulted hops au) ->
  (depth <= max_recursion ->
     (Z.of_nat hops <= max_recursion - depth ->
        exists s', check_authority (Some au) depth s = Ok true s')
     /\ (max_recursion - depth < Z.of_nat hops ->
           exists s', check_authority (Some au) depth s = Ok false s'))
  /\ (max_recursion < depth ->
      Z.of_nat hops <= u32_modulus - (depth - max_recursion) ->
      exists s', check_authority (Some au) depth s = Ok true s').
Proof.
  intros Hd Hm Hwf Hchain Hder. unfold check_authority, remaining, is_u32 in *.
  assert (sees (signers s) s) as Hs by done.
  split; [intros Hle; split|]; intros Hhops.
  - eapply chain_followed; [exact Hchain|done| |done..].
    rewrite u32_small by lia. lia.
  - eapply chain_cut; [exact Hchain|done| |done..].
    rewrite u32_small by lia. lia.
  - intros Hh. eapply chain_followed; [exact Hchain|done| |done..].
    unfold u32.
    replace ((max_recursion - depth) mod u32_modulus)
      with (max_recursion - depth + u32_modulus).
    + lia.
    + unfold u32_modulus in *. apply Z.mod_unique with (q := -1); lia.
Qed.

End RecursionBound.

(** *** The chain of the accounts 31, 32 and 33 *)



Lemma ex_deep_chain_0 :
  delegation_chain ex_pts_address ex_address_of_key ex_deep_active ex_deep_owner
    true (signers ∅ (new_sign_state ex_temp_account {[1%N]}))
    (approved_by (new_sign_state ex_temp_account {[1%N]})) 0 au_either.
Proof.
  apply chain_end; [example_fits|].
  split; [reflexivity|]. apply Z.leb_le. vm_compute. reflexivity.
Qed.

Lemma ex_deep_no_way (a : account_id_type) :
  gives_no_way ex_pts_address ex_address_of_key
    (signers ∅ (new_sign_state ex_temp_account {[1%N]})) (ex_deep_owner a).
Proof.
  intros ao [= <-]. split; [example_fits|]. split; [reflexivity|].
  apply Z.ltb_lt. vm_compute. reflexivity.
Qed.

Lemma ex_deep_chain_1 :
  delegation_chain ex_pts_address ex_address_of_key ex_deep_active ex_deep_owner
    true (signers ∅ (new_sign_state ex_temp_account {[1%N]}))
    (approved_by (new_sign_state ex_temp_account {[1%N]})) 1 (delegate_to 33%N).
Proof.
  apply (chain_hop _ _ _ _ _ _ _ 0 (delegate_to 33%N) 33%N 1 au_either).
  - example_fits.
  - split; [apply Z.ltb_lt|apply Z.leb_le]; vm_compute; reflexivity.
  - reflexivity.
  - apply (bool_decide_unpack _). vm_compute. exact I.
  - reflexivity.
  - intros _. apply ex_deep_no_way.
  - exact ex_deep_chain_0.
Qed.

Lemma ex_deep_chain_2 :
  delegation_chain ex_pts_address ex_address_of_key ex_deep_active ex_deep_owner
    true (signers ∅ (new_sign_state ex_temp_account {[1%N]}))
    (approved_by (new_sign_state ex_temp_account {[1%N]})) 2 au_mixed.
Proof.
  apply (chain_hop _ _ _ _ _ _ _ 1 au_mixed 32%N 1 (delegate_to 33%N)).
  - example_fits.
  - split; [apply Z.ltb_lt|apply Z.leb_le]; vm_compute; reflexivity.
  - reflexivity.
  - apply (bool_decide_unpack _). vm_compute. exact I.
  - reflexivity.
  - intros _. apply ex_deep_no_way.
  - exact ex_deep_chain_1.
Qed.

Lemma ex_deep_chain_3 (au : authority) :
  authority_fits au ->
  address_auths au = [] \/ address_auths au = [(5%N, 1)] ->
  key_auths au = [] -> account_auths au = [(31%N, 1)] -> weight_threshold au = 1 ->
  delegation_chain ex_pts_address ex_address_of_key ex_deep_active ex_deep_owner
    true (signers ∅ (new_sign_state ex_temp_account {[1%N]}))
    (approved_by (new_sign_state ex_temp_account {[1%N]})) 3 au.
Proof.
  intros Hfit Haddr Hkeys Hacc Hth.
  apply (chain_hop _ _ _ _ _ _ _ 2 au 31%N 1 au_mixed).
  - exact Hfit.
  - unfold signed_weight. rewrite Hkeys, Hth.
    destruct Haddr as [-> | ->];
      (split; [apply Z.ltb_lt|apply Z.leb_le]); vm_compute; reflexivity.
  - exact Hacc.
  - apply (bool_decide_unpack _). vm_compute. exact I.
  - reflexivity.
  - intros _. apply ex_deep_no_way.
  - exact ex_deep_chain_2.
Qed.

Ltac example_consulted :=
  vm_compute;
  repeat (apply Forall_cons_2; [first [by left | by right]|]);
  apply Forall_nil_2.

Lemma ex_deep_derived (hops : nat) (au : authority) :
  Forall (fun au' => address_auths au' = [] \/ au' = au_mixed)
         (consulted ex_deep_active ex_deep_owner true hops au) ->
  Forall (addresses_derived ex_pts_address ex_address_of_key
            (signers ∅ (new_sign_state ex_temp_account {[1%N]})))
         (consulted ex_deep_active ex_deep_owner true hops au).
Proof.
  intros Hall. eapply Forall_impl; [exact Hall|].
  intros au' [H| ->]; right.
  - rewrite H. constructor.
  - repeat constructor.
Qed.

Lemma check_authority_recursion_bound_witness :
  (exists s', ex_deep_check 2 au_mixed 0 (new_sign_state ex_temp_account {[1%N]})
              = Ok true s')
  /\ (exists s', ex_deep_check 2 (delegate_to 31%N) 0
                   (new_sign_state ex_temp_account {[1%N]}) = Ok false s')
  /\ ex_deep_check 2 au_stray 0 (new_sign_state ex_temp_account {[1%N]})
     = Undefined.
Proof.
  assert (is_u32 2) as Hm by (unfold is_u32, u32_modulus; lia).
  split; [|split].
  - apply (proj1 (check_authority_recursion_bound ex_pts_address ex_address_of_key
                    ex_deep_active ex_deep_owner true ∅ 2 au_mixed
                    (new_sign_state ex_temp_account {[1%N]}) Hm I));
      [exact ex_deep_chain_2|].
    apply ex_deep_derived. example_consulted.
  - apply (proj1 (proj2 (check_authority_recursion_bound ex_pts_address
                           ex_address_of_key ex_deep_active ex_deep_owner true ∅ 2
                           (delegate_to 31%N)
                           (new_sign_state ex_temp_account {[1%N]}) Hm I))).
    + apply ex_deep_chain_3; try reflexivity; [example_fits|by left].
    + apply ex_deep_derived. example_consulted.
  - apply (proj2 (proj2 (check_authority_recursion_bound ex_pts_address
                           ex_address_of_key ex_deep_active ex_deep_owner true ∅ 2
                           au_stray
                           (new_sign_state ex_temp_account {[1%N]}) Hm I)) 2%nat).
    + apply ex_deep_chain_3; try reflexivity; [example_fits|by right].
    + constructor. vm_compute. reflexivity.
Defined.

Lemma check_authority_depth_witness :
  (exists s', ex_deep_check 2 (delegate_to 33%N) 1
                (new_sign_state ex_temp_account {[1%N]}) = Ok true s')
  /\ (exists s', ex_deep_check 2 au_mixed 1
                   (new_sign_state ex_temp_account {[1%N]}) = Ok false s')
  /\ (exists s', ex_deep_check 2 (delegate_to 31%N) 3
                   (new_sign_state ex_temp_account {[1%N]}) = Ok true s').
Proof.
  assert (is_u32 1 /\ is_u32 2 /\ is_u32 3) as (H1 & H2 & H3)
    by (unfold is_u32, u32_modulus; lia).
  split; [|split].
  - apply (proj1 (proj1 (check_authority_depth ex_pts_address ex_address_of_key
             ex_deep_active ex_deep_owner true ∅ 2 1 1 (delegate_to 33%N)
             (new_sign_state ex_temp_account {[1%N]}) H1 H2 I ex_deep_chain_1
             (ex_deep_derived 1 (delegate_to 33%N) ltac:(example_consulted)))
             ltac:(lia)));
      lia.
  - apply (proj2 (proj1 (check_authority_depth ex_pts_address ex_address_of_key
             ex_deep_active ex_deep_owner true ∅ 2 1 2 au_mixed
             (new_sign_state ex_temp_account {[1%N]}) H1 H2 I ex_deep_chain_2
             (ex_deep_derived 2 au_mixed ltac:(example_consulted)))
             ltac:(lia)));
      lia.
  - apply (proj2 (check_authority_depth ex_pts_address ex_address_of_key
             ex_deep_active ex_deep_owner true ∅ 2 3 3 (delegate_to 31%N)
             (new_sign_state ex_temp_account {[1%N]}) H3 H2 I
             (ex_deep_chain_3 (delegate_to 31%N) ltac:(example_fits)
                ltac:(by left) eq_refl eq_refl eq_refl)
             (ex_deep_derived 3 (delegate_to 31%N) ltac:(example_consulted))));
      unfold u32_modulus; lia.
Defined.

(** ** Two invocations of verify_authority, and a call without a result *)

Lemma in_order_singleton (x : N) : in_order {[x]} = [x].
Proof. unfold in_order. by rewrite elements_singleton. Qed.

Section TwoInvocations.

Variable pts_address : public_key_type -> bool -> Z -> address.
Variable address_of_key : public_key_type -> address.
Variables GRAPHENE_TEMP_ACCOUNT GRAPHENE_COMMITTEE_ACCOUNT : account_id_type.
Variable operation : Type.
Variable rejected_predicate_map : Type.
Variable no_rejections : rejected_predicate_map.
Variable operation_get_required_authorities :
  operation -> bool -> required -> required.
Variables allow_non_immediate_owner ignore_custom_operation_required_auths : bool.
Variable max_recursion_depth : Z.

(** The callbacks as the first and as the second invocation see them. *)
Variables get_active get_active' : account_id_type -> option authority.
Variables get_owner get_owner' : account_id_type -> option authority.
Variables get_custom get_custom' :
  custom_authority_lookup operation rejected_predicate_map.

(** Stable callbacks: the second invocation gets the answers of the first. *)
Hypothesis get_active_stable : forall id, get_active id = get_active' id.
Hypothesis get_owner_stable : forall id, get_owner id = get_owner' id.
Hypothesis get_custom_stable :
  forall id op rejected, get_custom id op rejected = get_custom' id op rejected.

Local Abbreviation verify_authority_with ga go gc :=
  (verify_authority pts_address address_of_key GRAPHENE_TEMP_ACCOUNT
     GRAPHENE_COMMITTEE_ACCOUNT operation rejected_predicate_map no_rejections
     operation_get_required_authorities ga go gc
     allow_non_immediate_owner ignore_custom_operation_required_auths
     max_recursion_depth).
Local Abbreviation required_of :=
  (required_of operation operation_get_required_authorities
     ignore_custom_operation_required_auths).
Local Abbreviation signed_weight := (signed_weight pts_address address_of_key).
Local Abbreviation address_in := (address_in pts_address address_of_key).

(** The one required account [id] is not approved, the signature keys do
    not reach the threshold of its active authority, and this authority
    lists an address that no signature key derives. *)
Lemma requirement_checks_address_missed (ops : list operation)
    (sigs : gset public_key_type) (allow_committee : bool)
    (active_aprovals owner_approvals : gset account_id_type)
    (id : account_id_type) (auth : authority) :
  (forall id' op rejected, (get_custom id' op rejected).1 = []) ->
  (required_of ops ∅ nothing_required).1 = {[id]} ->
  owner (required_of ops ∅ nothing_required).2 = ∅ ->
  other (required_of ops ∅ nothing_required).2 = [] ->
  allow_committee = true \/ id <> GRAPHENE_COMMITTEE_ACCOUNT ->
  id ∉ {[GRAPHENE_TEMP_ACCOUNT]} ∪ active_aprovals ∪ owner_approvals ->
  get_active id = Some auth ->
  authority_fits auth ->
  signed_weight sigs auth < weight_threshold auth ->
  Exists (fun e => address_in sigs e.1 = false) (address_auths auth) ->
  requirement_checks pts_address address_of_key GRAPHENE_TEMP_ACCOUNT
    GRAPHENE_COMMITTEE_ACCOUNT operation rejected_predicate_map no_rejections
    operation_get_required_authorities get_active get_owner get_custom
    allow_non_immediate_owner ignore_custom_operation_required_auths
    max_recursion_depth ops sigs allow_committee active_aprovals owner_approvals
  = Undefined_behaviour.
Proof.
  intros Hno Hact Hown Hoth Hcom Hid Hauth Hfit Hlow Hex.
  rewrite (requirement_checks_no_custom _ _ _ _ _ _ _ _ _ _ _ _ _ _ Hno).
  cbv zeta. rewrite Hact, Hown, Hoth.
  assert (negb allow_committee
          && bool_decide (GRAPHENE_COMMITTEE_ACCOUNT ∈ ({[id]} : gset account_id_type))
          = false) as ->.
  { destruct Hcom as [->|Hne]; [done|].
    rewrite bool_decide_eq_false_2; [apply andb_false_r|].
    intros Hin. apply elem_of_singleton in Hin. by symmetry in Hin. }
  change (in_order ∅) with (@nil N). rewrite in_order_singleton.
  cbn [other_loop owner_loop active_loop].
  match goal with
  | |- context [check_account _ _ _ _ _ _ _ id ?s0] => set (s := s0)
  end.
  assert (address_sigs_wf pts_address address_of_key ∅ s /\ signers ∅ s = sigs)
    as Hs.
  { split; [by do 2 apply approvals_wf|]. unfold signers, s.
    rewrite !approvals_provided, new_sign_state_dom. clear. set_solver. }
  assert (id ∉ approved_by s) as Hnot.
  { unfold s. rewrite !approvals_approved, !list_to_set_in_order. cbn.
    clear -Hid. set_solver. }
  unfold check_account, check_authority_account.
  rewrite decide_False by done.
  unfold active_or_owner, check_authority. rewrite Hauth.
  by rewrite (proj2 (check_unsigned pts_address address_of_key get_active get_owner
                       allow_non_immediate_owner ∅ sigs _ auth s Hs Hfit Hlow) Hex).
Qed.

(** C9.  Two invocations of [verify_authority] on the same operations,
    signature keys, flags, recursion bound and approval sets, with
    callbacks that give the second invocation the answers they gave the
    first: when the first returns or throws, the second does the same.
    A call need not return or throw: when the operations require an
    unapproved account whose active authority the signature keys do not
    meet and which lists an address that no signature key derives,
    [signed_by] dereferences a past-the-end iterator and writes through it,
    and the call has no defined outcome. *)
Theorem verify_authority_idempotent (ops : list operation)
    (sigs : gset public_key_type) (allow_committee : bool)
    (active_aprovals owner_approvals : gset account_id_type) :
  (forall o,
     verify_authority_with get_active get_owner get_custom
       ops sigs allow_committee active_aprovals owner_approvals = o ->
     o <> Undefined_behaviour ->
     verify_authority_with get_active' get_owner' get_custom'
       ops sigs allow_committee active_aprovals owner_approvals = o)
  /\ (forall id auth,
        (forall id' op rejected, (get_custom id' op rejected).1 = []) ->
        (required_of ops ∅ nothing_required).1 = {[id]} ->
        owner (required_of ops ∅ nothing_required).2 = ∅ ->
        other (required_of ops ∅ nothing_required).2 = [] ->
        allow_committee = true \/ id <> GRAPHENE_COMMITTEE_ACCOUNT ->
        id ∉ {[GRAPHENE_TEMP_ACCOUNT]} ∪ active_aprovals ∪ owner_approvals ->
        get_active id = Some auth ->
        authority_fits auth ->
        signed_weight sigs auth < weight_threshold auth ->
        Exists (fun e => address_in sigs e.1 = false) (address_auths auth) ->
        verify_authority_with get_active get_owner get_custom
          ops sigs allow_committee active_aprovals owner_approvals
        = Undefined_behaviour).
Proof using get_active_stable get_owner_stable get_custom_stable.
  split.
  - intros o <- _. symmetry. unfold verify_authority.
    by rewrite (requirement_checks_stable pts_address address_of_key
                  GRAPHENE_TEMP_ACCOUNT GRAPHENE_COMMITTEE_ACCOUNT operation
                  rejected_predicate_map no_rejections
                  operation_get_required_authorities allow_non_immediate_owner
                  ignore_custom_operation_required_auths max_recursion_depth
                  get_active get_active' get_owner get_owner' get_custom get_custom'
                  get_active_stable get_owner_stable get_custom_stable).
  - intros id auth Hno Hact Hown Hoth Hcom Hid Hauth Hfit Hlow Hex.
    unfold verify_authority.
    by rewrite (requirement_checks_address_missed ops sigs allow_committee
                  active_aprovals owner_approvals id auth).
Qed.

End TwoInvocations.

Lemma verify_authority_idempotent_witness :
  verify_authority ex_pts_address ex_address_of_key ex_temp_account
    ex_committee_account ex_operation unit tt ex_get_required
    ex_get_active_again ex_get_owner ex_get_custom false false 2
    [requires_active 11%N] {[1%N]} false ∅ ∅ = Returns tt
  /\ verify_authority ex_pts_address ex_address_of_key ex_temp_account
       ex_committee_account ex_operation unit tt ex_get_required
       ex_stray_active ex_get_owner (fun id op rejected => ([], rejected))
       false false 2 [requires_active 30%N] {[7%N]} false ∅ ∅
     = Undefined_behaviour.
Proof.
  split.
  - apply (proj1 (verify_authority_idempotent ex_pts_address ex_address_of_key
             ex_temp_account ex_committee_account ex_operation unit tt
             ex_get_required false false 2
             ex_get_active ex_get_active_again ex_get_owner ex_get_owner
             ex_get_custom ex_get_custom
             ex_get_active_stable (fun id => eq_refl) (fun id op rejected => eq_refl)
             [requires_active 11%N] {[1%N]} false ∅ ∅) (Returns tt)).
    + vm_compute. reflexivity.
    + discriminate.
  - apply (proj2 (verify_authority_idempotent ex_pts_address ex_address_of_key
             ex_temp_account ex_committee_account ex_operation unit tt
             ex_get_required false false 2
             ex_stray_active ex_stray_active ex_get_owner ex_get_owner
             (fun id op rejected => ([], rejected))
             (fun id op rejected => ([], rejected))
             (fun id => eq_refl) (fun id => eq_refl) (fun id op rejected => eq_refl)
             [requires_active 30%N] {[7%N]} false ∅ ∅)
             30%N (au_address 1 5%N)).
    + reflexivity.
    + vm_compute. reflexivity.
    + vm_compute. reflexivity.
    + reflexivity.
    + by right.
    + apply (bool_decide_unpack _). vm_compute. exact I.
    + reflexivity.
    + example_fits.
    + apply Z.ltb_lt. vm_compute. reflexivity.
    + constructor. vm_compute. reflexivity.
Defined.
